(** * LogicRadar: lag-correlation scan and lag-aligned valuation

    A shallow embedding of the analytical core of LogicRadar
    ([src/utils/math_utils.py], [src/engines/data_loader.py],
    [src/engines/detective_engine.py], [src/engines/price_model.py]) and
    the properties of its natural-language specification.

    Conventions of the embedding.
    - A timestamp is a day number in [Z] (proleptic Gregorian ordinal).
    - A value of a series is [option Q]: [None] is pandas' NaN (a missing
      value), [Some q] a finite number.  Arithmetic on values is exact.
      The program computes in binary64; what is proved on exact numbers
      is what does not depend on the rounding (which lags are compared,
      what is skipped, the bounds, the order of the findings).  Where the
      rounding decides, in the test [std() == 0] and between correlations
      that are equal as real numbers, the scanner is replayed in binary64
      (the definitions ending in [_b64]).
    - A series has strictly increasing dates, as the time series of the
      specification: a frame keeps one row a date, and a slice from a
      date on is a filter.  pandas repeats the rows of a repeated date in
      a join and raises [KeyError] on a slice of an index that is not
      monotonic; statements on what [train] raises assume
      [increasing_dates].
    - A statistic (a standard deviation, a Pearson coefficient, a score) is a
      [float]: [NaN] or [Fin s], where the rational [s] is the SIGNED SQUARE
      x*|x| of the real number x it stands for.  Standard deviations and
      Pearson coefficients are square roots of rationals, and x |-> x*|x| is
      an increasing bijection of the reals, so the comparisons, absolute
      values and maxima the program takes are decided exactly on signed
      squares.  A rational constant c of the source is written [of_Q c].
    - pandas, numpy and scikit-learn are not part of the repository: pandas
      operations are given their documented meaning on these lists, and the
      random generator, the two network fetches, the interactive validator
      and the regression routines are variables of the sections using them. *)

From Stdlib Require Import String Ascii.
From Stdlib Require Import ZArith QArith Qabs Qround Qreduction Qminmax.
From Stdlib Require Import List Bool Lia Lqa Permutation Sorted.
From Stdlib Require PrimFloat.
Import ListNotations.

Local Open Scope Q_scope.

(* ------------------------------------------------------------------ *)
(** ** Floats *)

Inductive float : Type :=
| NaN
| Fin (s : Q).

(** The rational constant [c] as a float (its signed square). *)
Definition of_Q (c : Q) : Q := Qred (c * Qabs c).

Definition zero : float := Fin 0.

(** [pd.isna] / [np.isnan]. *)
Definition isna (x : float) : bool :=
  match x with NaN => true | Fin _ => false end.

(** [abs(x)]. *)
Definition fabs (x : float) : float :=
  match x with NaN => NaN | Fin s => Fin (Qabs s) end.

Definition Qltb (a b : Q) : bool := negb (Qle_bool b a).

(** [x > y]; false as soon as one side is NaN. *)
Definition fgt (x y : float) : bool :=
  match x, y with
  | Fin a, Fin b => Qltb b a
  | _, _ => false
  end.

(** [x < y]. *)
Definition flt (x y : float) : bool := fgt y x.

(** [x == 0]; false on NaN. *)
Definition feq0 (x : float) : bool :=
  match x with NaN => false | Fin s => Qeq_bool s 0 end.

(** Python's [max(x, y)]: the second argument wins only when it is
    strictly greater. *)
Definition py_max (x y : float) : float := if fgt y x then y else x.

(** [round(x, 4)]: the nearest multiple of 1/10000, ties to even.  With
    [Fin s] standing for x, 10^4*|x| is the square root of [a = 10^8*|s|];
    [m] is its integer part and the comparison of [a] with (m + 1/2)^2
    decides the rounding direction. *)
Definition round4 (x : float) : float :=
  match x with
  | NaN => NaN
  | Fin s =>
      let a := Qabs s * inject_Z 100000000 in
      let m := Z.sqrt (Qfloor a) in
      let half := inject_Z (m * m + m) + (1 # 4) in
      let k := match a ?= half with
               | Gt => (m + 1)%Z
               | Lt => m
               | Eq => if Z.even m then m else (m + 1)%Z
               end in
      let r := inject_Z k / inject_Z 10000 in
      Fin (Qred (if Qle_bool 0 s then r * r else - (r * r)))
  end.

(* ------------------------------------------------------------------ *)
(** ** Series (pandas [Series] with a date index) *)

Definition Series : Type := list (Z * option Q).

Definition index (s : Series) : list Z := map fst s.
Definition values (s : Series) : list (option Q) := map snd s.

Definition notnull (v : option Q) : bool :=
  match v with Some _ => true | None => false end.

(** [s.empty]. *)
Definition s_empty (s : Series) : bool :=
  match s with [] => true | _ => false end.

(** [s.dropna()]. *)
Definition s_dropna (s : Series) : Series :=
  filter (fun p => notnull (snd p)) s.

(** The non-missing values of a series, in order. *)
Fixpoint present (vs : list (option Q)) : list Q :=
  match vs with
  | [] => []
  | Some v :: r => v :: present r
  | None :: r => present r
  end.

(** The value stored at label [t] (first occurrence). *)
Fixpoint lookup (t : Z) (s : Series) : option (option Q) :=
  match s with
  | [] => None
  | (u, v) :: r => if Z.eqb t u then Some v else lookup t r
  end.

(** [s.shift(periods)] without [freq]: the values move by [periods]
    positions, the index stays as it is, the vacated positions are NaN and
    the values pushed over the end are lost. *)
Definition shift_values (vs : list (option Q)) (periods : Z)
  : list (option Q) :=
  let n := length vs in
  if (0 <=? periods)%Z
  then firstn n (repeat None (Z.to_nat periods) ++ vs)
  else skipn (Z.to_nat (- periods)) vs
         ++ repeat None (Nat.min n (Z.to_nat (- periods))).

Definition shift (s : Series) (periods : Z) : Series :=
  combine (index s) (shift_values (values s) periods).

(** Sums in lowest terms. *)
Definition Qsum (l : list Q) : Q :=
  fold_right (fun x acc => Qred (x + acc)) 0 l.

Definition Qlen (l : list Q) : Q := inject_Z (Z.of_nat (length l)).

Definition mean (l : list Q) : Q := Qred (Qsum l / Qlen l).

(** Sum of the products of the deviations from the means. *)
Definition sum_dev (xs ys : list Q) : Q :=
  let mx := mean xs in
  let my := mean ys in
  Qsum (map (fun p => (fst p - mx) * (snd p - my)) (combine xs ys)).

(** [s.std()]: sample standard deviation (ddof = 1) of the non-missing
    values, NaN when there are fewer than two.  The signed square of a
    standard deviation is the variance.  As a real number: in binary64
    the deviation of a constant series is 0 only when its mean is not
    rounded ([std_b64]). *)
Definition std (s : Series) : float :=
  let xs := present (values s) in
  if (length xs <=? 1)%nat then NaN
  else Fin (Qred (sum_dev xs xs / (Qlen xs - 1))).

(** The pairs of values a correlation is taken over: the labels common to
    both series at which both values are present. *)
Fixpoint common (a b : Series) : list (Q * Q) :=
  match a with
  | [] => []
  | (t, Some x) :: r =>
      match lookup t b with
      | Some (Some y) => (x, y) :: common r b
      | _ => common r b
      end
  | (_, None) :: r => common r b
  end.

(** Pearson's coefficient of a list of pairs ([np.corrcoef]): NaN on fewer
    than two pairs and when either side has no variance (0/0).  As a real
    number: in binary64 a coefficient that is 1 may come out one unit in
    the last place below ([corrcoef_b64]). *)
Definition pearson (ps : list (Q * Q)) : float :=
  let xs := map fst ps in
  let ys := map snd ps in
  if (length ps <? 2)%nat then NaN
  else
    let sxx := sum_dev xs xs in
    let syy := sum_dev ys ys in
    let sxy := sum_dev xs ys in
    if Qeq_bool sxx 0 || Qeq_bool syy 0 then NaN
    else Fin (Qred (sxy * Qabs sxy / (sxx * syy))).

(** [a.corr(b)]. *)
Definition corr (a b : Series) : float := pearson (common a b).

(* ------------------------------------------------------------------ *)
(** ** [src/utils/math_utils.py] *)

(** The candidate lags of [compute_max_lag_correlation] (line 17). *)
Definition lags : list Z := [0; 5; 10; 20; 40; 60]%Z.

(** Lines 21-28: the correlation of one candidate lag. *)
Definition lag_corr (target_series driver_series : Series) (lag : Z)
  : float :=
  let shifted_driver := shift driver_series lag in
  if feq0 (std shifted_driver) || feq0 (std target_series) then Fin 0
  else corr target_series shifted_driver.

(** Lines 19-35: one turn of the loop on the running (best_lag, max_corr). *)
Definition lag_step (target_series driver_series : Series)
  (best : Z * float) (lag : Z) : Z * float :=
  let c := lag_corr target_series driver_series lag in
  if isna c then best
  else if fgt (fabs c) (fabs (snd best)) then (lag, c)
  else best.

(** The loop over a list of candidate lags. *)
Definition scan_lags (target_series driver_series : Series)
  (candidates : list Z) (best : Z * float) : Z * float :=
  fold_left (lag_step target_series driver_series) candidates best.

Definition compute_max_lag_correlation
  (target_series driver_series : Series) (max_lookback : Z) : Z * float :=
  scan_lags target_series driver_series lags (0%Z, zero).

(** Series with values at consecutive days from [t0]. *)
Fixpoint from_values (t0 : Z) (vs : list (option Q)) : Series :=
  match vs with
  | [] => []
  | v :: r => (t0, v) :: from_values (t0 + 1) r
  end.

(* ------------------------------------------------------------------ *)
(** ** Exceptions *)

Inductive exn : Type :=
| ValueError
| KeyError.

(** A computation that may raise: [inl e] is a raised exception. *)
Definition result (A : Type) : Type := (exn + A)%type.

Definition bind {A B : Type} (m : result A) (k : A -> result B) : result B :=
  match m with
  | inl e => inl e
  | inr a => k a
  end.

Notation "x <- m ;; k" := (bind m (fun x => k))
  (at level 61, m at next level, right associativity).

(* ------------------------------------------------------------------ *)
(** ** Data frames (pandas [DataFrame] with a date index) *)

Record DataFrame : Type := mkDF {
  columns : list string;
  rows : list (Z * list (option Q))
}.

(** [pd.DataFrame()]. *)
Definition empty_frame : DataFrame := mkDF [] [].

(** [df.empty]: no column or no row. *)
Definition df_empty (df : DataFrame) : bool :=
  match columns df, rows df with
  | [], _ => true
  | _, [] => true
  | _, _ => false
  end.

(** [len(df)]. *)
Definition df_len (df : DataFrame) : nat := length (rows df).

Definition df_index (df : DataFrame) : list Z := map fst (rows df).

(** [s.to_frame(name)] / [pd.DataFrame(s)]. *)
Definition to_frame (s : Series) (name : string) : DataFrame :=
  mkDF [name] (map (fun p => (fst p, [snd p])) s).

(** Position of a column name. *)
Fixpoint col_pos (name : string) (cols : list string) : nat :=
  match cols with
  | [] => O
  | c :: r => if String.eqb name c then O else S (col_pos name r)
  end.

(** [df[name]]. *)
Definition column (df : DataFrame) (name : string) : Series :=
  let i := col_pos name (columns df) in
  map (fun r => (fst r, nth i (snd r) None)) (rows df).

(** [df[name] = vs] on an existing column (positional assignment). *)
Fixpoint set_nth (i : nat) (v : option Q) (l : list (option Q))
  : list (option Q) :=
  match i, l with
  | _, [] => []
  | O, _ :: r => v :: r
  | S j, x :: r => x :: set_nth j v r
  end.

Fixpoint set_values (i : nat) (vs : list (option Q))
  (rs : list (Z * list (option Q))) : list (Z * list (option Q)) :=
  match rs, vs with
  | (t, l) :: r, v :: w => (t, set_nth i v l) :: set_values i w r
  | _, _ => rs
  end.

Definition set_column (df : DataFrame) (name : string)
  (vs : list (option Q)) : DataFrame :=
  mkDF (columns df) (set_values (col_pos name (columns df)) vs (rows df)).

(** The values of the row labelled [t], NaN everywhere when there is none. *)
Fixpoint row_at (width : nat) (t : Z) (rs : list (Z * list (option Q)))
  : list (option Q) :=
  match rs with
  | [] => repeat None width
  | (u, l) :: r => if Z.eqb t u then l else row_at width t r
  end.

Definition cell (t : Z) (s : Series) : option Q :=
  match lookup t s with
  | Some v => v
  | None => None
  end.

(** Union of two indexes, increasing and without repetition. *)
Fixpoint insert_label (t : Z) (l : list Z) : list Z :=
  match l with
  | [] => [t]
  | u :: r =>
      if (t <? u)%Z then t :: l
      else if (t =? u)%Z then l
      else u :: insert_label t r
  end.

Definition union_index (a b : list Z) : list Z :=
  fold_right insert_label [] (a ++ b).

(** [df.join(s, how='outer')] for a series named [name]: the rows are the
    union of the two indexes; pandas refuses a column name already there
    ("columns overlap but no suffix specified").  One row a date: for
    dates that do not repeat. *)
Definition join_outer (df : DataFrame) (s : Series) (name : string)
  : result DataFrame :=
  if existsb (String.eqb name) (columns df) then inl ValueError
  else
    let w := length (columns df) in
    inr (mkDF (columns df ++ [name])
           (map (fun t => (t, row_at w t (rows df) ++ [cell t s]))
              (union_index (df_index df) (index s)))).

(** [df.join(other, how='left')] for a one-column frame [other]. *)
Definition join_left (df : DataFrame) (s : Series) (name : string)
  : DataFrame :=
  mkDF (columns df ++ [name])
    (map (fun r => (fst r, snd r ++ [cell (fst r) s])) (rows df)).

(** [df.dropna()]: the rows without a missing value. *)
Definition df_dropna (df : DataFrame) : DataFrame :=
  mkDF (columns df) (filter (fun r => forallb notnull (snd r)) (rows df)).

(** [df.loc[start:]] on an increasing date index: the rows from [start]
    on. *)
Definition loc_from (start : Z) (df : DataFrame) : DataFrame :=
  mkDF (columns df) (filter (fun r => (start <=? fst r)%Z) (rows df)).

(** [df.tail(n)]. *)
Definition tail (n : nat) (df : DataFrame) : DataFrame :=
  mkDF (columns df) (skipn (length (rows df) - n) (rows df)).

(** [df.sort_index()]: stable insertion by label. *)
Fixpoint insert_row (x : Z * list (option Q))
  (l : list (Z * list (option Q))) : list (Z * list (option Q)) :=
  match l with
  | [] => [x]
  | y :: r => if (fst y <=? fst x)%Z then y :: insert_row x r else x :: l
  end.

Definition sort_index (df : DataFrame) : DataFrame :=
  mkDF (columns df) (fold_left (fun acc x => insert_row x acc) (rows df) []).

(** [pd.concat([a, b], axis=1)] followed by [df.columns = [na, nb]]. *)
Definition concat_columns (a b : Series) (na nb : string) : DataFrame :=
  mkDF [na; nb]
    (map (fun t => (t, [cell t a; cell t b]))
       (union_index (index a) (index b))).

(** [s.interpolate(method='time')]: a missing value between two known ones
    is filled linearly in time; after the last known value the series is
    continued with it; before the first known value it stays missing. *)
Fixpoint next_known (s : Series) : option (Z * Q) :=
  match s with
  | [] => None
  | (t, Some v) :: _ => Some (t, v)
  | (_, None) :: r => next_known r
  end.

Fixpoint interpolate_from (prev : option (Z * Q)) (s : Series) : Series :=
  match s with
  | [] => []
  | (t, Some v) :: r => (t, Some v) :: interpolate_from (Some (t, v)) r
  | (t, None) :: r =>
      let v :=
        match prev, next_known r with
        | Some (t0, v0), Some (t1, v1) =>
            Some (Qred (v0 + (v1 - v0) * inject_Z (t - t0)
                                  / inject_Z (t1 - t0)))
        | Some (_, v0), None => Some v0
        | None, _ => None
        end in
      (t, v) :: interpolate_from prev r
  end.

Definition interpolate_time (s : Series) : Series := interpolate_from None s.

(** [s.ffill()] and [s.bfill()]. *)
Fixpoint ffill_from (prev : option Q) (vs : list (option Q))
  : list (option Q) :=
  match vs with
  | [] => []
  | Some v :: r => Some v :: ffill_from (Some v) r
  | None :: r => prev :: ffill_from prev r
  end.

Definition ffill (s : Series) : Series :=
  combine (index s) (ffill_from None (values s)).

Definition bfill (s : Series) : Series :=
  combine (index s) (rev (ffill_from None (rev (values s)))).

(** [s.mean()], NaN on a series without values. *)
Definition s_mean (s : Series) : option Q :=
  match present (values s) with
  | [] => None
  | xs => Some (mean xs)
  end.

(** [a + b] on values. *)
Definition vadd (a b : option Q) : option Q :=
  match a, b with
  | Some x, Some y => Some (Qred (x + y))
  | _, _ => None
  end.

Fixpoint add_noise (vs noise : list (option Q)) : list (option Q) :=
  match vs, noise with
  | v :: r, z :: w => vadd v z :: add_noise r w
  | _, _ => []
  end.

(* ------------------------------------------------------------------ *)
(** ** [src/engines/data_loader.py] and [src/engines/detective_engine.py] *)

Record Finding : Type := mkFinding {
  code : string;
  max_corr : float;
  recent_corr : float;
  best_lag : Z;
  sample_size : nat
}.

(** A finding after the semantic check of [analyze]. *)
Record Checked : Type := mkChecked {
  finding : Finding;
  is_logical : option bool;
  logic_reason : string
}.

(** The key of [findings.sort] (line 124). *)
Definition sort_key (x : Finding) : float :=
  py_max (fabs (max_corr x)) (fabs (recent_corr x)).

(** [findings.sort(key=..., reverse=True)]: Python's sort compares keys
    with [<] only and is stable, also when reversed. *)
Fixpoint insert_desc (x : Finding) (l : list Finding) : list Finding :=
  match l with
  | [] => [x]
  | y :: r =>
      if flt (sort_key x) (sort_key y) then y :: insert_desc x r
      else x :: l
  end.

Fixpoint sort_desc (l : list Finding) : list Finding :=
  match l with
  | [] => []
  | x :: r => insert_desc x (sort_desc r)
  end.

(** ['=' in code]. *)
Fixpoint has_equals (s : string) : bool :=
  match s with
  | EmptyString => false
  | String c r => Ascii.eqb c "="%char || has_equals r
  end.

(** The default universe of [DetectiveEngine.__init__]. *)
Definition default_codes : list string :=
  ["HG=F"; "ALI=F"; "PNICKUSDM"; "VALE"; "GC=F"; "SI=F"; "CL=F";
   "T10Y2Y"; "DGS10"; "FEDFUNDS"; "VIXCLS"; "M2SL"]%string.

(** [macro_universe_codes or [...]]: [None] and the empty list both select
    the default universe. *)
Definition init_codes (macro_universe_codes : option (list string))
  : list string :=
  match macro_universe_codes with
  | Some (c :: r) => c :: r
  | _ => default_codes
  end.

(** 2020-01-01 as a day number. *)
Definition regime_start : Z := 737425%Z.

Definition noise_level : Q := 1 # 1000.

Section Engine.

(** The random generator behind [np.random.normal]: a state and a draw
    from the standard normal law. *)
Variable G : Type.
Variable standard_normal : G -> Q * G.

(** [DataLoader.fetch_stock_data] and [DataLoader.fetch_macro_data] as the
    engine sees them: the series found, empty when nothing was found or
    the provider failed (both methods catch every exception). *)
Variable fetch_stock_data : string -> Series.
Variable fetch_macro_data : string -> Series.

(** [SemanticValidator.check_causality]. *)
Variable check_causality : string -> string -> bool * string.

(** [self.macro_codes]. *)
Variable macro_codes : list string.

Fixpoint normals (size : nat) (g : G) : list Q * G :=
  match size with
  | O => ([], g)
  | S n =>
      let (z, g1) := standard_normal g in
      let (zs, g2) := normals n g1 in
      (z :: zs, g2)
  end.

(** [np.random.normal(loc=0, scale=scale, size=size)]: raises
    [ValueError] on a negative scale, before any draw; a NaN scale gives
    NaN. *)
Definition random_normal (scale : option Q) (size : nat) (g : G)
  : result (list (option Q)) * G :=
  match scale with
  | None =>
      let (zs, g') := normals size g in
      (inr (map (fun _ => None) zs), g')
  | Some s =>
      if Qltb s 0 then (inl ValueError, g)
      else
        let (zs, g') := normals size g in
        (inr (map (fun z => Some (Qred (s * z))) zs), g')
  end.

(** [DataLoader.fetch_and_align]. *)
Definition fetch_and_align (stock_ticker macro_code : string) (g : G)
  : result DataFrame * G :=
  let stock := fetch_stock_data stock_ticker in
  let macro := fetch_macro_data macro_code in
  if s_empty stock || s_empty macro then (inr empty_frame, g)
  else
    let df := concat_columns stock macro "Stock" "Macro" in
    let df := sort_index df in
    let df :=
      set_column df "Macro"
        (values (interpolate_time (column df "Macro"))) in
    let df :=
      set_column df "Macro" (values (bfill (ffill (column df "Macro")))) in
    let scale := option_map (fun m => Qred (m * noise_level))
                   (s_mean (column df "Macro")) in
    match random_normal scale (df_len df) g with
    | (inl e, g') => (inl e, g')
    | (inr noise, g') =>
        let df :=
          set_column df "Macro"
            (add_noise (values (column df "Macro")) noise) in
        (inr (df_dropna df), g')
    end.

(** Lines 61-74 of [analyze]: the frame of one candidate, [None] when the
    loop goes on to the next candidate at line 65. *)
Definition load_frame (ticker c : string) (g : G)
  : result (option DataFrame) * G :=
  let is_yahoo := has_equals c || String.eqb c "VALE" in
  if is_yahoo then
    let macro_series := fetch_stock_data c in
    if s_empty macro_series then (inr None, g)
    else
      let stock_series := fetch_stock_data ticker in
      (inr (Some (df_dropna
                    (concat_columns stock_series macro_series
                       "Stock" "Macro"))), g)
  else
    match fetch_and_align ticker c g with
    | (inl e, g') => (inl e, g')
    | (inr df, g') => (inr (Some df), g')
    end.

(** Line 102: the score deciding whether a candidate is kept. *)
Definition final_score (max_c recent_c : float) : float :=
  py_max (fabs max_c) (fabs recent_c).

(** Lines 93-97: the short-window correlation of a regime frame. *)
Definition recent_score (df : DataFrame) : float :=
  let recent_df := tail 60 df in
  if (20 <? df_len recent_df)%nat then
    snd (compute_max_lag_correlation
           (column recent_df "Stock") (column recent_df "Macro") 10)
  else zero.

(** Lines 76-117 of [analyze]: from the frame of a candidate to its
    finding, [None] when the candidate is passed over. *)
Definition score_frame (c : string) (df : DataFrame) : option Finding :=
  if df_empty df || (df_len df <? 30)%nat then None
  else
    let df := loc_from regime_start df in
    if df_empty df || (df_len df <? 30)%nat then None
    else
      let stock_data := column df "Stock" in
      let macro_data := column df "Macro" in
      let (lag, max_c) :=
        compute_max_lag_correlation stock_data macro_data 60 in
      let recent_c := recent_score df in
      if fgt (final_score max_c recent_c) (Fin (of_Q (15 # 100)))
         || String.eqb c "PNICKUSDM"
      then
        Some (mkFinding c
                (if negb (isna max_c) then round4 max_c else zero)
                (if negb (isna recent_c) then round4 recent_c else zero)
                lag (df_len df))
      else None.

(** The body of the [try] (lines 58-117) for one candidate. *)
Definition analyze_code (ticker c : string) (g : G)
  : result (option Finding) * G :=
  match load_frame ticker c g with
  | (inl e, g') => (inl e, g')
  | (inr None, g') => (inr None, g')
  | (inr (Some df), g') => (inr (score_frame c df), g')
  end.

(** The loop of lines 57-121: an exception raised by the body is caught
    and the loop goes on with the next candidate. *)
Fixpoint scan (ticker : string) (codes : list string) (g : G)
  (findings : list Finding) : list Finding * G :=
  match codes with
  | [] => (findings, g)
  | c :: r =>
      match analyze_code ticker c g with
      | (inr (Some f), g') => scan ticker r g' (findings ++ [f])
      | (inr None, g') => scan ticker r g' findings
      | (inl _, g') => scan ticker r g' findings
      end
  end.

(** Lines 131-148: the semantic check of the sorted findings. *)
Fixpoint validate (ticker : string) (skip_validation : bool)
  (top_findings : list Finding) : list Checked :=
  match top_findings with
  | [] => []
  | f :: r =>
      if skip_validation then
        mkChecked f None "Pending Verification"
          :: validate ticker skip_validation r
      else
        let (is_valid, reason) := check_causality ticker (code f) in
        if is_valid then
          mkChecked f (Some is_valid) reason
            :: validate ticker skip_validation r
        else validate ticker skip_validation r
  end.

(** [DetectiveEngine.analyze]. *)
Definition analyze (ticker : string) (skip_validation : bool) (g : G)
  : list Checked * G :=
  let stock_series := fetch_stock_data ticker in
  if s_empty stock_series then ([], g)
  else
    let (findings, g') := scan ticker macro_codes g [] in
    (validate ticker skip_validation (sort_desc findings), g').

End Engine.

(* ------------------------------------------------------------------ *)
(** ** [src/engines/price_model.py] *)

(** An entry of [macros_data]: [{'series': ..., 'lag': ...}]. *)
Record DriverInfo : Type := mkDriver {
  series : Series;
  lag : Z
}.

(** The fields [load_data] sets on a [PriceModel]; [drivers] is a Python
    dict, kept as the list of its items in insertion order. *)
Record PriceModel : Type := mkPriceModel {
  stock_series : Series;
  drivers : list (string * DriverInfo)
}.

Record Metrics : Type := mkMetrics {
  R2 : Q;
  Intercept : Q;
  Coefficients : list (string * Q);
  Max_Lag : Z
}.

(** [PriceModel.load_data]. *)
Definition load_data (stock : Series)
  (macros_data : list (string * DriverInfo)) : PriceModel :=
  mkPriceModel (s_dropna stock) macros_data.

(** [self.drivers[code]]. *)
Fixpoint get_driver (ds : list (string * DriverInfo)) (c : string)
  : result DriverInfo :=
  match ds with
  | [] => inl KeyError
  | (k, info) :: r => if String.eqb c k then inr info else get_driver r c
  end.

(** [df[names]]: the listed columns, [KeyError] on an unknown name. *)
Fixpoint positions (cols names : list string) : result (list nat) :=
  match names with
  | [] => inr []
  | n :: r =>
      if existsb (String.eqb n) cols then
        ps <- positions cols r ;; inr (col_pos n cols :: ps)
      else inl KeyError
  end.

Definition select (df : DataFrame) (names : list string)
  : result DataFrame :=
  ps <- positions (columns df) names ;;
  inr (mkDF names
         (map (fun r => (fst r, map (fun i => nth i (snd r) None) ps))
            (rows df))).

(** Lines 46-64 of [train]: the drivers, each shifted by its lag, joined to
    the target one after the other. *)
Fixpoint join_drivers (ds : list (string * DriverInfo))
  (df : DataFrame) (driver_cols : list string) (max_lag : Z)
  : result (DataFrame * list string * Z) :=
  match ds with
  | [] => inr (df, driver_cols, max_lag)
  | (c, info) :: r =>
      let max_lag := if (max_lag <? lag info)%Z then lag info else max_lag in
      let shifted_series := shift (series info) (lag info) in
      df' <- join_outer df shifted_series c ;;
      join_drivers r df' (driver_cols ++ [c]) max_lag
  end.

(** Lines 92-102 of [train]: the frame of the shifted drivers alone. *)
Fixpoint build_full (ds : list (string * DriverInfo))
  (driver_cols : list string) (full_df : DataFrame) : result DataFrame :=
  match driver_cols with
  | [] => inr full_df
  | c :: r =>
      info <- get_driver ds c ;;
      let shifted := shift (series info) (lag info) in
      if df_empty full_df then build_full ds r (to_frame shifted c)
      else
        full_df' <- join_outer full_df shifted c ;;
        build_full ds r full_df'
  end.

(** [(actual - fair) / fair]; not a finite number when [fair] is 0. *)
Definition deviation (actual fair : option Q) : option Q :=
  match actual, fair with
  | Some a, Some f =>
      if Qeq_bool f 0 then None else Some (Qred ((a - f) / f))
  | _, _ => None
  end.

Section Train.

(** scikit-learn's [LinearRegression] and [r2_score]. *)
Variable Model : Type.
Variable fit : list (list Q) -> list Q -> result Model.
Variable predict : Model -> list Q -> Q.
Variable coef_ : Model -> list Q.
Variable intercept_ : Model -> Q.
Variable r2_score : list Q -> list Q -> Q.

(** Lines 111-124: fair value, actual price and deviation of the rows of
    [full_X]; the left join takes the price of the day, for a target
    whose dates do not repeat. *)
Definition fair_value_table (m : Model) (actual : Series)
  (features : DataFrame) : DataFrame :=
  mkDF ["Fair_Value"; "Actual"; "Deviation"]%string
    (map (fun r =>
            let fair := Some (predict m (present (snd r))) in
            let act := cell (fst r) actual in
            (fst r, [fair; act; deviation act fair]))
       (rows features)).

(** [PriceModel.train] for a target held as a [Series]. *)
Definition train (self : PriceModel) (cutoff_date : Z)
  : result (option (Metrics * DataFrame)) :=
  let df := to_frame (stock_series self) "Y" in
  j <- join_drivers (drivers self) df [] 0%Z ;;
  let '(df, driver_cols, max_lag) := j in
  let df_train := df_dropna (loc_from cutoff_date df) in
  if df_empty df_train then inr None
  else
    X <- select df_train driver_cols ;;
    let y := present (values (column df_train "Y")) in
    let xs := map (fun r => present (snd r)) (rows X) in
    m <- fit xs y ;;
    let r2 := r2_score y (map (predict m) xs) in
    full_df <- build_full (drivers self) driver_cols empty_frame ;;
    let full_df := loc_from cutoff_date full_df in
    let full_X := df_dropna full_df in
    features <- select full_X driver_cols ;;
    let result_df := fair_value_table m (stock_series self) features in
    let coefs := combine driver_cols (coef_ m) in
    inr (Some (mkMetrics r2 (intercept_ m) coefs max_lag, result_df)).

End Train.


(* ------------------------------------------------------------------ *)
(** ** The scanner in binary64

    Above, numbers are exact.  The program computes in IEEE 754 binary64,
    and two of its tests depend on the rounding: [std() == 0] and the
    strict [>] on correlations that should be equal.  This part replays
    [compute_max_lag_correlation] in binary64, operation by operation:
    [Series.std] as pandas' [nanops.nanvar] does it (mean, squared
    deviations, division by n - 1, square root), [Series.corr] as
    [np.corrcoef] does it (mean-centred rows, their products, the
    division by the two deviations, the clip to [-1, 1]); sums are taken
    from left to right, which is what numpy does on fewer than eight
    values.  A missing value is NaN, as in pandas. *)

Definition b64 : Type := PrimFloat.float.

(** The integer [n] as a float (exact for the small [n] used here). *)
Fixpoint b64_of_nat (n : nat) : b64 :=
  match n with
  | O => PrimFloat.zero
  | S k => PrimFloat.add (b64_of_nat k) PrimFloat.one
  end.

Definition Series_b64 : Type := list (Z * b64).

Definition notna_b64 (x : b64) : bool := negb (PrimFloat.is_nan x).

Definition sum_b64 (l : list b64) : b64 :=
  fold_left PrimFloat.add l PrimFloat.zero.

(** [s.std()]: [nanops.nanstd] with ddof = 1. *)
Definition std_b64 (s : Series_b64) : b64 :=
  let xs := filter notna_b64 (map snd s) in
  let count := length xs in
  if (count <=? 1)%nat then PrimFloat.nan
  else
    let n := b64_of_nat count in
    let avg := PrimFloat.div (sum_b64 xs) n in
    let sqr :=
      map (fun x => let d := PrimFloat.sub avg x in PrimFloat.mul d d) xs in
    PrimFloat.sqrt
      (PrimFloat.div (sum_b64 sqr) (PrimFloat.sub n PrimFloat.one)).

(** [s.shift(periods)] for [periods >= 0]. *)
Definition shift_b64 (s : Series_b64) (periods : Z) : Series_b64 :=
  let vs := map snd s in
  combine (map fst s)
    (firstn (length vs) (repeat PrimFloat.nan (Z.to_nat periods) ++ vs)).

Fixpoint lookup_b64 (t : Z) (s : Series_b64) : option b64 :=
  match s with
  | [] => None
  | (u, v) :: r => if Z.eqb t u then Some v else lookup_b64 t r
  end.

(** The pairs a correlation is taken over: the common labels at which
    neither value is NaN. *)
Fixpoint common_b64 (a b : Series_b64) : list (b64 * b64) :=
  match a with
  | [] => []
  | (t, x) :: r =>
      match lookup_b64 t b with
      | Some y =>
          if notna_b64 x && notna_b64 y then (x, y) :: common_b64 r b
          else common_b64 r b
      | None => common_b64 r b
      end
  end.

Definition dot_b64 (u v : list b64) : b64 :=
  sum_b64 (map (fun p => PrimFloat.mul (fst p) (snd p)) (combine u v)).

(** [np.clip(c, -1, 1)]; NaN stays NaN. *)
Definition clip_b64 (c : b64) : b64 :=
  if PrimFloat.ltb c (PrimFloat.opp PrimFloat.one)
  then PrimFloat.opp PrimFloat.one
  else if PrimFloat.ltb PrimFloat.one c then PrimFloat.one
  else c.

(** [np.corrcoef(x, y)[0, 1]]. *)
Definition corrcoef_b64 (ps : list (b64 * b64)) : b64 :=
  let n := b64_of_nat (length ps) in
  let xs := map fst ps in
  let ys := map snd ps in
  let mx := PrimFloat.div (sum_b64 xs) n in
  let my := PrimFloat.div (sum_b64 ys) n in
  let dx := map (fun x => PrimFloat.sub x mx) xs in
  let dy := map (fun y => PrimFloat.sub y my) ys in
  let inv := PrimFloat.div PrimFloat.one (PrimFloat.sub n PrimFloat.one) in
  let cxx := PrimFloat.mul (dot_b64 dx dx) inv in
  let cxy := PrimFloat.mul (dot_b64 dx dy) inv in
  let cyy := PrimFloat.mul (dot_b64 dy dy) inv in
  clip_b64
    (PrimFloat.div (PrimFloat.div cxy (PrimFloat.sqrt cxx))
       (PrimFloat.sqrt cyy)).

(** [a.corr(b)]: NaN without a common observation. *)
Definition corr_b64 (a b : Series_b64) : b64 :=
  match common_b64 a b with
  | [] => PrimFloat.nan
  | ps => corrcoef_b64 ps
  end.

(** Lines 21-28 of [compute_max_lag_correlation]. *)
Definition lag_corr_b64 (target_series driver_series : Series_b64)
  (lag : Z) : b64 :=
  let shifted_driver := shift_b64 driver_series lag in
  if PrimFloat.eqb (std_b64 shifted_driver) PrimFloat.zero
     || PrimFloat.eqb (std_b64 target_series) PrimFloat.zero
  then PrimFloat.zero
  else corr_b64 target_series shifted_driver.

(** Lines 30-35. *)
Definition lag_step_b64 (target_series driver_series : Series_b64)
  (best : Z * b64) (lag : Z) : Z * b64 :=
  let c := lag_corr_b64 target_series driver_series lag in
  if PrimFloat.is_nan c then best
  else if PrimFloat.ltb (PrimFloat.abs (snd best)) (PrimFloat.abs c)
       then (lag, c)
  else best.

Definition compute_max_lag_correlation_b64
  (target_series driver_series : Series_b64) (max_lookback : Z)
  : Z * b64 :=
  fold_left (lag_step_b64 target_series driver_series) lags
    (0%Z, PrimFloat.zero).

(** Values on consecutive days from [t0]. *)
Fixpoint from_values_b64 (t0 : Z) (vs : list b64) : Series_b64 :=
  match vs with
  | [] => []
  | v :: r => (t0, v) :: from_values_b64 (t0 + 1) r
  end.

(** 0.1, the double nearest to one tenth. *)
Definition tenth : b64 := PrimFloat.div PrimFloat.one (b64_of_nat 10).

(** A target that rises on its third day and a driver that stays at
    0.1. *)
Definition late_target_b64 : Series_b64 :=
  from_values_b64 0 [PrimFloat.zero; PrimFloat.zero; PrimFloat.one].
Definition constant_driver_b64 : Series_b64 :=
  from_values_b64 0 [tenth; tenth; tenth].

(* ------------------------------------------------------------------ *)
(** ** Notions used by the statements *)

(** The magnitude read by the comparisons of the scan (0 on NaN, which
    never reaches a comparison). *)
Definition mag (x : float) : Q :=
  match x with
  | NaN => 0
  | Fin s => Qabs s
  end.

(** A lag has a valid score when its correlation is not NaN. *)
Definition valid_lag (target driver : Series) (l : Z) : Prop :=
  isna (lag_corr target driver l) = false.


(** What the running best of the scan means once the lags [seen] have
    been tried: either it is still the initial (0, 0) and every valid score
    seen is zero, or it is the first lag seen whose valid score is the
    largest in absolute value. *)
Definition scan_inv (target driver : Series) (seen : list Z)
  (best : Z * float) : Prop :=
  isna (snd best) = false /\
  (forall l, In l seen -> valid_lag target driver l ->
             mag (lag_corr target driver l) <= mag (snd best)) /\
  ((best = (0%Z, zero) /\
    forall l, In l seen -> valid_lag target driver l ->
              mag (lag_corr target driver l) == 0)
   \/
   (exists pre post,
       seen = pre ++ fst best :: post /\
       snd best = lag_corr target driver (fst best) /\
       valid_lag target driver (fst best) /\
       0 < mag (snd best) /\
       forall l, In l pre -> valid_lag target driver l ->
                 mag (lag_corr target driver l) < mag (snd best))).

(** The sentence of the specification on the selected lag, word for word:
    as soon as some candidate has a valid score, the lag returned is a lag
    with a valid score, the correlation returned is the score of that lag,
    and no valid score is larger in absolute value. *)
Definition returns_best_valid_lag (target driver : Series) : Prop :=
  (exists l, In l lags /\ valid_lag target driver l) ->
  let r := compute_max_lag_correlation target driver 60 in
  valid_lag target driver (fst r) /\
  snd r = lag_corr target driver (fst r) /\
  forall l, In l lags -> valid_lag target driver l ->
            mag (lag_corr target driver l) <= mag (snd r).

Definition q (z : Z) : option Q := Some (inject_Z z).

(** A target known on its first two days only, and a driver that is flat
    but for its last day. *)
Definition sparse_target : Series :=
  from_values 0 [q 1; q 2; None; None; None; None; None; None].
Definition late_driver : Series :=
  from_values 0 [q 5; q 5; q 5; q 5; q 5; q 5; q 5; q 9].

(** All the numbers of a list are equal. *)
Definition flat (xs : list Q) : Prop :=
  forall x y, In x xs -> In y xs -> x == y.

(** The pairs compared at a lag: the common, fully populated labels of the
    target and the shifted driver. *)
Definition window (target driver : Series) (l : Z) : list (Q * Q) :=
  common target (shift driver l).

(** A target that moves for five days and then stays at 7, and a driver
    that rises every day. *)
Definition settling_target : Series :=
  from_values 0 [q 1; q 2; q 3; q 4; q 5; q 7; q 7; q 7].
Definition rising_driver : Series :=
  from_values 0 [q 1; q 2; q 3; q 4; q 5; q 6; q 7; q 8].


(** The number a float stands for, as a signed square (0 on NaN). *)
Definition fval (x : float) : Q :=
  match x with
  | NaN => 0
  | Fin s => s
  end.

(** *** A small world to run the engine in *)

(** [n] days of zeros with a one on day [k]. *)
Definition spike (n k : nat) (hi : Z) : list (option Q) :=
  map (fun i => if Nat.eqb i k then q hi else q 0) (seq 0 n).

(** Thirty days from 2020-01-01: the target peaks on day 25, copper on day
    5, twenty days earlier. *)
Definition demo_stock : Series := from_values regime_start (spike 30 25 1).
Definition demo_copper : Series := from_values regime_start (spike 30 5 1).
Definition demo_spread : Series := from_values regime_start (spike 30 5 (-1)).
Definition demo_flat : Series := from_values regime_start (repeat (q 7) 30).

Definition demo_fetch_stock (c : string) : Series :=
  if String.eqb c "1605.TW" then demo_stock
  else if String.eqb c "HG=F" then demo_copper
  else [].

Definition demo_fetch_macro (c : string) : Series :=
  if String.eqb c "DGS10" then demo_copper
  else if String.eqb c "T10Y2Y" then demo_spread
  else if String.eqb c "PNICKUSDM" then demo_flat
  else if String.eqb c "M2SL" then demo_flat
  else [].

(** A generator whose draws are all 0, counting the draws made. *)
Definition demo_normal (g : nat) : Q * nat := (0, S g).

(** A validator that accepts copper only. *)
Definition demo_check (ticker c : string) : bool * string :=
  if String.eqb c "HG=F" then (true, "Human Validation"%string)
  else (false, "Human Validation"%string).

Definition demo_analyze (codes : list string) (skip_validation : bool)
  : list Checked * nat :=
  analyze nat demo_normal demo_fetch_stock demo_fetch_macro demo_check
    codes "1605.TW" skip_validation O.

(** The frame of the target and copper, as [analyze] builds it. *)
Definition demo_frame : DataFrame :=
  df_dropna (concat_columns demo_stock demo_copper "Stock" "Macro").


(** *** Order of the findings *)

(** A finding whose two correlations are numbers. *)
Definition numeric (f : Finding) : Prop :=
  isna (max_corr f) = false /\ isna (recent_corr f) = false.

(** The combined score in the words of the specification: the larger of
    the magnitudes of the long-window and of the short-window correlation.
    A float [Fin s] stands for the number of signed square [s], so that
    this is the square of the score; squaring keeps the order and the
    equality of magnitudes. *)
Definition combined (long short : float) : Q :=
  Qmax (Qabs (fval long)) (Qabs (fval short)).

(** The combined score of a finding, from the two correlations it
    stores. *)
Definition combined_score (f : Finding) : Q :=
  combined (max_corr f) (recent_corr f).

(** [b] does not score more than [a]. *)
Definition scores_at_least (a b : Finding) : Prop :=
  combined_score b <= combined_score a.

(** The findings whose combined score is [k]. *)
Definition has_score (k : Q) (f : Finding) : bool :=
  Qeq_bool (combined_score f) k.

(** The findings the semantic check lets through. *)
Definition kept (check_causality : string -> string -> bool * string)
  (ticker : string) (skip_validation : bool) (f : Finding) : bool :=
  skip_validation || fst (check_causality ticker (code f)).

(** The findings of a scan in scan order, before they are sorted. *)
Definition scanned (G : Type) (standard_normal : G -> Q * G)
  (fetch_stock_data fetch_macro_data : string -> Series)
  (macro_codes : list string) (ticker : string) (g : G) : list Finding :=
  if s_empty (fetch_stock_data ticker) then []
  else fst (scan G standard_normal fetch_stock_data fetch_macro_data
              ticker macro_codes g []).


(** The combined score of a loaded frame: the maximum of the absolute
    long-window and short-window correlations over the regime window. *)
Definition frame_score (df : DataFrame) : float :=
  let df := loc_from regime_start df in
  final_score
    (snd (compute_max_lag_correlation
            (column df "Stock") (column df "Macro") 60))
    (recent_score df).

(** The inclusion threshold 0.15. *)
Definition threshold : float := Fin (of_Q (15 # 100)).


(** *** Rows of the valuation frames *)

(** A driver's series once shifted by its lag. *)
Definition shifted (d : DriverInfo) : Series := shift (series d) (lag d).

(** The series has a value on day [t]. *)
Definition has_value (t : Z) (s : Series) : Prop :=
  exists v, In (t, Some v) s.

(** The target and every shifted driver have a value on day [t]. *)
Definition complete_at (self : PriceModel) (t : Z) : Prop :=
  has_value t (stock_series self) /\
  forall c d, In (c, d) (drivers self) -> has_value t (shifted d).

(** A frame whose columns hold the series [ss], in this order: the row of
    a day holds the values the series have on that day, every day of a
    series has a row, and a value in a row is a value of its series. *)
Definition frame_of (df : DataFrame) (ss : list Series) : Prop :=
  length (columns df) = length ss /\
  (forall t, row_at (length ss) t (rows df) = map (cell t) ss) /\
  (forall t vals, In (t, vals) (rows df) ->
                  Forall2 (fun v s => v = None \/ In (t, v) s) vals ss) /\
  (forall s t, In s ss -> In t (index s) -> In t (df_index df)).


(** *** A small valuation *)

(** [n] consecutive days from day [t0] with the values a*i + b. *)
Definition ramp (t0 : Z) (n : nat) (a b : Z) : Series :=
  from_values t0 (map (fun i => q (a * Z.of_nat i + b)) (seq 0 n)).

(** A target and a copper series known on days 0 to 5, copper with lag 2. *)
Definition lagged_model : PriceModel :=
  load_data (ramp 0 6 1 10)
    [("HG=F"%string, mkDriver (ramp 0 6 2 3) 2%Z)].

(** A target known on days 0 and 1, a driver known on days 10 to 12 only. *)
Definition disjoint_model : PriceModel :=
  load_data (ramp 0 2 1 10)
    [("HG=F"%string, mkDriver (ramp 10 3 2 3) 0%Z)].

(** A stand-in for the regression: every coefficient is 1, the intercept
    is 0. *)
Definition demo_fit (X : list (list Q)) (y : list Q) : result (list Q) :=
  match X with
  | [] => inl ValueError
  | r :: _ => inr (map (fun _ => 1) r)
  end.

Definition demo_predict (m : list Q) (x : list Q) : Q :=
  Qsum (map (fun p => fst p * snd p) (combine m x)).

Definition demo_train (self : PriceModel) (cutoff_date : Z)
  : result (option (Metrics * DataFrame)) :=
  train (list Q) demo_fit demo_predict (fun m => m) (fun _ => 0)
    (fun _ _ => 1) self cutoff_date.


(** *** Aligned pairs *)

(** An aligned pair, as the scan passes them to the scanner: two columns
    of one frame without missing values, on days that do not repeat, with
    at least two observations. *)
Definition aligned_pair (target driver : Series) : Prop :=
  index target = index driver /\
  NoDup (index target) /\
  Forall (fun v => notnull v = true) (values target) /\
  Forall (fun v => notnull v = true) (values driver) /\
  (2 <= length target)%nat.


(* ------------------------------------------------------------------ *)
(** ** [DataLoader] and [SemanticValidator] around the engine *)

(** Line 61 of [analyze]: the candidates fetched as Yahoo tickers. *)
Definition yahoo_routed (c : string) : bool :=
  has_equals c || String.eqb c "VALE".

(** [DataLoader.__init__]: the FRED client, [None] without an API key
    (an unset or empty [FRED_API_KEY]).  [Fred api_key] is the client of
    [fredapi]: its [get_series] returns a series or raises. *)
Definition DataLoader_init (FRED_API_KEY : option string)
  (Fred : string -> string -> result Series)
  : option (string -> result Series) :=
  match FRED_API_KEY with
  | None => None
  | Some EmptyString => None
  | Some key => Some (Fred key)
  end.

(** [DataLoader.fetch_macro_data]: nothing without a client, nothing when
    [get_series] raises. *)
Definition DataLoader_fetch_macro_data
  (fred : option (string -> result Series)) (c : string) : Series :=
  match fred with
  | None => []
  | Some get_series =>
      match get_series c with
      | inl _ => []
      | inr s => s
      end
  end.

(** ["," in s]. *)
Fixpoint has_comma (s : string) : bool :=
  match s with
  | EmptyString => false
  | String c r => Ascii.eqb c ","%char || has_comma r
  end.

(** [s.split(",", 1)[1]] for a string with a comma: what follows the
    first comma. *)
Fixpoint after_comma (s : string) : string :=
  match s with
  | EmptyString => EmptyString
  | String c r => if Ascii.eqb c ","%char then r else after_comma r
  end.

(** [s.lower().startswith('y')]: the first character is y or Y. *)
Definition starts_with_y (s : string) : bool :=
  match s with
  | EmptyString => false
  | String c _ => Ascii.eqb c "y"%char || Ascii.eqb c "Y"%char
  end.

(** [SemanticValidator.check_causality] for a validator whose provider is
    [provider]; [user_input] is what [input()] returns, [None] when it
    raises [EOFError]; [strip] is Python's [str.strip]. *)
Definition SemanticValidator_check_causality (strip : string -> string)
  (provider : string) (user_input : option string)
  (stock_ticker macro_name : string) : bool * string :=
  if String.eqb provider "terminal" || String.eqb provider "manual" then
    match user_input with
    | None => (false, "Input stream closed (Non-interactive mode)"%string)
    | Some line =>
        let is_valid := starts_with_y line in
        let reason :=
          if has_comma line then strip (after_comma line)
          else "Human Validation"%string in
        (is_valid, reason)
    end
  else (true, "Auto-approved (Mock)"%string).

(** The NaN guard of lines 111-112 on a correlation. *)
Definition stored (x : float) : float :=
  if negb (isna x) then round4 x else zero.


(** Lines 21-33 of [fetch_and_align]: the frame of the two series once
    the driver is interpolated and filled, before the noise is drawn. *)
Definition prepared_frame (stock macro : Series) : DataFrame :=
  let df := concat_columns stock macro "Stock" "Macro" in
  let df := sort_index df in
  let df :=
    set_column df "Macro" (values (interpolate_time (column df "Macro"))) in
  set_column df "Macro" (values (bfill (ffill (column df "Macro")))).


(** The rows of a frame with the columns Stock and Macro, from the
    triples (day, stock value, macro value). *)
Definition rows2 (l : list (Z * option Q * option Q))
  : list (Z * list (option Q)) :=
  map (fun r => (fst (fst r), [snd (fst r); snd r])) l.

(** The triples with the macro values replaced by [vs]. *)
Definition with_macro (l : list (Z * option Q * option Q))
  (vs : list (option Q)) : list (Z * option Q * option Q) :=
  map (fun p => (fst (fst p), snd p)) (combine l vs).


(** The test of [dropna] on a row of a frame with the columns Stock and
    Macro. *)
Definition complete_row (r : Z * option Q * option Q) : bool :=
  notnull (snd (fst r)) && notnull (snd r).


(** [idx[-1]]: the last label, [None] where Python raises [IndexError]. *)
Definition last_label (idx : list Z) : option Z :=
  match idx with
  | [] => None
  | t :: r => Some (last r t)
  end.

(** Lines 179-189 of [app.py], on the table [res_df] of [train]:
    [is_future] and [days_out]. *)
Definition projection (stock_series : Series) (res_df : DataFrame)
  : option (bool * Z) :=
  match last_label (df_index res_df),
        last_label (index (s_dropna stock_series)) with
  | Some last_valid_fv_date, Some last_actual_date =>
      Some ((last_actual_date <? last_valid_fv_date)%Z,
            (last_valid_fv_date - last_actual_date)%Z)
  | _, _ => None
  end.


(** The days of either series from 2020-01-01 on that pass [keep]. *)
Definition regime_days (stock macro : Series) (keep : Z -> bool)
  : list Z :=
  filter (fun t => (regime_start <=? t)%Z && keep t)
    (union_index (index stock) (index macro)).


(** The long-window and the short-window correlation of a loaded frame,
    over its rows from 2020-01-01 on (lines 80-97). *)
Definition long_corr (df : DataFrame) : float :=
  let df := loc_from regime_start df in
  snd (compute_max_lag_correlation
         (column df "Stock") (column df "Macro") 60).

Definition short_corr (df : DataFrame) : float :=
  recent_score (loc_from regime_start df).

(** The inclusion rule of the specification: the combined score of the
    frame exceeds 0.15 (both sides as squares). *)
Definition exceeds_threshold (df : DataFrame) : Prop :=
  of_Q (15 # 100) < combined (long_corr df) (short_corr df).


(** The time series of the specification: dates strictly increasing.
    On such an index [df.loc[start:]] is the slice that [loc_from] gives;
    on an index that is not monotonic pandas raises [KeyError] when
    [start] is not one of the labels, and a repeated date gives repeated
    rows in a join: the statements on what [train] raises are made for
    series with increasing dates. *)
Definition increasing_dates (s : Series) : Prop :=
  StronglySorted Z.lt (index s).

(** A model whose target and drivers are such series. *)
Definition well_dated (self : PriceModel) : Prop :=
  increasing_dates (stock_series self) /\
  forall c d, In (c, d) (drivers self) -> increasing_dates (series d).


(** Every row of a frame built by [train] has one value a column. *)
Definition full_rows (df : DataFrame) : Prop :=
  forall r, In r (rows df) -> length (snd r) = length (columns df).


(* ================================================================== *)
(** * Properties *)

(** ** Comparisons of floats *)


Lemma Qltb_lt (a b : Q) : Qltb a b = true <-> a < b.
Proof.
  unfold Qltb. rewrite negb_true_iff. split; intro H.
  - apply Qnot_le_lt. intro L. apply Qle_bool_iff in L. congruence.
  - destruct (Qle_bool b a) eqn:E; [|reflexivity].
    apply Qle_bool_iff in E. exfalso. exact (Qlt_not_le _ _ H E).
Qed.

Lemma Qltb_ge (a b : Q) : Qltb a b = false <-> b <= a.
Proof.
  unfold Qltb. rewrite negb_false_iff. apply Qle_bool_iff.
Qed.

Lemma mag_nonneg (x : float) : 0 <= mag x.
Proof. destruct x; simpl; [apply Qle_refl | apply Qabs_nonneg]. Qed.

Lemma fgt_fabs (c b : float) :
  fgt (fabs c) (fabs b) = true <->
  isna c = false /\ isna b = false /\ mag b < mag c.
Proof.
  destruct c as [|s], b as [|u]; simpl;
    try (split; [discriminate | intros (?&?&?); discriminate]).
  rewrite Qltb_lt. tauto.
Qed.

Lemma fgt_fabs_false (c b : float) :
  isna c = false -> isna b = false ->
  fgt (fabs c) (fabs b) = false -> mag c <= mag b.
Proof.
  destruct c, b; simpl; try discriminate. intros _ _ H.
  now apply Qltb_ge.
Qed.

(** ** The scan over candidate lags *)

Section ScanLemmas.

Variables target driver : Series.

Let inv := scan_inv target driver.

Lemma scan_inv_init : inv [] (0%Z, zero).
Proof.
  split; [reflexivity|]. split; [intros l []|].
  left. split; [reflexivity | intros l []].
Qed.

Lemma scan_inv_step (seen : list Z) (best : Z * float) (l : Z) :
  inv seen best -> inv (seen ++ [l]) (lag_step target driver best l).
Proof.
  unfold inv, scan_inv, valid_lag.
  intros (Hn & Hmax & Hcase). unfold lag_step.
  destruct (isna (lag_corr target driver l)) eqn:Ena.
  - (* NaN: the lag is skipped *)
    split; [exact Hn|]. split.
    + intros k Hk Hv. apply in_app_or in Hk as [Hk | [<- | []]]; auto.
      congruence.
    + destruct Hcase as [(Hb & Hz) | (pre & post & Hs & Hb & Hv & Hp & Hlt)].
      * left. split; [exact Hb|]. intros k Hk Hv.
        apply in_app_or in Hk as [Hk | [<- | []]]; auto.
        congruence.
      * right. exists pre, (post ++ [l]). rewrite Hs, <- app_assoc. auto.
  - destruct (fgt (fabs (lag_corr target driver l)) (fabs (snd best))) eqn:Egt.
    + (* strictly better: the lag becomes the best *)
      apply fgt_fabs in Egt as (_ & _ & Hlt). simpl.
      split; [exact Ena|]. split.
      * intros k Hk Hv. apply in_app_or in Hk as [Hk | [<- | []]].
        -- apply Qle_trans with (mag (snd best)); auto using Qlt_le_weak.
        -- apply Qle_refl.
      * right. exists seen, []. repeat split; auto.
        -- apply Qle_lt_trans with (mag (snd best)); auto using mag_nonneg.
        -- intros k Hk Hv. apply Qle_lt_trans with (mag (snd best)); auto.
    + (* not better: the best stays *)
      apply fgt_fabs_false in Egt; auto.
      split; [exact Hn|]. split.
      * intros k Hk Hv. apply in_app_or in Hk as [Hk | [<- | []]]; auto.
      * destruct Hcase as [(Hb & Hz) | (pre & post & Hs & Hb & Hv & Hp & Hlt)].
        -- left. split; [exact Hb|]. intros k Hk Hv.
           apply in_app_or in Hk as [Hk | [<- | []]]; auto.
           rewrite Hb in Egt. simpl in Egt.
           apply Qle_antisym; [exact Egt | apply mag_nonneg].
        -- right. exists pre, (post ++ [l]). rewrite Hs, <- app_assoc. auto.
Qed.

Lemma scan_inv_fold (cands seen : list Z) (best : Z * float) :
  inv seen best ->
  inv (seen ++ cands) (scan_lags target driver cands best).
Proof.
  revert seen best. induction cands as [|l cands IH]; intros seen best H.
  - now rewrite app_nil_r.
  - simpl. replace (seen ++ l :: cands) with ((seen ++ [l]) ++ cands)
      by now rewrite <- app_assoc.
    apply IH, scan_inv_step, H.
Qed.

Lemma scan_lags_inv (cands : list Z) :
  inv cands (scan_lags target driver cands (0%Z, zero)).
Proof. exact (scan_inv_fold cands [] _ scan_inv_init). Qed.

End ScanLemmas.

Lemma sorted_split_le (pre post : list Z) (x y : Z) :
  StronglySorted Z.le (pre ++ x :: post) -> In y (x :: post) -> (x <= y)%Z.
Proof.
  induction pre as [|a pre IH]; simpl; intros S Hy.
  - inversion S as [|? ? _ F]; subst. destruct Hy as [<- | Hy]; [lia|].
    rewrite Forall_forall in F. auto.
  - inversion S; subst. auto.
Qed.

Lemma lags_sorted : StronglySorted Z.le lags.
Proof. unfold lags. repeat constructor; lia. Qed.




(** ** Degenerate variance *)

Lemma Qsum_cons (x : Q) (l : list Q) : Qsum (x :: l) == x + Qsum l.
Proof.
  change (Qsum (x :: l)) with (Qred (x + Qsum l)). apply Qred_correct.
Qed.

Lemma Qlen_cons (x : Q) (l : list Q) : Qlen (x :: l) == Qlen l + 1.
Proof.
  unfold Qlen. simpl length. rewrite Nat2Z.inj_succ, <- Z.add_1_r.
  rewrite inject_Z_plus. reflexivity.
Qed.

Lemma Qlen_nonneg (l : list Q) : 0 <= Qlen l.
Proof.
  unfold Qlen. change 0 with (inject_Z 0). rewrite <- Zle_Qle. lia.
Qed.

Lemma Qsum_zero (l : list Q) :
  (forall x, In x l -> x == 0) -> Qsum l == 0.
Proof.
  induction l as [|x l IH]; intros H; [reflexivity|].
  rewrite Qsum_cons, (H x (or_introl eq_refl)), IH.
  - reflexivity.
  - intros y Hy. apply H. now right.
Qed.

Lemma Qsum_const (c : Q) (l : list Q) :
  (forall x, In x l -> x == c) -> Qsum l == c * Qlen l.
Proof.
  induction l as [|x l IH]; intros H.
  - unfold Qlen. simpl. ring.
  - rewrite Qsum_cons, Qlen_cons, (H x (or_introl eq_refl)), IH.
    + ring.
    + intros y Hy. apply H. now right.
Qed.

Lemma mean_const (c : Q) (l : list Q) :
  l <> [] -> (forall x, In x l -> x == c) -> mean l == c.
Proof.
  intros Hne H. unfold mean. rewrite Qred_correct, (Qsum_const c l H).
  assert (Hpos : ~ Qlen l == 0).
  { destruct l as [|x l]; [contradiction|].
    rewrite Qlen_cons. intro E.
    assert (L := Qlen_nonneg l).
    assert (0 < Qlen l + 1).
    { apply Qle_lt_trans with (Qlen l); [exact L|].
      rewrite <- (Qplus_0_r (Qlen l)) at 1.
      apply Qplus_lt_r. reflexivity. }
    rewrite E in H0. exact (Qlt_irrefl _ H0). }
  field. exact Hpos.
Qed.

(** A side without variance: the sum of its squared deviations is 0. *)
Lemma sum_dev_flat (ys : list Q) : flat ys -> sum_dev ys ys == 0.
Proof.
  intros F. destruct ys as [|c ys]; [reflexivity|].
  assert (Hc : forall x, In x (c :: ys) -> x == c).
  { intros x Hx. apply F; [exact Hx | now left]. }
  assert (Hm := mean_const c (c :: ys) ltac:(discriminate) Hc).
  unfold sum_dev. apply Qsum_zero. intros x Hx.
  apply in_map_iff in Hx as ((u, v) & <- & Hin). simpl.
  assert (Hu := Hc u (in_combine_l _ _ _ _ Hin)).
  rewrite Hu, Hm. ring.
Qed.

Lemma present_In (y : Q) (vs : list (option Q)) :
  In y (present vs) <-> In (Some y) vs.
Proof.
  induction vs as [|[v|] vs IH]; simpl.
  - tauto.
  - rewrite IH. split; intros [H | H]; auto; left; congruence.
  - rewrite IH. split; [auto | intros [H | H]; [discriminate | exact H]].
Qed.

Lemma lookup_In (t : Z) (v : option Q) (s : Series) :
  lookup t s = Some v -> In (t, v) s.
Proof.
  induction s as [|(u, w) s IH]; simpl; [discriminate|].
  destruct (Z.eqb_spec t u) as [-> | _].
  - intros [= ->]. now left.
  - auto.
Qed.

Lemma common_In (a b : Series) (x y : Q) :
  In (x, y) (common a b) ->
  In (Some x) (values a) /\ In (Some y) (values b).
Proof.
  induction a as [|(t, [v|]) a IH]; simpl; [tauto| |tauto].
  destruct (lookup t b) as [[w|]|] eqn:E; [|tauto|tauto].
  intros [[= <- <-] | H]; [|tauto].
  split; [now left|].
  apply lookup_In in E. unfold values.
  change (Some w) with (snd (t, Some w)). now apply in_map.
Qed.

Lemma In_firstn {A : Type} (x : A) (n : nat) (l : list A) :
  In x (firstn n l) -> In x l.
Proof.
  intros H. rewrite <- (firstn_skipn n l). apply in_or_app. now left.
Qed.

Lemma In_skipn {A : Type} (x : A) (n : nat) (l : list A) :
  In x (skipn n l) -> In x l.
Proof.
  intros H. rewrite <- (firstn_skipn n l). apply in_or_app. now right.
Qed.

Lemma pearson_flat_r (ps : list (Q * Q)) :
  flat (map snd ps) -> pearson ps = NaN.
Proof.
  intros F. unfold pearson. destruct (length ps <? 2)%nat; [reflexivity|].
  assert (E : Qeq_bool (sum_dev (map snd ps) (map snd ps)) 0 = true)
    by (apply Qeq_bool_iff, sum_dev_flat, F).
  rewrite E, orb_true_r. reflexivity.
Qed.

(** A lag whose correlation is NaN leaves the running best as it is: it
    is skipped, not scored 0. *)
Lemma lag_step_nan (target driver : Series) (best : Z * float) (l : Z) :
  isna (lag_corr target driver l) = true ->
  lag_step target driver best l = best.
Proof. unfold lag_step. now intros ->. Qed.

(** C3, the code at two failing inputs.

    In binary64, for the target 0, 0, 1 and the driver 0.1, 0.1, 0.1: the
    mean of the driver is rounded to 0.10000000000000002, its [std()] is
    1.7e-17 and not 0, so the guard of line 24 does not fire; [corr] then
    divides rounding noise by rounding noise, and the function returns
    lag 0 with a negative correlation (-7.85e-17) where the claim has
    exactly 0 for a constant driver.  Only the sign of that correlation is
    stated: the driver's deviations are all -2^-56, so each product of
    [np.cov] is exact and their sum does not depend on the order of the
    additions.

    On values that binary64 holds exactly, for [settling_target] and
    [rising_driver] at lag 5: the three days compared are days on which
    the target stays at 7, the standard deviation of neither whole
    series is 0, so the guard does not fire either, and the correlation
    of the lag is NaN where the claim has exactly 0 for a window without
    variance. *)
Theorem zero_variance_guard_misses :
  (PrimFloat.eqb (std_b64 constant_driver_b64) PrimFloat.zero = false /\
   fst (compute_max_lag_correlation_b64 late_target_b64
          constant_driver_b64 60) = 0%Z /\
   PrimFloat.ltb
     (snd (compute_max_lag_correlation_b64 late_target_b64
             constant_driver_b64 60)) PrimFloat.zero = true) /\
  (window settling_target rising_driver 5 = [(7, 1); (7, 2); (7, 3)] /\
   feq0 (std settling_target) = false /\
   feq0 (std (shift rising_driver 5)) = false /\
   lag_corr settling_target rising_driver 5 = NaN).
Proof. repeat split; vm_compute; reflexivity. Qed.

(** ** Short-window score *)

Lemma tail_len (n : nat) (df : DataFrame) :
  df_len (tail n df) = Nat.min n (df_len df).
Proof. unfold tail, df_len. simpl. rewrite length_skipn. lia. Qed.

(** In a scan the short window is never skipped: a frame that reaches the
    scoring has at least 30 rows, so its last 60 rows are more than 20. *)
Lemma recent_score_computed (df : DataFrame) :
  (30 <= df_len df)%nat ->
  recent_score df =
  snd (compute_max_lag_correlation
         (column (tail 60 df) "Stock") (column (tail 60 df) "Macro") 10).
Proof.
  intros H. unfold recent_score. rewrite tail_len.
  destruct (Nat.ltb_spec 20 (Nat.min 60 (df_len df))) as [_ | L];
    [reflexivity | lia].
Qed.

(** C2, the code at a failing input.  On the thirty-day frame of
    [demo_stock] and [demo_copper] the short-window call, made with
    [max_lookback = 10], returns the correlation 1.0 found at lag 20; a scan
    of the lags up to 10 would have returned -1/19, found at lag 10. *)
Theorem short_window_scans_every_lag :
  let recent_df := tail 60 demo_frame in
  df_len recent_df = 30%nat /\
  compute_max_lag_correlation
    (column recent_df "Stock") (column recent_df "Macro") 10
  = (20%Z, Fin 1) /\
  recent_score demo_frame = Fin 1 /\
  scan_lags (column recent_df "Stock") (column recent_df "Macro")
    [0; 5; 10]%Z (0%Z, zero)
  = (10%Z, Fin (of_Q (- (1 # 19)))).
Proof. vm_compute. repeat split. Qed.

(** ** Series aligner *)

(** C8, counterexample.  With nothing fetched for the target,
    [fetch_and_align] returns the empty frame: it does not fail, whatever
    the error. *)
Lemma align_of_nothing_returns_empty_frame :
  fetch_and_align nat demo_normal (fun _ => []) demo_fetch_macro
    "2330.TW" "DGS10" O = (inr empty_frame, O) /\
  forall e g,
    fetch_and_align nat demo_normal (fun _ => []) demo_fetch_macro
      "2330.TW" "DGS10" O <> (inl e, g).
Proof. split; [reflexivity | intros e g; discriminate]. Qed.

(** C8, as the code has it.  When the target or the driver has no
    observation, [fetch_and_align] returns the empty frame, raises nothing
    and leaves the random generator untouched. *)
Theorem fetch_and_align_empty_input
  (G : Type) (standard_normal : G -> Q * G)
  (fetch_stock_data fetch_macro_data : string -> Series)
  (stock_ticker macro_code : string) (g : G) :
  fetch_stock_data stock_ticker = [] \/ fetch_macro_data macro_code = [] ->
  fetch_and_align G standard_normal fetch_stock_data fetch_macro_data
    stock_ticker macro_code g = (inr empty_frame, g).
Proof.
  intros [E | E]; unfold fetch_and_align; rewrite E; cbn [s_empty];
    [reflexivity | rewrite orb_true_r; reflexivity].
Qed.

Lemma fetch_and_align_empty_input_witness :
  fetch_and_align nat demo_normal demo_fetch_stock demo_fetch_macro
    "1605.TW" "GDP" 7%nat = (inr empty_frame, 7%nat).
Proof.
  apply (fetch_and_align_empty_input nat demo_normal demo_fetch_stock
           demo_fetch_macro "1605.TW" "GDP" 7%nat).
  right. reflexivity.
Defined.


(** ** Order of the findings *)

Lemma fgt_Fin (x y : float) :
  fgt x y = true -> isna x = false /\ isna y = false /\ fval y < fval x.
Proof.
  destruct x, y; simpl; try discriminate. rewrite Qltb_lt. auto.
Qed.

Lemma fgt_false (x y : float) :
  isna x = false -> isna y = false -> fgt x y = false -> fval x <= fval y.
Proof.
  destruct x, y; simpl; try discriminate. intros _ _. apply Qltb_ge.
Qed.

Lemma scores_at_least_trans : Transitive scores_at_least.
Proof.
  intros a b c H1 H2. unfold scores_at_least in *.
  eapply Qle_trans; eauto.
Qed.

Lemma numeric_key (f : Finding) : numeric f -> isna (sort_key f) = false.
Proof.
  intros (H1 & H2). unfold sort_key, py_max.
  destruct (max_corr f), (recent_corr f); try discriminate.
  simpl. now destruct (Qltb _ _).
Qed.

(** Python's [max] of two magnitudes is their maximum. *)
Lemma py_max_combined (a b : Q) :
  exists s, py_max (fabs (Fin a)) (fabs (Fin b)) = Fin s /\
            s == combined (Fin a) (Fin b).
Proof.
  unfold py_max, combined. cbn [fabs fgt fval].
  destruct (Qltb (Qabs a) (Qabs b)) eqn:E.
  - exists (Qabs b). split; [reflexivity|]. apply Qltb_lt in E.
    symmetry. apply Q.max_r. now apply Qlt_le_weak.
  - exists (Qabs a). split; [reflexivity|]. apply Qltb_ge in E.
    symmetry. now apply Q.max_l.
Qed.

(** The key of the sort is the combined score of the specification. *)
Lemma sort_key_combined (f : Finding) :
  numeric f -> fval (sort_key f) == combined_score f.
Proof.
  intros (H1 & H2). unfold sort_key, combined_score.
  destruct (max_corr f) as [|a]; [discriminate|].
  destruct (recent_corr f) as [|b]; [discriminate|].
  destruct (py_max_combined a b) as (s & -> & E). exact E.
Qed.

Lemma insert_desc_In (x y : Finding) (l : list Finding) :
  In y (insert_desc x l) <-> y = x \/ In y l.
Proof.
  induction l as [|z l IH]; simpl.
  - intuition.
  - destruct (flt (sort_key x) (sort_key z)); simpl.
    + rewrite IH. intuition.
    + intuition.
Qed.

Lemma sort_desc_In (y : Finding) (l : list Finding) :
  In y (sort_desc l) <-> In y l.
Proof.
  induction l as [|x l IH]; simpl; [tauto|].
  rewrite insert_desc_In, IH. intuition.
Qed.

Lemma insert_desc_sorted (x : Finding) (l : list Finding) :
  numeric x -> Forall numeric l ->
  Sorted scores_at_least l -> Sorted scores_at_least (insert_desc x l).
Proof.
  intros Hx Hl S. induction l as [|y l IH]; simpl.
  - repeat constructor.
  - inversion Hl as [|? ? Hy Hl']; subst.
    inversion S as [|? ? S' Hd]; subst.
    destruct (flt (sort_key x) (sort_key y)) eqn:E.
    + apply fgt_Fin in E as (_ & _ & E).
      rewrite (sort_key_combined x Hx), (sort_key_combined y Hy) in E.
      constructor; [now apply IH|].
      destruct l as [|z l]; simpl.
      * constructor. now apply Qlt_le_weak.
      * destruct (flt (sort_key x) (sort_key z)).
        -- constructor. now inversion Hd.
        -- constructor. now apply Qlt_le_weak.
    + constructor; [exact S|]. constructor.
      apply fgt_false in E; auto using numeric_key.
      unfold scores_at_least.
      now rewrite <- (sort_key_combined x Hx), <- (sort_key_combined y Hy).
Qed.

Lemma sort_desc_sorted (l : list Finding) :
  Forall numeric l -> StronglySorted scores_at_least (sort_desc l).
Proof.
  intros H. apply Sorted_StronglySorted; [exact scores_at_least_trans|].
  induction l as [|x l IH]; simpl; [constructor|].
  inversion H as [|? ? Hx Hl]; subst.
  apply insert_desc_sorted; [exact Hx| |now apply IH].
  rewrite Forall_forall in *. intros y Hy. rewrite sort_desc_In in Hy. auto.
Qed.

(** Insertion never moves a finding across one of equal score. *)
Lemma insert_desc_stable (k : Q) (x : Finding) (l : list Finding) :
  numeric x -> Forall numeric l ->
  filter (has_score k) (insert_desc x l) = filter (has_score k) (x :: l).
Proof.
  intros Hx Hl. induction l as [|y l IH]; [reflexivity|].
  inversion Hl as [|? ? Hy Hl']; subst.
  cbn [insert_desc]. destruct (flt (sort_key x) (sort_key y)) eqn:E;
    [|reflexivity].
  cbn [filter] in *. rewrite (IH Hl').
  destruct (has_score k x) eqn:Kx, (has_score k y) eqn:Ky; try reflexivity.
  exfalso. apply fgt_Fin in E as (_ & _ & E).
  rewrite (sort_key_combined x Hx), (sort_key_combined y Hy) in E.
  unfold has_score in *. apply Qeq_bool_iff in Kx, Ky.
  rewrite Kx, Ky in E. exact (Qlt_irrefl _ E).
Qed.

Lemma sort_desc_stable (k : Q) (l : list Finding) :
  Forall numeric l ->
  filter (has_score k) (sort_desc l) = filter (has_score k) l.
Proof.
  induction l as [|x l IH]; intros H; [reflexivity|].
  inversion H as [|? ? Hx Hl]; subst.
  cbn [sort_desc]. rewrite insert_desc_stable; [|exact Hx|].
  - cbn [filter]. now rewrite (IH Hl).
  - rewrite Forall_forall in *. intros y Hy. rewrite sort_desc_In in Hy.
    auto.
Qed.

Lemma filter_StronglySorted {A : Type} (R : A -> A -> Prop)
  (p : A -> bool) (l : list A) :
  StronglySorted R l -> StronglySorted R (filter p l).
Proof.
  induction 1 as [|x l S IH F]; simpl; [constructor|].
  destruct (p x); [|exact IH].
  constructor; [exact IH|].
  rewrite Forall_forall in *. intros y Hy. apply filter_In in Hy. now apply F.
Qed.

Lemma filter_comm {A : Type} (p r : A -> bool) (l : list A) :
  filter p (filter r l) = filter r (filter p l).
Proof.
  induction l as [|x l IH]; simpl; [reflexivity|].
  destruct (p x) eqn:P, (r x) eqn:R; simpl; rewrite ?P, ?R, IH; reflexivity.
Qed.

(** ** The driver scan *)

Lemma round4_numeric (x : float) : isna x = false -> isna (round4 x) = false.
Proof. destruct x; [discriminate | reflexivity]. Qed.

Lemma score_frame_numeric (c : string) (df : DataFrame) (f : Finding) :
  score_frame c df = Some f -> numeric f.
Proof.
  unfold score_frame.
  destruct (df_empty df || (df_len df <? 30)%nat); [discriminate|].
  destruct (df_empty _ || (df_len _ <? 30)%nat); [discriminate|].
  destruct (compute_max_lag_correlation _ _ 60) as (lag0, max_c).
  destruct (fgt _ _ || String.eqb c "PNICKUSDM"); [|discriminate].
  intros [= <-]. split; simpl.
  - destruct (isna max_c) eqn:E; simpl; [reflexivity|].
    now apply round4_numeric.
  - destruct (isna (recent_score _)) eqn:E; simpl; [reflexivity|].
    now apply round4_numeric.
Qed.

Section EngineFacts.

Variable G : Type.
Variable standard_normal : G -> Q * G.
Variable fetch_stock_data : string -> Series.
Variable fetch_macro_data : string -> Series.

Let load_frame' :=
  load_frame G standard_normal fetch_stock_data fetch_macro_data.
Let analyze_code' :=
  analyze_code G standard_normal fetch_stock_data fetch_macro_data.
Let scan' := scan G standard_normal fetch_stock_data fetch_macro_data.

(** What [analyze_code] returns, from the frame it loaded. *)
Lemma analyze_code_finding (ticker c : string) (g g' : G) (f : Finding) :
  analyze_code' ticker c g = (inr (Some f), g') ->
  exists df, load_frame' ticker c g = (inr (Some df), g') /\
             score_frame c df = Some f.
Proof.
  unfold analyze_code', analyze_code, load_frame'.
  destruct (load_frame _ _ _ _ ticker c g) as ([e | [df|]], g1);
    try discriminate.
  intros [= E <-]. now exists df.
Qed.

(** The findings accumulated so far stay in front of the later ones. *)
Lemma scan_acc (ticker : string) (codes : list string) (g : G)
  (acc : list Finding) :
  scan' ticker codes g acc
  = (acc ++ fst (scan' ticker codes g []), snd (scan' ticker codes g [])).
Proof.
  revert g acc. induction codes as [|c codes IH]; intros g acc; simpl.
  - now rewrite app_nil_r.
  - destruct (analyze_code _ _ _ _ ticker c g) as ([e | [f|]], g1);
      fold scan'; try apply IH.
    rewrite (IH g1 (acc ++ [f])), (IH g1 [f]). simpl.
    now rewrite <- app_assoc.
Qed.

(** The loop over a list of candidates in two parts resumes, for the
    second part, from the state and the findings left by the first. *)
Lemma scan_app (ticker : string) (cs1 cs2 : list string) (g : G)
  (acc : list Finding) :
  scan' ticker (cs1 ++ cs2) g acc
  = scan' ticker cs2 (snd (scan' ticker cs1 g acc))
      (fst (scan' ticker cs1 g acc)).
Proof.
  revert g acc. induction cs1 as [|c cs1 IH]; intros g acc; simpl;
    [reflexivity|].
  destruct (analyze_code _ _ _ _ ticker c g) as ([e | [f|]], g1);
    fold scan'; apply IH.
Qed.

(** Every finding of the loop was returned by the body of the loop for
    its own candidate, in some state of the generator. *)
Lemma scan_In (ticker : string) (codes : list string) (g : G)
  (acc : list Finding) (f : Finding) :
  In f (fst (scan' ticker codes g acc)) ->
  In f acc \/
  (In (code f) codes /\
   exists g0 g1, analyze_code' ticker (code f) g0 = (inr (Some f), g1)).
Proof.
  revert g acc. induction codes as [|c codes IH]; intros g acc; simpl;
    [tauto|].
  destruct (analyze_code _ _ _ _ ticker c g) as ([e | [f0|]], g1) eqn:E;
    fold scan'; intros H; apply IH in H.
  - tauto.
  - destruct H as [H | H]; [|tauto].
    apply in_app_or in H as [H | [<- | []]]; [tauto|].
    destruct (analyze_code_finding ticker c g g1 f0 E) as (df & _ & S).
    assert (Hc : code f0 = c).
    { revert S. unfold score_frame.
      repeat match goal with
             | |- context [if ?b then _ else _] => destruct b
             | |- context [let (_, _) := ?p in _] => destruct p
             end; try discriminate; now intros [= <-]. }
    rewrite Hc. right. split; [now left|]. now exists g, g1.
  - tauto.
Qed.

End EngineFacts.

(** The semantic check is a filter of the sorted findings. *)
Lemma validate_finding (check_causality : string -> string -> bool * string)
  (ticker : string) (skip : bool) (l : list Finding) :
  map finding (validate check_causality ticker skip l)
  = filter (kept check_causality ticker skip) l.
Proof.
  induction l as [|f l IH]; [reflexivity|].
  unfold kept in *. cbn [validate filter].
  destruct skip; simpl.
  - now rewrite IH.
  - destruct (check_causality ticker (code f)) as ([|], reason); simpl;
      now rewrite IH.
Qed.



Lemma loc_from_len (start : Z) (df : DataFrame) :
  (df_len (loc_from start df) <= df_len df)%nat.
Proof. unfold df_len, loc_from. simpl. apply filter_length_le. Qed.

Lemma loc_from_columns (start : Z) (df : DataFrame) :
  columns (loc_from start df) = columns df.
Proof. reflexivity. Qed.

Lemma df_empty_false (df : DataFrame) :
  columns df <> [] -> (1 <= df_len df)%nat -> df_empty df = false.
Proof.
  unfold df_empty, df_len. destruct (columns df); [congruence|].
  destruct (rows df); simpl; [lia | reflexivity].
Qed.

(** What a finding says of the frame it was scored from. *)
Lemma score_frame_Some (c : string) (df : DataFrame) (f : Finding) :
  score_frame c df = Some f ->
  code f = c /\
  (30 <= df_len (loc_from regime_start df))%nat /\
  sample_size f = df_len (loc_from regime_start df) /\
  (fgt (frame_score df) threshold = true \/ c = "PNICKUSDM"%string).
Proof.
  unfold score_frame, frame_score, threshold.
  destruct (df_empty df || (df_len df <? 30)%nat); [discriminate|].
  destruct (df_empty _ || (df_len (loc_from regime_start df) <? 30)%nat)
    eqn:E; [discriminate|].
  apply orb_false_iff in E as (_ & E). apply Nat.ltb_ge in E.
  destruct (compute_max_lag_correlation _ _ 60) as (lag0, max_c). simpl snd.
  destruct (fgt _ _ || String.eqb c "PNICKUSDM") eqn:K; [|discriminate].
  intros [= <-]. simpl. repeat split; auto.
  apply orb_true_iff in K as [K | K]; [now left | right].
  now apply String.eqb_eq.
Qed.

(** A frame with its two columns and thirty regime rows is scored, and
    kept exactly when its score exceeds the threshold or the candidate is
    the one always included. *)
Lemma score_frame_kept (c : string) (df : DataFrame) :
  columns df <> [] -> (30 <= df_len (loc_from regime_start df))%nat ->
  (score_frame c df <> None <->
   fgt (frame_score df) threshold = true \/ c = "PNICKUSDM"%string).
Proof.
  intros Hc Hn. assert (Hl := loc_from_len regime_start df).
  unfold score_frame, frame_score, threshold.
  rewrite (df_empty_false df Hc) by lia.
  rewrite (df_empty_false (loc_from regime_start df)) by (auto; lia).
  destruct (Nat.ltb_spec (df_len df) 30) as [L | _]; [lia|].
  destruct (Nat.ltb_spec (df_len (loc_from regime_start df)) 30) as [L | _];
    [lia|]. simpl orb. cbv iota.
  destruct (compute_max_lag_correlation _ _ 60) as (lag0, max_c). simpl snd.
  rewrite <- String.eqb_eq, <- orb_true_iff.
  destruct (fgt _ _ || String.eqb c "PNICKUSDM"); split; intros H;
    congruence.
Qed.

Section Scan.

Variable G : Type.
Variable standard_normal : G -> Q * G.
Variable fetch_stock_data : string -> Series.
Variable fetch_macro_data : string -> Series.
Variable check_causality : string -> string -> bool * string.
Variable macro_codes : list string.

Let load_frame' :=
  load_frame G standard_normal fetch_stock_data fetch_macro_data.
Let analyze_code' :=
  analyze_code G standard_normal fetch_stock_data fetch_macro_data.
Let scan' := scan G standard_normal fetch_stock_data fetch_macro_data.
Let validate' := validate check_causality.
Let analyze' :=
  analyze G standard_normal fetch_stock_data fetch_macro_data check_causality.
Let scanned' := scanned G standard_normal fetch_stock_data fetch_macro_data.

(** [analyze] is the semantic check of the sorted findings of the scan. *)
Lemma analyze_findings (ticker : string) (skip : bool) (g : G) :
  map finding (fst (analyze' macro_codes ticker skip g))
  = filter (kept check_causality ticker skip)
      (sort_desc (scanned' macro_codes ticker g)).
Proof.
  unfold analyze', analyze, scanned', scanned.
  destruct (s_empty (fetch_stock_data ticker)); [reflexivity|].
  destruct (scan _ _ _ _ ticker macro_codes g []) as (findings, g').
  simpl. apply validate_finding.
Qed.

Lemma scanned_In (ticker : string) (g : G) (f : Finding) :
  In f (scanned' macro_codes ticker g) ->
  In (code f) macro_codes /\
  exists g0 g1 df,
    load_frame' ticker (code f) g0 = (inr (Some df), g1) /\
    score_frame (code f) df = Some f.
Proof.
  unfold scanned', scanned.
  destruct (s_empty (fetch_stock_data ticker)); [intros []|].
  intros H. apply scan_In in H as [[] | (Hc & g0 & g1 & H)].
  split; [exact Hc|].
  apply analyze_code_finding in H as (df & H1 & H2). now exists g0, g1, df.
Qed.

Lemma scanned_numeric (ticker : string) (g : G) :
  Forall numeric (scanned' macro_codes ticker g).
Proof.
  apply Forall_forall. intros f H.
  apply scanned_In in H as (_ & g0 & g1 & df & _ & H).
  eapply score_frame_numeric; eauto.
Qed.

(** C9.  For every scan, the findings returned are in descending order of
    their combined score max(|long-window correlation|, |short-window
    correlation|), both correlations being numbers, and the findings of
    any given score come in the order in which the scan met them. *)
Theorem findings_sorted_stable (ticker : string) (skip_validation : bool)
  (g : G) :
  let out :=
    map finding (fst (analyze' macro_codes ticker skip_validation g)) in
  StronglySorted scores_at_least out /\
  Forall numeric out /\
  forall k : Q,
    filter (has_score k) out
    = filter (has_score k)
        (filter (kept check_causality ticker skip_validation)
           (scanned' macro_codes ticker g)).
Proof.
  intro out. subst out. rewrite analyze_findings.
  assert (N := scanned_numeric ticker g).
  split; [|split].
  - apply filter_StronglySorted, sort_desc_sorted, N.
  - rewrite Forall_forall in *. intros f Hf.
    apply filter_In in Hf as (Hf & _). rewrite sort_desc_In in Hf. auto.
  - intros k. rewrite filter_comm, (sort_desc_stable k _ N).
    apply filter_comm.
Qed.

(** C6.  For every scan: when the body of the loop raises an exception
    for a candidate [c], met after the candidates [cs1], the loop goes on
    with the candidates [cs2] that follow; the scan returns the findings of
    [cs1] followed by those of [cs2], sorted and checked, and no
    exception. *)
Theorem scan_skips_failing_driver (ticker : string)
  (cs1 cs2 : list string) (c : string) (skip_validation : bool)
  (g g2 : G) (e : exn) :
  s_empty (fetch_stock_data ticker) = false ->
  analyze_code' ticker c (snd (scan' ticker cs1 g [])) = (inl e, g2) ->
  scan' ticker (cs1 ++ c :: cs2) g []
  = (fst (scan' ticker cs1 g []) ++ fst (scan' ticker cs2 g2 []),
     snd (scan' ticker cs2 g2 [])) /\
  analyze' (cs1 ++ c :: cs2) ticker skip_validation g
  = (validate' ticker skip_validation
       (sort_desc (fst (scan' ticker cs1 g [])
                     ++ fst (scan' ticker cs2 g2 []))),
     snd (scan' ticker cs2 g2 [])).
Proof.
  intros Hs He.
  assert (E : scan' ticker (cs1 ++ c :: cs2) g []
              = (fst (scan' ticker cs1 g []) ++ fst (scan' ticker cs2 g2 []),
                 snd (scan' ticker cs2 g2 []))).
  { unfold scan'. rewrite scan_app. cbn [scan].
    unfold analyze_code', scan' in He. rewrite He. apply scan_acc. }
  split; [exact E|].
  unfold analyze', analyze. rewrite Hs. unfold scan' in E. now rewrite E.
Qed.

(** The scanner never returns NaN. *)
Lemma scanner_numeric (target driver : Series) (max_lookback : Z) :
  isna (snd (compute_max_lag_correlation target driver max_lookback))
  = false.
Proof.
  unfold compute_max_lag_correlation.
  now destruct (scan_lags_inv target driver lags) as (H & _).
Qed.

Lemma recent_score_numeric (df : DataFrame) :
  isna (recent_score df) = false.
Proof.
  unfold recent_score. destruct (20 <? df_len (tail 60 df))%nat;
    [apply scanner_numeric | reflexivity].
Qed.

(** The test of line 108 is the inclusion rule of the specification. *)
Lemma frame_score_exceeds (df : DataFrame) :
  fgt (frame_score df) threshold = true <-> exceeds_threshold df.
Proof.
  unfold frame_score, threshold, exceeds_threshold, final_score.
  fold (long_corr df). fold (short_corr df).
  assert (Nl : isna (long_corr df) = false) by apply scanner_numeric.
  assert (Ns : isna (short_corr df) = false) by apply recent_score_numeric.
  destruct (long_corr df) as [|a]; [discriminate|].
  destruct (short_corr df) as [|b]; [discriminate|].
  destruct (py_max_combined a b) as (s & -> & E).
  cbn [fgt]. rewrite Qltb_lt. now rewrite E.
Qed.

(** A frame with its two columns and thirty regime rows is kept exactly
    when its combined score exceeds 0.15 or its candidate is the one
    always included. *)
Lemma score_frame_rule (c : string) (df : DataFrame) :
  columns df <> [] -> (30 <= df_len (loc_from regime_start df))%nat ->
  (score_frame c df <> None <->
   exceeds_threshold df \/ c = "PNICKUSDM"%string).
Proof.
  intros Hc Hn. rewrite (score_frame_kept c df Hc Hn).
  now rewrite frame_score_exceeds.
Qed.

(** A frame with fewer than thirty regime rows is passed over. *)
Lemma score_frame_short (c : string) (df : DataFrame) :
  (df_len (loc_from regime_start df) < 30)%nat -> score_frame c df = None.
Proof.
  intros H. unfold score_frame.
  destruct (df_empty df || (df_len df <? 30)%nat); [reflexivity|].
  destruct (Nat.ltb_spec (df_len (loc_from regime_start df)) 30) as [_ | L];
    [|lia]. now rewrite orb_true_r.
Qed.

(** The frame loaded for a candidate is empty or has the columns Stock
    and Macro. *)
Lemma load_frame_columns (ticker c : string) (g g1 : G) (df : DataFrame) :
  load_frame' ticker c g = (inr (Some df), g1) ->
  rows df = [] \/ columns df <> [].
Proof.
  unfold load_frame', load_frame.
  destruct (has_equals c || String.eqb c "VALE").
  - destruct (s_empty (fetch_stock_data c)); [discriminate|].
    intros [= <- _]. right. discriminate.
  - unfold fetch_and_align.
    destruct (s_empty (fetch_stock_data ticker) || s_empty _).
    + intros [= <- _]. now left.
    + destruct (random_normal _ _ _ _ _) as ([e | noise], g2);
        [discriminate|]. intros [= <- _]. right. discriminate.
Qed.

(** Every finding of the loop was returned by the body of the loop for
    its own candidate, in the state the generator had when the loop
    reached that candidate. *)
Lemma scan_In_run (ticker : string) (codes : list string) :
  forall (g : G) (acc : list Finding) (f : Finding),
    In f (fst (scan' ticker codes g acc)) ->
    In f acc \/
    exists cs1 cs2 g1,
      codes = cs1 ++ code f :: cs2 /\
      analyze_code' ticker (code f) (snd (scan' ticker cs1 g []))
      = (inr (Some f), g1).
Proof.
  induction codes as [|c codes IH]; intros g acc f; simpl; [tauto|].
  destruct (analyze_code _ _ _ _ ticker c g) as ([e | [f0|]], g1) eqn:E;
    fold scan'; intros H; apply IH in H.
  - destruct H as [H | (cs1 & cs2 & g2 & Hc & Ha)]; [now left | right].
    exists (c :: cs1), cs2, g2. split; [now rewrite Hc|].
    simpl. unfold analyze_code' in *. now rewrite E.
  - destruct H as [H | (cs1 & cs2 & g2 & Hc & Ha)].
    + apply in_app_or in H as [H | [<- | []]]; [now left | right].
      destruct (analyze_code_finding G standard_normal fetch_stock_data
                  fetch_macro_data ticker c g g1 f0 E) as (df & _ & S).
      apply score_frame_Some in S as (Hc & _).
      exists [], codes, g1. rewrite Hc. split; [reflexivity|]. exact E.
    + right. exists (c :: cs1), cs2, g2. split; [now rewrite Hc|].
      simpl. unfold analyze_code' in *. rewrite E. fold scan'.
      unfold scan'. rewrite scan_acc. exact Ha.
  - destruct H as [H | (cs1 & cs2 & g2 & Hc & Ha)]; [now left | right].
    exists (c :: cs1), cs2, g2. split; [now rewrite Hc|].
    simpl. unfold analyze_code' in *. now rewrite E.
Qed.

(** C7.  For every scan, with the frames as they are loaded in the run
    (each candidate in the state the random generator has when the loop
    reaches it).  A finding is returned only for a candidate whose frame
    has at least 30 rows in the regime window and whose combined score
    max(|long correlation|, |short correlation|) exceeds 0.15 or which is
    the candidate always included.  A candidate whose frame has fewer
    than 30 regime rows is passed over without an exception; one with at
    least 30 yields a finding, returned when the semantic check is
    skipped, if and only if its combined score exceeds 0.15 or it is
    always included.  And when no candidate of the run has a combined
    score above 0.15 and none is always included, the list returned is
    empty. *)
Theorem findings_need_sample_and_score (ticker : string)
  (skip_validation : bool) (g : G) :
  (forall f,
      In f (map finding
              (fst (analyze' macro_codes ticker skip_validation g))) ->
      exists cs1 cs2 df g1,
        macro_codes = cs1 ++ code f :: cs2 /\
        load_frame' ticker (code f) (snd (scan' ticker cs1 g []))
        = (inr (Some df), g1) /\
        (30 <= df_len (loc_from regime_start df))%nat /\
        sample_size f = df_len (loc_from regime_start df) /\
        (exceeds_threshold df \/ code f = "PNICKUSDM"%string)) /\
  (forall cs1 c cs2 df g1,
      macro_codes = cs1 ++ c :: cs2 ->
      s_empty (fetch_stock_data ticker) = false ->
      load_frame' ticker c (snd (scan' ticker cs1 g []))
      = (inr (Some df), g1) ->
      ((df_len (loc_from regime_start df) < 30)%nat ->
       analyze_code' ticker c (snd (scan' ticker cs1 g []))
       = (inr None, g1)) /\
      ((30 <= df_len (loc_from regime_start df))%nat ->
       ((exists f,
            analyze_code' ticker c (snd (scan' ticker cs1 g []))
            = (inr (Some f), g1) /\
            In f (map finding (fst (analyze' macro_codes ticker true g))))
        <-> exceeds_threshold df \/ c = "PNICKUSDM"%string))) /\
  ((forall cs1 c cs2 df g1,
       macro_codes = cs1 ++ c :: cs2 ->
       load_frame' ticker c (snd (scan' ticker cs1 g []))
       = (inr (Some df), g1) ->
       (30 <= df_len (loc_from regime_start df))%nat ->
       combined (long_corr df) (short_corr df) <= of_Q (15 # 100)
       /\ c <> "PNICKUSDM"%string) ->
   fst (analyze' macro_codes ticker skip_validation g) = []).
Proof.
  assert (P1 : forall f,
      In f (map finding
              (fst (analyze' macro_codes ticker skip_validation g))) ->
      exists cs1 cs2 df g1,
        macro_codes = cs1 ++ code f :: cs2 /\
        load_frame' ticker (code f) (snd (scan' ticker cs1 g []))
        = (inr (Some df), g1) /\
        (30 <= df_len (loc_from regime_start df))%nat /\
        sample_size f = df_len (loc_from regime_start df) /\
        (exceeds_threshold df \/ code f = "PNICKUSDM"%string)).
  { intros f Hf. rewrite analyze_findings in Hf.
    apply filter_In in Hf as (Hf & _). rewrite sort_desc_In in Hf.
    unfold scanned', scanned in Hf.
    destruct (s_empty (fetch_stock_data ticker)); [destruct Hf|].
    apply scan_In_run in Hf as [[] | (cs1 & cs2 & g1 & Hc & Ha)].
    apply analyze_code_finding in Ha as (df & Hl & Hsc).
    exists cs1, cs2, df, g1. split; [exact Hc|]. split; [exact Hl|].
    apply score_frame_Some in Hsc as (_ & H30 & Hn & Hk).
    rewrite frame_score_exceeds in Hk. auto. }
  split; [exact P1 | split].
  - intros cs1 c cs2 df g1 Hm Hs Hl.
    assert (Ha : analyze_code' ticker c (snd (scan' ticker cs1 g []))
                 = (inr (score_frame c df), g1)).
    { unfold analyze_code', analyze_code. unfold load_frame' in Hl.
      now rewrite Hl. }
    split.
    + intros H. rewrite Ha. now rewrite score_frame_short.
    + intros H30.
      assert (Hc : columns df <> []).
      { destruct (load_frame_columns _ _ _ _ _ Hl) as [R | C]; [|exact C].
        unfold df_len, loc_from in H30. rewrite R in H30. simpl in H30.
        lia. }
      rewrite <- (score_frame_rule c df Hc H30). split.
      * intros (f & Hf & _). rewrite Ha in Hf. congruence.
      * intros Hn. destruct (score_frame c df) as [f|] eqn:S;
          [|congruence]. exists f. split; [exact Ha|].
        rewrite analyze_findings.
        apply filter_In. split; [|reflexivity]. rewrite sort_desc_In.
        unfold scanned', scanned. rewrite Hs, Hm. fold scan'.
        unfold scan'. rewrite scan_app. cbn [scan].
        unfold analyze_code', scan' in Ha. rewrite Ha, scan_acc.
        cbn [fst]. apply in_or_app. left. apply in_or_app. right.
        now left.
  - intros Hall.
    destruct (fst (analyze' macro_codes ticker skip_validation g))
      as [|x l] eqn:E; [reflexivity|]. exfalso.
    destruct (P1 (finding x))
      as (cs1 & cs2 & df & g1 & Hc & Hl & H30 & _ & Hk).
    { now left. }
    destruct (Hall _ _ _ _ _ Hc Hl H30) as (Hlow & Hnf).
    destruct Hk as [Hk | Hk]; [|congruence].
    unfold exceeds_threshold in Hk. exact (Qlt_not_le _ _ Hk Hlow).
Qed.

End Scan.

(** In the demo world the spread has a negative mean, so the noise scale
    is negative and [np.random.normal] raises: the spread is skipped, the
    candidates after it are still scanned. *)
Lemma scan_skips_failing_driver_witness :
  s_empty (demo_fetch_stock "1605.TW") = false /\
  analyze_code nat demo_normal demo_fetch_stock demo_fetch_macro
    "1605.TW" "T10Y2Y"
    (snd (scan nat demo_normal demo_fetch_stock demo_fetch_macro
            "1605.TW" ["HG=F"%string] O []))
  = (inl ValueError, O) /\
  map (fun x => code (finding x))
    (fst (demo_analyze
            (["HG=F"%string] ++ "T10Y2Y"%string
               :: ["DGS10"%string; "PNICKUSDM"%string]) true))
  = ["HG=F"; "DGS10"; "PNICKUSDM"]%string.
Proof.
  assert (H1 : s_empty (demo_fetch_stock "1605.TW") = false)
    by reflexivity.
  assert (H2 : analyze_code nat demo_normal demo_fetch_stock
                 demo_fetch_macro "1605.TW" "T10Y2Y"
                 (snd (scan nat demo_normal demo_fetch_stock
                         demo_fetch_macro "1605.TW" ["HG=F"%string] O []))
               = (inl ValueError, O))
    by (vm_compute; reflexivity).
  split; [exact H1 | split; [exact H2|]].
  unfold demo_analyze.
  rewrite (proj2 (scan_skips_failing_driver nat demo_normal
                    demo_fetch_stock demo_fetch_macro demo_check
                    "1605.TW" ["HG=F"%string]
                    ["DGS10"; "PNICKUSDM"]%string "T10Y2Y" true
                    O O ValueError H1 H2)).
  vm_compute. reflexivity.
Defined.

(** In the demo world M2SL is flat: its combined score is 0, it is not
    the candidate always included, and a universe made of it alone gives
    no finding. *)
Lemma findings_need_sample_and_score_witness :
  fst (demo_analyze ["M2SL"%string] false) = [].
Proof.
  apply (proj2 (proj2
           (findings_need_sample_and_score nat demo_normal
              demo_fetch_stock demo_fetch_macro demo_check
              ["M2SL"%string] "1605.TW" false O))).
  intros cs1 c cs2 df g1 Hm H _.
  destruct cs1 as [|c1 cs1].
  - injection Hm as <- _. vm_compute in H. injection H as <- _.
    split; [vm_compute; discriminate | discriminate].
  - injection Hm as _ Hm. now destruct cs1.
Defined.


(** ** Rows of the valuation frames *)

Lemma insert_label_In (t u : Z) (l : list Z) :
  In t (insert_label u l) <-> t = u \/ In t l.
Proof.
  induction l as [|x l IH]; simpl; [intuition|].
  destruct (Z.ltb_spec u x); simpl; [intuition|].
  destruct (Z.eqb_spec u x); simpl.
  - subst. intuition.
  - rewrite IH. intuition.
Qed.

Lemma union_index_In (t : Z) (a b : list Z) :
  In t (union_index a b) <-> In t a \/ In t b.
Proof.
  unfold union_index. rewrite <- in_app_iff.
  induction (a ++ b) as [|x l IH]; simpl; [tauto|].
  rewrite insert_label_In, IH. intuition.
Qed.

Lemma insert_label_sorted (t : Z) (l : list Z) :
  StronglySorted Z.lt l -> StronglySorted Z.lt (insert_label t l).
Proof.
  induction 1 as [|u l S IH F]; simpl.
  - repeat constructor.
  - destruct (Z.ltb_spec t u) as [L | L].
    + constructor; [now constructor|]. constructor; [exact L|].
      rewrite Forall_forall in *. intros x Hx. specialize (F x Hx). lia.
    + destruct (Z.eqb_spec t u) as [E | E]; [now constructor|].
      constructor; [exact IH|].
      rewrite Forall_forall in *. intros x Hx.
      apply insert_label_In in Hx as [-> | Hx]; [lia | auto].
Qed.

Lemma union_index_sorted (a b : list Z) :
  StronglySorted Z.lt (union_index a b).
Proof.
  unfold union_index. induction (a ++ b) as [|x l IH]; simpl.
  - constructor.
  - now apply insert_label_sorted.
Qed.

Lemma lookup_notin (t : Z) (s : Series) :
  ~ In t (index s) -> lookup t s = None.
Proof.
  induction s as [|(u, v) s IH]; simpl; [reflexivity|]. intros H.
  destruct (Z.eqb_spec t u) as [-> | _]; [elim H; now left|].
  apply IH. intro H1. apply H. now right.
Qed.

Lemma cell_notin (t : Z) (s : Series) : ~ In t (index s) -> cell t s = None.
Proof. intros H. unfold cell. now rewrite lookup_notin. Qed.

Lemma cell_In (t : Z) (s : Series) :
  cell t s = None \/ In (t, cell t s) s.
Proof.
  unfold cell. destruct (lookup t s) as [v|] eqn:E; [|now left].
  right. now apply lookup_In.
Qed.

Lemma In_index (t : Z) (v : option Q) (s : Series) :
  In (t, v) s -> In t (index s).
Proof.
  intros H. unfold index. change t with (fst (t, v)). now apply in_map.
Qed.

Lemma has_value_cell (t : Z) (s : Series) (v : Q) :
  cell t s = Some v -> has_value t s.
Proof.
  intros E. exists v. destruct (cell_In t s) as [H | H]; congruence.
Qed.

Lemma row_at_notin (w : nat) (t : Z) (rs : list (Z * list (option Q))) :
  ~ In t (map fst rs) -> row_at w t rs = repeat None w.
Proof.
  induction rs as [|(u, l) rs IH]; simpl; [reflexivity|]. intros H.
  destruct (Z.eqb_spec t u) as [-> | _]; [elim H; now left|].
  apply IH. intro H1. apply H. now right.
Qed.

Lemma row_at_In (w : nat) (t : Z) (rs : list (Z * list (option Q))) :
  In t (map fst rs) -> In (t, row_at w t rs) rs.
Proof.
  induction rs as [|(u, l) rs IH]; simpl; [tauto|]. intros H.
  destruct (Z.eqb_spec t u) as [-> | N]; [now left|].
  right. apply IH. destruct H; congruence.
Qed.

(** The row of a day in a frame built day by day. *)
Lemma row_at_map (w : nat) (t : Z) (F : Z -> list (option Q))
  (days : list Z) :
  (~ In t days -> F t = repeat None w) ->
  row_at w t (map (fun u => (u, F u)) days) = F t.
Proof.
  induction days as [|u days IH]; simpl; intros H.
  - symmetry. apply H. tauto.
  - destruct (Z.eqb_spec t u) as [-> | N]; [reflexivity|].
    apply IH. intros H1. apply H. intros [E | E]; [congruence | tauto].
Qed.

Lemma repeat_snoc {A : Type} (x : A) (n : nat) :
  repeat x n ++ [x] = repeat x (S n).
Proof. induction n; simpl; [reflexivity | now f_equal]. Qed.

Lemma to_frame_of (s : Series) (name : string) :
  frame_of (to_frame s name) [s].
Proof.
  unfold frame_of, to_frame, df_index. simpl.
  split; [reflexivity|]. split; [|split].
  - intros t. induction s as [|(u, v) s IH]; simpl; [reflexivity|].
    unfold cell. simpl. destruct (Z.eqb_spec t u); [reflexivity|].
    exact IH.
  - intros t vals H. apply in_map_iff in H as ((u, v) & [= <- <-] & H).
    constructor; [now right | constructor].
  - intros s0 t [<- | []] H. now rewrite map_map.
Qed.

Lemma join_outer_of (df df' : DataFrame) (ss : list Series) (s : Series)
  (name : string) :
  frame_of df ss -> join_outer df s name = inr df' ->
  frame_of df' (ss ++ [s]) /\ columns df' = columns df ++ [name].
Proof.
  intros (Hc & Hrow & Hval & Hidx). unfold join_outer.
  destruct (existsb _ _); [discriminate|]. intros [= <-].
  split; [|reflexivity].
  assert (Hr : forall t,
             row_at (length (ss ++ [s])) t
               (map (fun u => (u, row_at (length (columns df)) u (rows df)
                                    ++ [cell u s]))
                  (union_index (df_index df) (index s)))
             = map (cell t) (ss ++ [s])).
  { intros t. rewrite length_app, Nat.add_1_r, Hc.
    rewrite (row_at_map (S (length ss)) t
               (fun u => row_at (length ss) u (rows df) ++ [cell u s])).
    - now rewrite Hrow, map_app.
    - intros N. rewrite union_index_In in N.
      rewrite row_at_notin, cell_notin by tauto. apply repeat_snoc. }
  unfold frame_of, df_index. simpl. split; [|split; [|split]].
  - rewrite !length_app, Hc. reflexivity.
  - exact Hr.
  - intros t vals H. apply in_map_iff in H as (u & [= <- <-] & _).
    rewrite Hc, Hrow. apply Forall2_app.
    + clear. induction ss as [|s0 ss IH]; simpl; constructor; auto.
      apply cell_In.
    + constructor; [apply cell_In | constructor].
  - intros s0 t H0 Ht. rewrite map_map. simpl. rewrite map_id.
    apply union_index_In. apply in_app_or in H0 as [H0 | [<- | []]].
    + left. eapply Hidx; eauto.
    + now right.
Qed.

Lemma join_drivers_of (ds : list (string * DriverInfo)) :
  forall (df0 df : DataFrame) (ss0 : list Series)
         (cols0 cols : list string) (ml0 ml : Z),
    frame_of df0 ss0 -> NoDup (columns df0) ->
    join_drivers ds df0 cols0 ml0 = inr (df, cols, ml) ->
    frame_of df (ss0 ++ map (fun cd => shifted (snd cd)) ds) /\
    columns df = columns df0 ++ map fst ds /\
    cols = cols0 ++ map fst ds /\
    NoDup (columns df).
Proof.
  induction ds as [|(c, d) ds IH]; intros df0 df ss0 cols0 cols ml0 ml F N;
    simpl.
  - intros [= <- <- <-]. rewrite !app_nil_r. auto.
  - destruct (join_outer df0 (shift (series d) (lag d)) c) as [e | df1] eqn:J;
      [discriminate|]. simpl.
    assert (N1 : NoDup (columns df1)).
    { revert J. unfold join_outer.
      destruct (existsb (String.eqb c) (columns df0)) eqn:X; [discriminate|].
      intros [= <-]. simpl.
      apply NoDup_app; [exact N | repeat constructor; auto |].
      intros x Hx [<- | []].
      assert (existsb (String.eqb c) (columns df0) = true)
        by (apply existsb_exists; exists c; split;
            [exact Hx | apply String.eqb_refl]).
      congruence. }
    destruct (join_outer_of df0 df1 ss0 _ c F J) as (F1 & C1).
    intros H. apply (IH _ _ _ _ _ _ _ F1 N1) in H as (F2 & C2 & C3 & N2).
    rewrite <- !app_assoc in *. simpl in *.
    rewrite C1, <- app_assoc in C2. auto.
Qed.

(** A row without a missing value has a value of each of its series. *)
Lemma frame_of_complete_row (df : DataFrame) (ss : list Series) (t : Z)
  (vals : list (option Q)) :
  frame_of df ss -> In (t, vals) (rows df) ->
  forallb notnull vals = true ->
  forall s, In s ss -> has_value t s.
Proof.
  intros (_ & _ & Hval & _) Hin. specialize (Hval t vals Hin). clear Hin.
  induction Hval as [|v s0 vals ss Hv _ IH]; intros Hall s Hs;
    [destruct Hs|].
  simpl in Hall. apply andb_true_iff in Hall as (Hv1 & Hall).
  destruct Hs as [<- | Hs]; [|now apply IH].
  destruct v as [x|]; [|discriminate].
  destruct Hv as [Hv | Hv]; [discriminate | now exists x].
Qed.

Lemma shift_values_length (vs : list (option Q)) (p : Z) :
  length (shift_values vs p) = length vs.
Proof.
  unfold shift_values. destruct (0 <=? p)%Z.
  - rewrite length_firstn, length_app, repeat_length. lia.
  - rewrite length_app, length_skipn, repeat_length. lia.
Qed.

Lemma shift_index (s : Series) (p : Z) : index (shift s p) = index s.
Proof.
  unfold shift, index at 1.
  assert (L : length (index s) = length (shift_values (values s) p)).
  { rewrite shift_values_length. unfold index, values.
    now rewrite !length_map. }
  revert L. generalize (shift_values (values s) p) as vs.
  induction (index s) as [|t l IH]; intros [|v vs]; simpl; try discriminate;
    [reflexivity|]. intros [= L]. now rewrite IH.
Qed.

Lemma df_empty_no_rows (df : DataFrame) : rows df = [] -> df_empty df = true.
Proof. unfold df_empty. intros ->. now destruct (columns df). Qed.

Lemma train_rows_complete (self : PriceModel) (cutoff : Z)
  (df : DataFrame) (cols : list string) (ml : Z) (t : Z)
  (vals : list (option Q)) :
  join_drivers (drivers self) (to_frame (stock_series self) "Y") [] 0%Z
  = inr (df, cols, ml) ->
  In (t, vals) (rows (df_dropna (loc_from cutoff df))) ->
  (cutoff <= t)%Z /\ complete_at self t.
Proof.
  intros J H.
  destruct (join_drivers_of _ _ _ [stock_series self] _ _ _ _
              (to_frame_of _ _) ltac:(repeat constructor; simpl; tauto) J)
    as (F & _).
  unfold df_dropna, loc_from in H. simpl in H.
  apply filter_In in H as (H & Hall). apply filter_In in H as (H & Hc).
  simpl in Hc, Hall. split; [lia|].
  assert (V := frame_of_complete_row _ _ _ _ F H Hall).
  split.
  - apply V. now left.
  - intros c d Hd. apply V. right.
    change (shifted d) with ((fun cd => shifted (snd cd)) (c, d)).
    now apply in_map.
Qed.

(** The index of a joined frame is strictly increasing. *)
Lemma join_outer_sorted (df df' : DataFrame) (s : Series) (name : string) :
  join_outer df s name = inr df' -> StronglySorted Z.lt (df_index df').
Proof.
  unfold join_outer. destruct (existsb _ _); [discriminate|].
  intros [= <-]. unfold df_index. simpl. rewrite map_map. simpl.
  rewrite map_id. apply union_index_sorted.
Qed.

Lemma to_frame_sorted (s : Series) (name : string) :
  increasing_dates s -> StronglySorted Z.lt (df_index (to_frame s name)).
Proof.
  unfold increasing_dates, df_index, to_frame, index. simpl.
  now rewrite map_map.
Qed.

Lemma join_drivers_sorted (ds : list (string * DriverInfo)) :
  forall (df0 df : DataFrame) (cols0 cols : list string) (ml0 ml : Z),
    StronglySorted Z.lt (df_index df0) ->
    join_drivers ds df0 cols0 ml0 = inr (df, cols, ml) ->
    StronglySorted Z.lt (df_index df).
Proof.
  induction ds as [|(c, d) ds IH]; intros df0 df cols0 cols ml0 ml S; simpl.
  - now intros [= <- _ _].
  - destruct (join_outer df0 (shift (series d) (lag d)) c) as [e | df1]
      eqn:J; [discriminate|]. cbn [bind]. apply IH.
    now apply join_outer_sorted in J.
Qed.

Section TrainFacts.

Variable Model : Type.
Variable fit : list (list Q) -> list Q -> result Model.
Variable predict : Model -> list Q -> Q.
Variable coef_ : Model -> list Q.
Variable intercept_ : Model -> Q.
Variable r2_score : list Q -> list Q -> Q.

Let train' := train Model fit predict coef_ intercept_ r2_score.

(** C5.  For every input to [train] whose target and drivers have
    strictly increasing dates (the time series of the specification) and
    whose drivers join with the target (the frame [j] exists): the joined
    frame has strictly increasing dates, so that its slice from the
    cutoff on raises nothing; and when on no day from the cutoff on the
    target and every lag-shifted driver all have a value, so that no row
    of the training table is complete, [train] returns (None, None) and
    raises nothing. *)
Theorem train_without_complete_row (self : PriceModel) (cutoff_date : Z)
  (j : DataFrame * list string * Z) :
  well_dated self ->
  join_drivers (drivers self) (to_frame (stock_series self) "Y") [] 0%Z
  = inr j ->
  (forall t, (cutoff_date <= t)%Z -> ~ complete_at self t) ->
  StronglySorted Z.lt (df_index (fst (fst j))) /\
  rows (df_dropna (loc_from cutoff_date (fst (fst j)))) = [] /\
  train' self cutoff_date = inr None.
Proof.
  destruct j as ((df, cols), ml). intros (Ws & _) J Hno. simpl fst.
  assert (E : rows (df_dropna (loc_from cutoff_date df)) = []).
  { destruct (rows (df_dropna (loc_from cutoff_date df)))
      as [|(t, vals) r] eqn:R; [reflexivity|]. exfalso.
    destruct (train_rows_complete self cutoff_date df cols ml t vals J)
      as (Hc & Hk); [rewrite R; now left|].
    exact (Hno t Hc Hk). }
  split; [|split; [exact E|]].
  - apply (join_drivers_sorted _ _ _ _ _ _ _ (to_frame_sorted _ _ Ws) J).
  - unfold train', train. rewrite J. cbn [bind].
    now rewrite (df_empty_no_rows _ E).
Qed.

End TrainFacts.

(** ** The fair-value table *)

Lemma get_driver_NoDup (ds : list (string * DriverInfo)) (c : string)
  (d : DriverInfo) :
  NoDup (map fst ds) -> In (c, d) ds -> get_driver ds c = inr d.
Proof.
  induction ds as [|(k, i) ds IH]; simpl; [tauto|].
  intros N [[= -> ->] | H]; inversion N as [|? ? Hk N']; subst.
  - now rewrite String.eqb_refl.
  - destruct (String.eqb_spec c k) as [-> | _]; [|auto].
    elim Hk. change k with (fst (k, d)). now apply in_map.
Qed.

Lemma frame_of_not_empty (df : DataFrame) (s : Series) (ss : list Series) :
  frame_of df (s :: ss) -> index s <> [] -> df_empty df = false.
Proof.
  intros (Hc & _ & _ & Hidx) Hs. unfold df_empty.
  destruct (columns df); [discriminate|].
  destruct (rows df) as [|r rs] eqn:R; [|reflexivity].
  destruct (index s) as [|t ts] eqn:E; [congruence|].
  assert (H : In t (df_index df))
    by (apply (Hidx s); [now left | rewrite E; now left]).
  unfold df_index in H. now rewrite R in H.
Qed.

(** The frame of the shifted drivers, as long as the first of them is not
    empty: one column a driver, none dropped on the way. *)
Lemma build_full_of (ds2 : list (string * DriverInfo)) :
  forall (ds1 : list (string * DriverInfo)) (full full' : DataFrame),
    NoDup (map fst (ds1 ++ ds2)) ->
    (forall cd r, ds1 ++ ds2 = cd :: r -> index (shifted (snd cd)) <> []) ->
    match ds1 with
    | [] => full = empty_frame
    | _ => frame_of full (map (fun cd => shifted (snd cd)) ds1)
    end ->
    build_full (ds1 ++ ds2) (map fst ds2) full = inr full' ->
    match ds1 ++ ds2 with
    | [] => full' = empty_frame
    | _ => frame_of full' (map (fun cd => shifted (snd cd)) (ds1 ++ ds2))
    end.
Proof.
  induction ds2 as [|(c, d) ds2 IH]; intros ds1 full full' N Hne Hf; simpl.
  - intros [= <-]. now rewrite app_nil_r.
  - rewrite (get_driver_NoDup _ c d N) by (apply in_or_app; right; now left).
    cbn [bind]. fold (shifted d).
    replace (ds1 ++ (c, d) :: ds2) with ((ds1 ++ [(c, d)]) ++ ds2) in *
      by now rewrite <- app_assoc.
    destruct ds1 as [|cd1 ds1].
    + subst full. cbn [df_empty empty_frame columns]. intros H.
      apply (IH [(c, d)]) in H; auto. apply to_frame_of.
    + assert (E : df_empty full = false).
      { eapply frame_of_not_empty; [exact Hf|].
        eapply Hne. reflexivity. }
      rewrite E.
      destruct (join_outer full (shifted d) c) as [e | fj] eqn:J;
        [discriminate|]. cbn [bind]. intros H.
      apply (IH ((cd1 :: ds1) ++ [(c, d)])) in H; auto.
      destruct (join_outer_of _ _ _ _ _ Hf J) as (F & _).
      rewrite map_app. exact F.
Qed.

Lemma select_index (df X : DataFrame) (names : list string) :
  select df names = inr X -> df_index X = df_index df.
Proof.
  unfold select. destruct (positions (columns df) names); [discriminate|].
  intros [= <-]. unfold df_index. simpl. now rewrite map_map.
Qed.

Section FairValue.

Variable Model : Type.
Variable fit : list (list Q) -> list Q -> result Model.
Variable predict : Model -> list Q -> Q.
Variable coef_ : Model -> list Q.
Variable intercept_ : Model -> Q.
Variable r2_score : list Q -> list Q -> Q.

Let train' := train Model fit predict coef_ intercept_ r2_score.

(** The days of the fair-value table are the days of the frame of the
    shifted drivers that pass the cutoff and have no missing value. *)
Lemma train_table_index (self : PriceModel) (cutoff : Z)
  (metrics : Metrics) (tbl : DataFrame) :
  train' self cutoff = inr (Some (metrics, tbl)) ->
  exists full_df,
    df_index tbl = df_index (df_dropna (loc_from cutoff full_df)) /\
    NoDup (map fst (drivers self)) /\
    (exists t0, complete_at self t0) /\
    build_full (drivers self) (map fst (drivers self)) empty_frame
    = inr full_df.
Proof.
  unfold train', train.
  destruct (join_drivers _ _ _ _) as [e | ((df, cols), ml)] eqn:J;
    [discriminate|]. cbn [bind].
  destruct (df_empty (df_dropna (loc_from cutoff df))) eqn:Em;
    [discriminate|].
  destruct (select (df_dropna (loc_from cutoff df)) cols) as [e | X];
    [discriminate|]. cbn [bind].
  destruct (fit _ _) as [e | m]; [discriminate|]. cbn [bind].
  destruct (build_full (drivers self) cols empty_frame) as [e | full_df]
    eqn:B; [discriminate|]. cbn [bind].
  destruct (select (df_dropna (loc_from cutoff full_df)) cols)
    as [e | features] eqn:S2; [discriminate|]. cbn [bind].
  intros [= _ <-].
  destruct (join_drivers_of _ _ _ [stock_series self] _ _ _ _
              (to_frame_of _ _) ltac:(repeat constructor; simpl; tauto) J)
    as (_ & Hcols & -> & N).
  exists full_df. split; [|split; [|split]].
  - rewrite <- (select_index _ _ _ S2).
    unfold fair_value_table, df_index. simpl. now rewrite map_map.
  - rewrite Hcols in N. simpl in N. now inversion N.
  - destruct (rows (df_dropna (loc_from cutoff df))) as [|(t0, v0) r] eqn:R.
    + now rewrite (df_empty_no_rows _ R) in Em.
    + exists t0.
      apply (train_rows_complete self cutoff df _ ml t0 v0 J).
      rewrite R. now left.
  - exact B.
Qed.

(** The days of the table, from the frame of the shifted drivers. *)
Lemma train_table_days (self : PriceModel) (cutoff : Z)
  (metrics : Metrics) (tbl : DataFrame) :
  train' self cutoff = inr (Some (metrics, tbl)) ->
  (forall t, In t (df_index tbl) ->
             (cutoff <= t)%Z /\
             forall c d, In (c, d) (drivers self) ->
                         has_value t (shifted d)
                         /\ In t (index (series d))) /\
  (drivers self <> [] ->
   forall t, (cutoff <= t)%Z ->
             (forall c d, In (c, d) (drivers self) ->
                          exists v, cell t (shifted d) = Some v) ->
             In t (df_index tbl)).
Proof.
  intros H.
  destruct (train_table_index self cutoff metrics tbl H)
    as (full_df & -> & N & (t0 & _ & K0) & B).
  assert (F := build_full_of (drivers self) [] empty_frame full_df N).
  simpl app in F.
  assert (Hne : forall cd r, drivers self = cd :: r ->
                             index (shifted (snd cd)) <> []).
  { intros (c, d) r E. destruct (K0 c d) as (v & Hv);
      [rewrite E; now left|].
    apply In_index in Hv. simpl. now destruct (index (shifted d)). }
  specialize (F Hne eq_refl B).
  split.
  - intros t Ht. unfold df_index in Ht.
    apply in_map_iff in Ht as ((u, vals) & Hu & Hin). simpl in Hu. subst u.
    unfold df_dropna, loc_from in Hin. simpl in Hin.
    apply filter_In in Hin as (Hin & Hall).
    apply filter_In in Hin as (Hin & Hc). simpl in Hc, Hall.
    split; [lia|]. intros c d Hd.
    destruct (drivers self) as [|cd ds] eqn:E; [destruct Hd|].
    assert (V : has_value t (shifted d)).
    { apply (frame_of_complete_row _ _ _ _ F Hin Hall).
      change (shifted d) with ((fun cd => shifted (snd cd)) (c, d)).
      now apply in_map. }
    split; [exact V|]. destruct V as (v & Hv).
    apply In_index in Hv. now rewrite <- (shift_index (series d) (lag d)).
  - intros Hd t Hc Hall.
    destruct (drivers self) as [|(c0, d0) ds] eqn:E; [congruence|].
    destruct F as (_ & Hrow & _ & Hidx).
    assert (Ht : In t (df_index full_df)).
    { apply (Hidx (shifted d0)); [now left|].
      destruct (Hall c0 d0) as (v & Hv); [now left|].
      apply has_value_cell in Hv as (w & Hw). eapply In_index; eauto. }
    apply (row_at_In (length (map (fun cd => shifted (snd cd))
                                ((c0, d0) :: ds)))) in Ht.
    rewrite Hrow in Ht.
    unfold df_index, df_dropna, loc_from. simpl rows.
    apply in_map_iff. eexists; split; [|apply filter_In; split;
      [apply filter_In; split; [exact Ht|] |]]; cbn [fst snd].
    + reflexivity.
    + apply Z.leb_le. exact Hc.
    + apply forallb_forall. intros x Hx.
      apply in_map_iff in Hx as (s & <- & Hs).
      destruct Hs as [<- | Hs]; cbv beta; cbn [snd].
      * destruct (Hall c0 d0) as (v & ->); [now left | reflexivity].
      * apply in_map_iff in Hs as ((c, d) & <- & Hs). cbn [snd].
        destruct (Hall c d) as (v & ->); [now right | reflexivity].
Qed.

(** X1.  What [train] does, for every input: a day of the fair-value
    table is a day from the cutoff on at which every shifted driver has a
    value, hence a day of every driver's own series; and, with at least
    one driver, every day from the cutoff on at which all shifted drivers
    have a value is in the table. *)
Lemma fair_value_days (self : PriceModel) (cutoff : Z)
  (metrics : Metrics) (tbl : DataFrame) :
  train' self cutoff = inr (Some (metrics, tbl)) ->
  (forall t, In t (df_index tbl) ->
             (cutoff <= t)%Z /\
             forall c d, In (c, d) (drivers self) ->
                         has_value t (shifted d)
                         /\ In t (index (series d))) /\
  (drivers self <> [] ->
   forall t, (cutoff <= t)%Z ->
             (forall c d, In (c, d) (drivers self) ->
                          exists v, cell t (shifted d) = Some v) ->
             In t (df_index tbl)).
Proof. exact (train_table_days self cutoff metrics tbl). Qed.

End FairValue.


Section Projection.

Variable Model : Type.
Variable fit : list (list Q) -> list Q -> result Model.
Variable predict : Model -> list Q -> Q.
Variable coef_ : Model -> list Q.
Variable intercept_ : Model -> Q.
Variable r2_score : list Q -> list Q -> Q.

(** C1, the code at a failing input.  The target and the only driver are
    known on days 0 to 5 and the driver has lag 2: whatever the regression,
    the fair-value table has the days 2 to 5 and stops on day 5, the last
    day the driver is known; it has no row 2 days later. *)
Theorem fair_value_stops_with_driver_data
  (metrics : Metrics) (tbl : DataFrame) :
  train Model fit predict coef_ intercept_ r2_score lagged_model 0
  = inr (Some (metrics, tbl)) ->
  Max_Lag metrics = 2%Z /\
  df_index tbl = [2; 3; 4; 5]%Z /\
  ~ In 7%Z (df_index tbl).
Proof.
  intros H. vm_compute in H.
  destruct (fit _ _) as [e | m]; [discriminate|].
  injection H as <- <-. vm_compute.
  repeat split. intros [H | [H | [H | [H | []]]]]; discriminate.
Qed.

End Projection.

Lemma fair_value_stops_with_driver_data_witness :
  exists metrics tbl,
    demo_train lagged_model 0 = inr (Some (metrics, tbl)) /\
    df_index tbl = [2; 3; 4; 5]%Z.
Proof.
  destruct (demo_train lagged_model 0) as [e | [(metrics, tbl)|]] eqn:E;
    try (vm_compute in E; discriminate).
  exists metrics, tbl. split; [reflexivity|].
  exact (proj1 (proj2 (fair_value_stops_with_driver_data (list Q)
                         demo_fit demo_predict (fun m => m) (fun _ => 0)
                         (fun _ _ => 1) metrics tbl E))).
Defined.

Lemma train_without_complete_row_witness :
  well_dated disjoint_model /\ demo_train disjoint_model 0 = inr None.
Proof.
  assert (W : well_dated disjoint_model).
  { split; [vm_compute; repeat constructor|].
    intros c d [[= <- <-] | []]. vm_compute. repeat constructor. }
  split; [exact W|].
  destruct (join_drivers (drivers disjoint_model)
              (to_frame (stock_series disjoint_model) "Y") [] 0%Z)
    as [e | j] eqn:J; [vm_compute in J; discriminate|].
  assert (Hno : forall t, (0 <= t)%Z -> ~ complete_at disjoint_model t).
  { intros t _ ((v & Hs) & Hd).
    destruct (Hd _ _ (or_introl eq_refl)) as (w & Hw).
    vm_compute in Hs, Hw.
    destruct Hs as [Hs | [Hs | []]]; injection Hs as <- _;
      destruct Hw as [Hw | [Hw | [Hw | []]]]; discriminate. }
  exact (proj2 (proj2 (train_without_complete_row (list Q) demo_fit
                         demo_predict (fun m => m) (fun _ => 0)
                         (fun _ _ => 1) disjoint_model 0 j W J Hno))).
Defined.


(** ** The scanner on aligned pairs *)

Lemma shift_zero (s : Series) : shift s 0 = s.
Proof.
  unfold shift, shift_values. simpl. rewrite firstn_all.
  unfold index, values. induction s as [|(t, v) s IH]; simpl;
    [reflexivity | now rewrite IH].
Qed.

Lemma common_cons_notin (a b : Series) (t : Z) (v : option Q) :
  ~ In t (index a) -> common a ((t, v) :: b) = common a b.
Proof.
  induction a as [|(u, [x|]) a IH]; simpl; intros H; [reflexivity| |].
  - destruct (Z.eqb_spec u t) as [-> | _]; [elim H; now left|].
    rewrite IH by tauto. reflexivity.
  - apply IH. tauto.
Qed.

Lemma common_aligned (a b : Series) :
  index a = index b -> NoDup (index a) ->
  Forall (fun v => notnull v = true) (values a) ->
  Forall (fun v => notnull v = true) (values b) ->
  map fst (common a b) = present (values a) /\
  map snd (common a b) = present (values b) /\
  length (common a b) = length a.
Proof.
  revert b. induction a as [|(t, x) a IH]; intros [|(u, y) b]; simpl;
    try discriminate; [auto|].
  intros [= <- Hi] N Fa Fb.
  inversion N as [|? ? Ht N']; subst.
  inversion Fa as [|? ? Hx Fa']; subst.
  inversion Fb as [|? ? Hy Fb']; subst.
  destruct x as [x|]; [|discriminate]. destruct y as [y|]; [|discriminate].
  rewrite Z.eqb_refl. simpl. rewrite (common_cons_notin a b t (Some y) Ht).
  destruct (IH b Hi N' Fa' Fb') as (-> & -> & ->). auto.
Qed.

Lemma present_all (vs : list (option Q)) :
  Forall (fun v => notnull v = true) vs -> length (present vs) = length vs.
Proof.
  induction 1 as [|[v|] vs H _ IH]; simpl; [reflexivity | | discriminate].
  now rewrite IH.
Qed.

Lemma std_not_zero (s : Series) :
  (2 <= length (present (values s)))%nat -> feq0 (std s) = false ->
  Qeq_bool (sum_dev (present (values s)) (present (values s))) 0 = false.
Proof.
  intros L. unfold std.
  destruct (Nat.leb_spec (length (present (values s))) 1) as [H | _]; [lia|].
  cbn [feq0]. intros H.
  destruct (Qeq_bool (sum_dev _ _) 0) eqn:E; [|reflexivity].
  apply Qeq_bool_iff in E. rewrite <- H. symmetry.
  apply Qeq_bool_iff. rewrite Qred_correct, E. unfold Qdiv. ring.
Qed.

(** On an aligned pair lag 0 always has a valid score. *)
Lemma lag_zero_valid (target driver : Series) :
  aligned_pair target driver -> valid_lag target driver 0.
Proof.
  intros (Hi & N & Ft & Fd & L). unfold valid_lag, lag_corr.
  rewrite shift_zero.
  destruct (feq0 (std driver)) eqn:Ed; [reflexivity|].
  destruct (feq0 (std target)) eqn:Et; [reflexivity|]. simpl.
  destruct (common_aligned target driver Hi N Ft Fd) as (Hx & Hy & Hl).
  assert (Lt : (2 <= length (present (values target)))%nat).
  { rewrite (present_all _ Ft). unfold values. now rewrite length_map. }
  assert (Ld : (2 <= length (present (values driver)))%nat).
  { rewrite (present_all _ Fd). unfold values. rewrite length_map.
    assert (E : length (index target) = length (index driver))
      by now rewrite Hi.
    unfold index in E. rewrite !length_map in E. lia. }
  unfold corr, pearson. rewrite Hl, Hx, Hy.
  destruct (Nat.ltb_spec (length target) 2) as [H | _]; [lia|].
  rewrite (std_not_zero target Lt Et), (std_not_zero driver Ld Ed).
  reflexivity.
Qed.

Lemma Qabs_eq0 (x : Q) : Qabs x == 0 -> x == 0.
Proof.
  destruct x as (n, d). unfold Qabs, Qeq. simpl. lia.
Qed.

Lemma lag_corr_zero (target driver : Series) (l : Z) :
  valid_lag target driver l -> mag (lag_corr target driver l) == 0 ->
  lag_corr target driver l = Fin 0.
Proof.
  unfold valid_lag, lag_corr.
  destruct (feq0 _ || feq0 _); [reflexivity|].
  unfold corr, pearson. destruct (_ <? 2)%nat; [discriminate|].
  destruct (Qeq_bool _ 0 || Qeq_bool _ 0); [discriminate|].
  intros _ H. cbn [mag] in H. apply Qabs_eq0 in H. f_equal.
  rewrite Qred_correct in H. change 0 with (Qred 0).
  now apply Qred_complete.
Qed.

(** On an aligned pair the scanner returns the best valid lag, as the
    specification words it. *)
Lemma aligned_pair_best_valid_lag (target driver : Series) :
  aligned_pair target driver -> returns_best_valid_lag target driver.
Proof.
  intros A _. unfold compute_max_lag_correlation.
  destruct (scan_lags_inv target driver lags) as (Hn & Hmax & Hcase).
  set (r := scan_lags target driver lags (0%Z, zero)) in *.
  cbv zeta. fold r.
  destruct Hcase as [(Hb & Hz) | (pre & post & _ & Hb & Hv & _)].
  - assert (V0 := lag_zero_valid target driver A).
    assert (I0 : In 0%Z lags) by (simpl; tauto).
    rewrite Hb in *. cbn [fst snd] in *.
    repeat split; auto. symmetry. apply lag_corr_zero; auto.
  - auto.
Qed.

(** ** The lag returned by the scanner *)


(** C4, counterexample.  On [sparse_target] and [late_driver] the only lag
    with a valid score is 5 (the shifted driver is flat there, score 0.0);
    lag 0 has a NaN score (the driver is flat on the two common days), yet
    the scan returns lag 0: the initial best was never replaced. *)
Lemma best_lag_need_not_be_valid :
  ~ returns_best_valid_lag sparse_target late_driver.
Proof.
  intro H.
  assert (V : exists l, In l lags /\ valid_lag sparse_target late_driver l).
  { exists 5%Z. split; [simpl; tauto | reflexivity]. }
  destruct (H V) as (V0 & _). vm_compute in V0. discriminate.
Qed.

(** C4, as the code has it.  On an aligned pair the sentence of the
    specification holds as it is written: the scanner returns a lag with a
    valid score, of the largest absolute value.  For every target and
    driver, whatever [max_lookback]: the lag returned is one of the
    candidate lags and the correlation returned is not NaN; no valid score
    is larger in absolute value than the correlation returned; no lag with
    a valid score of the same absolute value is smaller than the lag
    returned; as soon as one valid score is not zero, the correlation
    returned is the score of the lag returned, which is valid; and when
    every valid score is zero, in particular when no candidate is valid,
    the result is (0, 0). *)
Theorem compute_max_lag_correlation_best
  (target driver : Series) (max_lookback : Z) :
  let r := compute_max_lag_correlation target driver max_lookback in
  (aligned_pair target driver -> returns_best_valid_lag target driver) /\
  In (fst r) lags /\
  isna (snd r) = false /\
  (forall l, In l lags -> valid_lag target driver l ->
             mag (lag_corr target driver l) <= mag (snd r)) /\
  (forall l, In l lags -> valid_lag target driver l ->
             mag (lag_corr target driver l) == mag (snd r) ->
             (fst r <= l)%Z) /\
  ((exists l, In l lags /\ valid_lag target driver l /\
              ~ mag (lag_corr target driver l) == 0) ->
   valid_lag target driver (fst r) /\
   snd r = lag_corr target driver (fst r)) /\
  ((forall l, In l lags -> valid_lag target driver l ->
              mag (lag_corr target driver l) == 0) ->
   r = (0%Z, zero)).
Proof.
  intro r. subst r.
  split; [exact (aligned_pair_best_valid_lag target driver)|].
  unfold compute_max_lag_correlation.
  destruct (scan_lags_inv target driver lags) as (Hn & Hmax & Hcase).
  set (r := scan_lags target driver lags (0%Z, zero)) in *.
  split; [|split; [exact Hn|split; [exact Hmax|]]].
  - destruct Hcase as [(Hb & _) | (pre & post & Hs & _)].
    + rewrite Hb. simpl. tauto.
    + rewrite Hs. apply in_elt.
  - split; [|split].
    + intros l Hl Hv He.
      destruct Hcase as [(Hb & _) | (pre & post & Hs & _ & _ & _ & Hlt)].
      * rewrite Hb. simpl. unfold lags in Hl. simpl in Hl. lia.
      * assert (S := lags_sorted). rewrite Hs in S, Hl.
        apply in_app_or in Hl as [Hl | Hl].
        -- specialize (Hlt l Hl Hv). rewrite He in Hlt.
           exfalso. exact (Qlt_irrefl _ Hlt).
        -- exact (sorted_split_le pre post _ l S Hl).
    + intros (l & Hl & Hv & Hz).
      destruct Hcase as [(_ & Hall) | (pre & post & _ & Hb & Hv' & _)].
      * elim Hz. auto.
      * auto.
    + intros Hall.
      destruct Hcase as [(Hb & _) | (pre & post & Hs & Hb & Hv & Hp & _)];
        [exact Hb|].
      assert (Hin : In (fst r) lags) by (rewrite Hs; apply in_elt).
      specialize (Hall _ Hin Hv). rewrite Hb, Hall in Hp.
      exfalso. exact (Qlt_irrefl _ Hp).
Qed.

Lemma compute_max_lag_correlation_best_witness :
  aligned_pair (ramp 0 3 1 10) (ramp 0 3 2 3) /\
  returns_best_valid_lag (ramp 0 3 1 10) (ramp 0 3 2 3).
Proof.
  assert (A : aligned_pair (ramp 0 3 1 10) (ramp 0 3 2 3)).
  { split; [reflexivity|]. split.
    - repeat constructor; simpl; lia.
    - split; [|split]; [repeat constructor .. | simpl; lia]. }
  split; [exact A|].
  exact (proj1 (compute_max_lag_correlation_best
                  (ramp 0 3 1 10) (ramp 0 3 2 3) 60) A).
Defined.

(** C10.  The result of [compute_max_lag_correlation] does not depend on
    [max_lookback]: any two values of it give the same pair, which is the
    scan of the fixed list 0, 5, 10, 20, 40, 60. *)
Theorem max_lookback_is_ignored (target driver : Series) (a b : Z) :
  compute_max_lag_correlation target driver a
  = compute_max_lag_correlation target driver b /\
  compute_max_lag_correlation target driver a
  = scan_lags target driver [0; 5; 10; 20; 40; 60]%Z (0%Z, zero).
Proof. split; reflexivity. Qed.

(** ** What [train] returns *)

Lemma join_drivers_max_lag (ds : list (string * DriverInfo)) :
  forall (df0 df : DataFrame) (cols0 cols : list string) (ml0 ml : Z),
    join_drivers ds df0 cols0 ml0 = inr (df, cols, ml) ->
    (ml0 <= ml)%Z /\
    (forall c d, In (c, d) ds -> (lag d <= ml)%Z) /\
    (ml = ml0 \/ exists c d, In (c, d) ds /\ lag d = ml).
Proof.
  induction ds as [|(c, d) ds IH]; intros df0 df cols0 cols ml0 ml; simpl.
  - intros [= _ _ <-]. split; [lia|]. split; [tauto | now left].
  - destruct (join_outer df0 _ c) as [e | df1]; [discriminate|]. simpl.
    intros H. apply IH in H as (H1 & H2 & H3).
    destruct (Z.ltb_spec ml0 (lag d)) as [L | L].
    + split; [lia|]. split.
      * intros c' d' [[= <- <-] | Hd]; [lia | eauto].
      * right. destruct H3 as [-> | (c' & d' & Hd & E)].
        -- exists c, d. auto.
        -- exists c', d'. auto.
    + split; [lia|]. split.
      * intros c' d' [[= <- <-] | Hd]; [lia | eauto].
      * destruct H3 as [-> | (c' & d' & Hd & E)]; [now left|].
        right. exists c', d'. auto.
Qed.

(** ** What [train] raises *)

Lemma join_outer_clash (df : DataFrame) (s : Series) (name : string) :
  In name (columns df) -> join_outer df s name = inl ValueError.
Proof.
  intros H. unfold join_outer.
  assert (E : existsb (String.eqb name) (columns df) = true).
  { apply existsb_exists. exists name. split; [exact H|].
    apply String.eqb_refl. }
  now rewrite E.
Qed.

Lemma join_outer_fresh (df : DataFrame) (s : Series) (name : string) :
  ~ In name (columns df) ->
  exists df', join_outer df s name = inr df' /\
              columns df' = columns df ++ [name].
Proof.
  intros H. unfold join_outer.
  destruct (existsb (String.eqb name) (columns df)) eqn:E.
  - apply existsb_exists in E as (x & Hx & Ex).
    apply String.eqb_eq in Ex. subst x. contradiction.
  - eexists. split; reflexivity.
Qed.

Lemma join_drivers_clash (ds : list (string * DriverInfo)) (name : string) :
  forall (df0 : DataFrame) (cols0 : list string) (ml0 : Z),
    In name (columns df0) -> In name (map fst ds) ->
    join_drivers ds df0 cols0 ml0 = inl ValueError.
Proof.
  induction ds as [|(c, d) ds IH]; intros df0 cols0 ml0 Hc Hn; simpl in *;
    [destruct Hn|].
  destruct (in_dec string_dec c (columns df0)) as [I | I].
  - now rewrite join_outer_clash.
  - destruct (join_outer_fresh df0 (shift (series d) (lag d)) c I)
      as (df1 & -> & C1). simpl.
    destruct Hn as [-> | Hn]; [contradiction|].
    apply IH; [|exact Hn]. rewrite C1. apply in_or_app. now left.
Qed.

Lemma join_drivers_fresh (ds : list (string * DriverInfo)) :
  forall (df0 : DataFrame) (cols0 : list string) (ml0 : Z),
    NoDup (columns df0 ++ map fst ds) ->
    exists df ml,
      join_drivers ds df0 cols0 ml0 = inr (df, cols0 ++ map fst ds, ml) /\
      columns df = columns df0 ++ map fst ds.
Proof.
  induction ds as [|(c, d) ds IH]; intros df0 cols0 ml0 N; simpl in *.
  - exists df0, ml0. now rewrite !app_nil_r.
  - assert (I : ~ In c (columns df0)).
    { intros I. apply NoDup_remove_2 in N. apply N.
      apply in_or_app. now left. }
    destruct (join_outer_fresh df0 (shift (series d) (lag d)) c I)
      as (df1 & -> & C1). simpl.
    destruct (IH df1 (cols0 ++ [c])
                (if (ml0 <? lag d)%Z then lag d else ml0)) as (df & ml & J & C).
    { rewrite C1, <- app_assoc. exact N. }
    exists df, ml. rewrite J, C, C1, <- !app_assoc. auto.
Qed.

Lemma positions_total (cols names : list string) :
  incl names cols -> exists ps, positions cols names = inr ps.
Proof.
  induction names as [|n names IH]; intros H; simpl; [now exists []|].
  assert (E : existsb (String.eqb n) cols = true).
  { apply existsb_exists. exists n. split; [apply H; now left|].
    apply String.eqb_refl. }
  rewrite E. destruct IH as (ps & ->); [intros x Hx; apply H; now right|].
  simpl. eauto.
Qed.

Lemma select_total (df : DataFrame) (names : list string) :
  incl names (columns df) -> exists X, select df names = inr X.
Proof.
  intros H. unfold select.
  destruct (positions_total _ _ H) as (ps & ->). simpl. eauto.
Qed.

(** With distinct codes and a first driver that is not empty, the frame of
    the shifted drivers is built without an exception and has one column a
    driver. *)
Lemma build_full_total (ds2 : list (string * DriverInfo)) :
  forall (ds1 : list (string * DriverInfo)) (full : DataFrame),
    NoDup (map fst (ds1 ++ ds2)) ->
    (forall cd r, ds1 ++ ds2 = cd :: r -> index (shifted (snd cd)) <> []) ->
    match ds1 with
    | [] => full = empty_frame
    | _ => frame_of full (map (fun cd => shifted (snd cd)) ds1)
           /\ columns full = map fst ds1
    end ->
    exists full',
      build_full (ds1 ++ ds2) (map fst ds2) full = inr full' /\
      columns full' = map fst (ds1 ++ ds2).
Proof.
  induction ds2 as [|(c, d) ds2 IH]; intros ds1 full N Hne Hf; simpl.
  - exists full. split; [reflexivity|]. rewrite app_nil_r.
    destruct ds1; [now subst | tauto].
  - rewrite (get_driver_NoDup _ c d N) by (apply in_or_app; right; now left).
    cbn [bind]. fold (shifted d).
    replace (ds1 ++ (c, d) :: ds2) with ((ds1 ++ [(c, d)]) ++ ds2) in *
      by now rewrite <- app_assoc.
    destruct ds1 as [|cd1 ds1].
    + subst full. cbn [df_empty empty_frame columns].
      apply (IH [(c, d)]); auto. split; [apply to_frame_of | reflexivity].
    + destruct Hf as (Hf & Hc).
      assert (E : df_empty full = false).
      { eapply frame_of_not_empty; [exact Hf|].
        eapply Hne. reflexivity. }
      rewrite E.
      assert (I : ~ In c (columns full)).
      { rewrite Hc. intros I. assert (N' := N).
        rewrite <- app_assoc, map_app in N'.
        change (map fst ([(c, d)] ++ ds2)) with (c :: map fst ds2) in N'.
        apply NoDup_remove_2 in N'. apply N'. apply in_or_app. now left. }
      destruct (join_outer_fresh full (shifted d) c I) as (fj & J & Cj).
      rewrite J. cbn [bind].
      apply (IH ((cd1 :: ds1) ++ [(c, d)])); auto.
      destruct (join_outer_of _ _ _ _ _ Hf J) as (F & _).
      rewrite !map_app. split; [exact F|]. now rewrite Cj, Hc.
Qed.

Section TrainErrors.

Variable Model : Type.
Variable fit : list (list Q) -> list Q -> result Model.
Variable predict : Model -> list Q -> Q.
Variable coef_ : Model -> list Q.
Variable intercept_ : Model -> Q.
Variable r2_score : list Q -> list Q -> Q.

Let train' := train Model fit predict coef_ intercept_ r2_score.

(** X5.  A driver whose code is "Y", the name [train] gives to the target
    column, makes [train] raise [ValueError], whatever the data. *)
Theorem train_reserved_code (self : PriceModel) (cutoff : Z) :
  In "Y"%string (map fst (drivers self)) ->
  train' self cutoff = inl ValueError.
Proof.
  intros H. unfold train', train.
  rewrite (join_drivers_clash (drivers self) "Y"); [reflexivity | | exact H].
  simpl. now left.
Qed.

(** X4.  For a model with at least one driver, whose series have
    strictly increasing dates and whose driver codes are distinct and
    other than "Y": an exception raised by [train] is the exception
    raised by the call of [fit] on the training rows (line 77).  The
    joins go through, the joined frame has increasing dates so that its
    slice raises nothing, and the selection of the driver columns finds
    every column. *)
Theorem train_raises_only_from_fit (self : PriceModel) (cutoff : Z)
  (e : exn) :
  well_dated self ->
  drivers self <> [] ->
  NoDup ("Y"%string :: map fst (drivers self)) ->
  train' self cutoff = inl e ->
  exists df ml X,
    join_drivers (drivers self) (to_frame (stock_series self) "Y") [] 0%Z
    = inr (df, map fst (drivers self), ml) /\
    StronglySorted Z.lt (df_index df) /\
    select (df_dropna (loc_from cutoff df)) (map fst (drivers self))
    = inr X /\
    fit (map (fun r => present (snd r)) (rows X))
      (present (values (column (df_dropna (loc_from cutoff df)) "Y")))
    = inl e.
Proof.
  intros (Ws & _) _ N. unfold train', train.
  destruct (join_drivers_fresh (drivers self)
              (to_frame (stock_series self) "Y") [] 0%Z N)
    as (df & ml & J & C).
  rewrite J. cbn [bind app].
  destruct (df_empty (df_dropna (loc_from cutoff df))) eqn:Em;
    [discriminate|].
  destruct (select_total (df_dropna (loc_from cutoff df))
              (map fst (drivers self))) as (X & SX).
  { simpl. rewrite C. intros x Hx. right. exact Hx. }
  rewrite SX. cbn [bind]. destruct (fit _ _) as [e' | m] eqn:F.
  { intros [= <-]. exists df, ml, X. split; [reflexivity|].
    split; [|split; [exact SX | exact F]].
    apply (join_drivers_sorted _ _ _ _ _ _ _ (to_frame_sorted _ _ Ws) J). }
  cbn [bind].
  assert (Hne : forall cd r, drivers self = cd :: r ->
                             index (shifted (snd cd)) <> []).
  { intros (c, d) r E.
    destruct (rows (df_dropna (loc_from cutoff df))) as [|(t0, v0) r0] eqn:R.
    - now rewrite (df_empty_no_rows _ R) in Em.
    - destruct (train_rows_complete self cutoff df _ ml t0 v0 J)
        as (_ & _ & K); [rewrite R; now left|].
      destruct (K c d) as (v & Hv); [rewrite E; now left|].
      apply In_index in Hv. simpl. now destruct (index (shifted d)). }
  destruct (build_full_total (drivers self) [] empty_frame)
    as (full_df & B & Cf); auto.
  { simpl. now inversion N. }
  simpl app in B, Cf. rewrite B. cbn [bind].
  destruct (select_total (df_dropna (loc_from cutoff full_df))
              (map fst (drivers self))) as (features & ->).
  { simpl. rewrite Cf. apply incl_refl. }
  discriminate.
Qed.

End TrainErrors.

(** ** Bounds of the correlations *)

Lemma Qsq_nonneg (x : Q) : 0 <= x * x.
Proof.
  destruct (Qlt_le_dec x 0) as [N | P].
  - setoid_replace (x * x) with ((- x) * (- x)) by ring.
    apply Qmult_le_0_compat; lra.
  - apply Qmult_le_0_compat; lra.
Qed.

Lemma Qpos_factor (a x : Q) : 0 < a -> 0 <= a * x -> 0 <= x.
Proof.
  intros Ha H. destruct (Qlt_le_dec x 0) as [N | N]; [|exact N].
  exfalso. assert (P : 0 < a * - x) by (apply Qmult_lt_0_compat; lra).
  setoid_replace (a * - x) with (- (a * x)) in P by ring. lra.
Qed.

(** One more pair in the Cauchy-Schwarz inequality. *)
Lemma cauchy_schwarz_step (A B C a b : Q) :
  0 <= A -> 0 <= B -> C * C <= A * B ->
  (C + a * b) * (C + a * b) <= (A + a * a) * (B + b * b).
Proof.
  intros HA HB HC.
  assert (S2 := Qsq_nonneg a).
  assert (H : 2 * a * b * C <= A * (b * b) + (a * a) * B).
  { destruct (Qlt_le_dec 0 A) as [P | P].
    - assert (S := Qsq_nonneg (A * b - a * C)).
      assert (K : 0 <= A * (A * (b * b) + (a * a) * B - 2 * a * b * C)).
      { assert (0 <= (a * a) * (A * B - C * C))
          by (apply Qmult_le_0_compat; lra).
        setoid_replace (A * (A * (b * b) + a * a * B - 2 * a * b * C))
          with ((A * b - a * C) * (A * b - a * C)
                + (a * a) * (A * B - C * C)) by ring.
        lra. }
      apply (Qpos_factor A) in K; [lra | exact P].
    - assert (EA : A == 0) by lra.
      assert (S := Qsq_nonneg C).
      assert (EC : C * C == 0) by (rewrite EA in HC; lra).
      assert (C0 : C == 0).
      { destruct (Qeq_dec C 0) as [E | E]; [exact E|]. exfalso.
        apply Qmult_integral in EC. tauto. }
      rewrite C0, EA.
      assert (0 <= a * a * B) by (apply Qmult_le_0_compat; lra). lra. }
  setoid_replace ((C + a * b) * (C + a * b))
    with (C * C + 2 * a * b * C + (a * a) * (b * b)) by ring.
  setoid_replace ((A + a * a) * (B + b * b))
    with (A * B + (A * (b * b) + a * a * B) + (a * a) * (b * b)) by ring.
  lra.
Qed.

Lemma Qsum_squares_nonneg (f : Q * Q -> Q) (ps : list (Q * Q)) :
  0 <= Qsum (map (fun p => f p * f p) ps).
Proof.
  induction ps as [|p ps IH]; [apply Qle_refl|].
  cbn [map]. rewrite Qsum_cons. assert (S := Qsq_nonneg (f p)). lra.
Qed.

(** The Cauchy-Schwarz inequality on the sums the program takes. *)
Lemma cauchy_schwarz (f g : Q * Q -> Q) (ps : list (Q * Q)) :
  Qsum (map (fun p => f p * g p) ps) * Qsum (map (fun p => f p * g p) ps)
  <= Qsum (map (fun p => f p * f p) ps)
     * Qsum (map (fun p => g p * g p) ps).
Proof.
  induction ps as [|p ps IH].
  - simpl. lra.
  - cbn [map]. rewrite !Qsum_cons.
    assert (HA := Qsum_squares_nonneg f ps).
    assert (HB := Qsum_squares_nonneg g ps).
    assert (K := cauchy_schwarz_step _ _ _ (f p) (g p) HA HB IH).
    setoid_replace (f p * g p + Qsum (map (fun p0 => f p0 * g p0) ps))
      with (Qsum (map (fun p0 => f p0 * g p0) ps) + f p * g p) by ring.
    setoid_replace (f p * f p + Qsum (map (fun p0 => f p0 * f p0) ps))
      with (Qsum (map (fun p0 => f p0 * f p0) ps) + f p * f p) by ring.
    setoid_replace (g p * g p + Qsum (map (fun p0 => g p0 * g p0) ps))
      with (Qsum (map (fun p0 => g p0 * g p0) ps) + g p * g p) by ring.
    exact K.
Qed.

Lemma combine_map {A B C : Type} (f : A -> B) (g : A -> C) (l : list A) :
  combine (map f l) (map g l) = map (fun x => (f x, g x)) l.
Proof. induction l; simpl; [reflexivity | now f_equal]. Qed.

(** The three sums of [pearson] over one list of pairs. *)
Lemma sum_dev_pairs (f g : Q * Q -> Q) (ps : list (Q * Q)) :
  sum_dev (map f ps) (map g ps)
  = Qsum (map (fun p => (f p - mean (map f ps)) * (g p - mean (map g ps)))
            ps).
Proof. unfold sum_dev. now rewrite combine_map, map_map. Qed.

(** A Pearson coefficient lies between -1 and 1. *)
Lemma pearson_bound (ps : list (Q * Q)) (s : Q) :
  pearson ps = Fin s -> - (1) <= s /\ s <= 1.
Proof.
  unfold pearson. destruct (length ps <? 2)%nat; [discriminate|].
  rewrite !sum_dev_pairs.
  set (f := fun p : Q * Q => fst p - mean (map fst ps)).
  set (g := fun p : Q * Q => snd p - mean (map snd ps)).
  change (Qsum (map (fun p => (fst p - mean (map fst ps))
                              * (snd p - mean (map snd ps))) ps))
    with (Qsum (map (fun p => f p * g p) ps)).
  change (Qsum (map (fun p => (fst p - mean (map fst ps))
                              * (fst p - mean (map fst ps))) ps))
    with (Qsum (map (fun p => f p * f p) ps)).
  change (Qsum (map (fun p => (snd p - mean (map snd ps))
                              * (snd p - mean (map snd ps))) ps))
    with (Qsum (map (fun p => g p * g p) ps)).
  assert (CS := cauchy_schwarz f g ps).
  assert (HA := Qsum_squares_nonneg f ps).
  assert (HB := Qsum_squares_nonneg g ps).
  set (C := Qsum (map (fun p => f p * g p) ps)) in *.
  set (A := Qsum (map (fun p => f p * f p) ps)) in *.
  set (B := Qsum (map (fun p => g p * g p) ps)) in *.
  destruct (Qeq_bool A 0) eqn:EA; [discriminate|].
  destruct (Qeq_bool B 0) eqn:EB; [discriminate|]. simpl orb. cbv iota.
  intros E.
  assert (Es : s = Qred (C * Qabs C / (A * B))) by congruence.
  rewrite Es, Qred_correct. clear E Es.
  assert (PA : 0 < A).
  { destruct (Qlt_le_dec 0 A) as [P | P]; [exact P|].
    assert (E : A == 0) by lra. apply Qeq_bool_iff in E. congruence. }
  assert (PB : 0 < B).
  { destruct (Qlt_le_dec 0 B) as [P | P]; [exact P|].
    assert (E : B == 0) by lra. apply Qeq_bool_iff in E. congruence. }
  assert (PD : 0 < A * B) by (apply Qmult_lt_0_compat; assumption).
  assert (SC := Qsq_nonneg C).
  split.
  - apply Qle_shift_div_l; [exact PD|].
    apply Qabs_case; intros HC.
    + lra.
    + setoid_replace (C * - C) with (- (C * C)) by ring. lra.
  - apply Qle_shift_div_r; [exact PD|].
    apply Qabs_case; intros HC.
    + lra.
    + setoid_replace (C * - C) with (- (C * C)) by ring. lra.
Qed.

Lemma lag_corr_bound (target driver : Series) (l : Z) (s : Q) :
  lag_corr target driver l = Fin s -> - (1) <= s /\ s <= 1.
Proof.
  unfold lag_corr. destruct (feq0 _ || feq0 _).
  - intros [= <-]. split; lra.
  - apply pearson_bound.
Qed.

(** X6.  Every correlation of the scanner is a number between -1 and 1:
    the correlation of each lag when it is not NaN, and the correlation
    [compute_max_lag_correlation] returns, which is never NaN. *)
Theorem scanner_correlations_bounded (target driver : Series)
  (max_lookback : Z) :
  (forall l s, lag_corr target driver l = Fin s -> - (1) <= s /\ s <= 1) /\
  exists s,
    snd (compute_max_lag_correlation target driver max_lookback) = Fin s /\
    - (1) <= s /\ s <= 1.
Proof.
  split; [intros l s; apply lag_corr_bound|].
  unfold compute_max_lag_correlation.
  destruct (scan_lags_inv target driver lags) as (_ & _ & Hcase).
  destruct Hcase as [(-> & _) | (pre & post & _ & Hb & Hv & _)].
  - exists 0. split; [reflexivity | split; lra].
  - unfold valid_lag in Hv.
    destruct (lag_corr target driver _) as [|s] eqn:E; [discriminate|].
    exists s. split; [exact Hb|]. eapply lag_corr_bound; eauto.
Qed.

(** ** The lag returned and the length of the driver *)

Lemma present_app (a b : list (option Q)) :
  present (a ++ b) = present a ++ present b.
Proof.
  induction a as [|[x|] a IH]; simpl; [reflexivity | now rewrite IH | exact IH].
Qed.

Lemma present_length (vs : list (option Q)) :
  (length (present vs) <= length vs)%nat.
Proof. induction vs as [|[x|] vs IH]; simpl; lia. Qed.

Lemma present_none (vs : list (option Q)) :
  (forall v, In v vs -> v = None) -> present vs = [].
Proof.
  induction vs as [|[x|] vs IH]; intros H; simpl; [reflexivity | |].
  - specialize (H (Some x) (or_introl eq_refl)). discriminate.
  - apply IH. intros v Hv. apply H. now right.
Qed.

(** A shift by [p] positions leaves at most [n - p] values. *)
Lemma shift_values_present (vs : list (option Q)) (p : Z) :
  (0 <= p)%Z ->
  (length (present (shift_values vs p)) + Z.to_nat p
   <= Nat.max (length vs) (Z.to_nat p))%nat.
Proof.
  intros Hp. unfold shift_values.
  destruct (Z.leb_spec 0 p) as [_ | H]; [|lia].
  rewrite firstn_app, present_app, repeat_length, length_app.
  rewrite (present_none (firstn _ (repeat None _))).
  - simpl. assert (L := present_length
                          (firstn (length vs - Z.to_nat p) vs)).
    rewrite length_firstn in L. lia.
  - intros v Hv. apply In_firstn in Hv. now apply repeat_spec in Hv.
Qed.

Lemma shift_values_of (s : Series) (p : Z) :
  values (shift s p) = shift_values (values s) p.
Proof.
  unfold shift, values at 1.
  assert (L : length (index s) = length (shift_values (values s) p)).
  { rewrite shift_values_length. unfold index, values.
    now rewrite !length_map. }
  revert L. generalize (shift_values (values s) p) as vs.
  induction (index s) as [|t l IH]; intros [|v vs]; simpl; try discriminate;
    [reflexivity|]. intros [= L]. now rewrite IH.
Qed.

(** A list with at most one element is flat. *)
Lemma flat_short (xs ys : list Q) :
  (length xs <= 1)%nat -> incl ys xs -> flat ys.
Proof.
  intros L I x y Hx Hy. apply I in Hx, Hy.
  destruct xs as [|a [|b xs]]; simpl in *; try lia; try tauto.
  destruct Hx as [<- | []], Hy as [<- | []]. reflexivity.
Qed.

(** A lag whose correlation is a number other than 0 leaves at least
    two values of the driver. *)
Lemma lag_corr_nonzero_rows (target driver : Series) (l : Z) :
  (0 <= l)%Z -> valid_lag target driver l ->
  0 < mag (lag_corr target driver l) ->
  (l + 2 <= Z.of_nat (length driver))%Z.
Proof.
  intros Hl Hv Hm. unfold valid_lag, lag_corr in *.
  destruct (feq0 _ || feq0 _);
    [simpl in Hm; exact (False_ind _ (Qlt_irrefl _ Hm))|].
  unfold corr in *.
  set (ps := common target (shift driver l)) in *.
  set (xs := present (values (shift driver l))).
  destruct (le_lt_dec (length xs) 1) as [L | L].
  - rewrite (pearson_flat_r ps) in Hv; [discriminate|].
    apply (flat_short xs); [exact L|].
    intros y Hy. apply in_map_iff in Hy as ((x1, y1) & <- & Hy).
    apply common_In in Hy as (_ & Hy). now apply present_In.
  - assert (S := shift_values_present (values driver) l Hl).
    fold xs in S. unfold xs in L. rewrite shift_values_of in L.
    unfold values in S at 2. rewrite length_map in S. lia.
Qed.

(** X8.  The lag [compute_max_lag_correlation] returns is 0, or leaves at
    least two rows of the driver once shifted: lag + 2 <= len(driver). *)
Theorem best_lag_leaves_two_rows (target driver : Series)
  (max_lookback : Z) :
  let r := compute_max_lag_correlation target driver max_lookback in
  fst r = 0%Z \/ (fst r + 2 <= Z.of_nat (length driver))%Z.
Proof.
  intro r. subst r. unfold compute_max_lag_correlation.
  destruct (scan_lags_inv target driver lags) as (_ & _ & Hcase).
  set (r := scan_lags target driver lags (0%Z, zero)) in *.
  destruct Hcase as [(-> & _) | (pre & post & Hs & Hb & Hv & Hp & _)];
    [now left | right].
  apply (lag_corr_nonzero_rows target); [|exact Hv | now rewrite <- Hb].
  assert (I : In (fst r) lags) by (rewrite Hs; apply in_elt).
  unfold lags in I. simpl in I. lia.
Qed.

(** ** The fields of a finding *)

(** Rounding keeps a correlation between -1 and 1. *)
Lemma round4_bound (s : Q) :
  - (1) <= s /\ s <= 1 ->
  exists s', round4 (Fin s) = Fin s' /\ - (1) <= s' /\ s' <= 1.
Proof.
  intros (Lo & Hi). unfold round4.
  set (a := Qabs s * inject_Z 100000000).
  set (m := Z.sqrt (Qfloor a)).
  set (k := match a ?= inject_Z (m * m + m) + (1 # 4) with
            | Eq => if Z.even m then m else (m + 1)%Z
            | Lt => m
            | Gt => (m + 1)%Z
            end).
  assert (Ha : 0 <= a /\ a <= inject_Z 100000000).
  { unfold a. assert (A0 := Qabs_nonneg s).
    assert (A1 : Qabs s <= 1) by (apply Qabs_case; intros; lra).
    change (inject_Z 100000000) with (100000000 # 1). split; nra. }
  assert (Hm : (0 <= m <= 10000)%Z).
  { unfold m. split; [apply Z.sqrt_nonneg|].
    change 10000%Z with (Z.sqrt 100000000).
    apply Z.sqrt_le_mono.
    rewrite <- (Qfloor_Z 100000000). apply Qfloor_resp_le. tauto. }
  assert (Hk : (0 <= k <= 10000)%Z).
  { destruct (Z.eq_dec m 10000) as [E | E].
    - assert (L : a < inject_Z (m * m + m) + (1 # 4)).
      { rewrite E. apply Qle_lt_trans with (inject_Z 100000000); [tauto|].
        reflexivity. }
      unfold k. destruct (a ?= _) eqn:C; [| lia |].
      + apply Qeq_alt in C. rewrite C in L.
        exact (False_ind _ (Qlt_irrefl _ L)).
      + apply Qgt_alt in C. exfalso. lra.
    - unfold k. destruct (a ?= _); [destruct (Z.even m)| |]; lia. }
  eexists. split; [reflexivity|]. rewrite Qred_correct.
  set (r := inject_Z k / inject_Z 10000).
  assert (Hr : 0 <= r /\ r <= 1).
  { unfold r. split.
    - apply Qle_shift_div_l; [reflexivity|]. rewrite Qmult_0_l.
      change 0 with (inject_Z 0). rewrite <- Zle_Qle. lia.
    - apply Qle_shift_div_r; [reflexivity|]. rewrite Qmult_1_l.
      rewrite <- Zle_Qle. lia. }
  assert (Hrr : 0 <= r * r /\ r * r <= 1) by (split; nra).
  destruct (Qle_bool 0 s); lra.
Qed.

(** What the scanner returns: a candidate lag that leaves two rows of the
    driver, or 0, and a correlation between -1 and 1. *)
Lemma scanner_result (target driver : Series) (max_lookback : Z) :
  let r := compute_max_lag_correlation target driver max_lookback in
  In (fst r) lags /\
  (fst r = 0%Z \/ (fst r + 2 <= Z.of_nat (length driver))%Z) /\
  exists s, snd r = Fin s /\ - (1) <= s /\ s <= 1.
Proof.
  intro r. subst r. unfold compute_max_lag_correlation.
  destruct (scan_lags_inv target driver lags) as (_ & _ & Hcase).
  set (r := scan_lags target driver lags (0%Z, zero)) in *.
  destruct Hcase as [(-> & _) | (pre & post & Hs & Hb & Hv & Hp & _)].
  - split; [simpl; tauto|]. split; [now left|].
    exists 0. split; [reflexivity | split; lra].
  - assert (I : In (fst r) lags) by (rewrite Hs; apply in_elt).
    split; [exact I|]. split.
    + right. apply (lag_corr_nonzero_rows target);
        [|exact Hv | now rewrite <- Hb].
      unfold lags in I. simpl in I. lia.
    + unfold valid_lag in Hv.
      destruct (lag_corr target driver (fst r)) as [|s] eqn:E;
        [discriminate|].
      exists s. split; [exact Hb|]. eapply lag_corr_bound; eauto.
Qed.

Lemma column_length (df : DataFrame) (name : string) :
  length (column df name) = df_len df.
Proof. unfold column, df_len. now rewrite length_map. Qed.

Lemma recent_score_bound (df : DataFrame) :
  exists s, recent_score df = Fin s /\ - (1) <= s /\ s <= 1.
Proof.
  unfold recent_score. destruct (20 <? df_len (tail 60 df))%nat.
  - destruct (scanner_result (column (tail 60 df) "Stock")
                (column (tail 60 df) "Macro") 10) as (_ & _ & H).
    exact H.
  - exists 0. split; [reflexivity | split; lra].
Qed.

(** The finding made from a frame, field by field. *)
Lemma score_frame_fields (c : string) (df : DataFrame) (f : Finding) :
  score_frame c df = Some f ->
  let rdf := loc_from regime_start df in
  let r := compute_max_lag_correlation
             (column rdf "Stock") (column rdf "Macro") 60 in
  f = mkFinding c (stored (snd r)) (stored (recent_score rdf)) (fst r)
        (df_len rdf) /\
  (30 <= df_len rdf)%nat.
Proof.
  unfold score_frame, stored.
  destruct (df_empty df || (df_len df <? 30)%nat); [discriminate|].
  destruct (df_empty _ || (df_len (loc_from regime_start df) <? 30)%nat)
    eqn:E; [discriminate|].
  apply orb_false_iff in E as (_ & E). apply Nat.ltb_ge in E.
  destruct (compute_max_lag_correlation _ _ 60) as (lag0, max_c).
  destruct (fgt _ _ || String.eqb c "PNICKUSDM"); [|discriminate].
  intros [= <-]. auto.
Qed.

(** X13.  In every finding made from a frame, [max_corr] and
    [recent_corr] are the correlations of the scanner over the regime window
    and over its last 60 rows, rounded to four decimals: the NaN fallback
    0.0 and the skip of a short window of 20 rows or fewer never apply. *)
Theorem finding_correlations_are_rounded_scans (c : string)
  (df : DataFrame) (f : Finding) :
  score_frame c df = Some f ->
  let rdf := loc_from regime_start df in
  max_corr f
  = round4 (snd (compute_max_lag_correlation
                   (column rdf "Stock") (column rdf "Macro") 60)) /\
  recent_corr f
  = round4 (snd (compute_max_lag_correlation
                   (column (tail 60 rdf) "Stock")
                   (column (tail 60 rdf) "Macro") 10)).
Proof.
  intros H. apply score_frame_fields in H as (-> & H30). cbn zeta.
  cbn [max_corr recent_corr]. unfold stored.
  rewrite (recent_score_computed _ H30).
  destruct (scanner_result (column (loc_from regime_start df) "Stock")
              (column (loc_from regime_start df) "Macro") 60)
    as (_ & _ & s & -> & _).
  destruct (scanner_result
              (column (tail 60 (loc_from regime_start df)) "Stock")
              (column (tail 60 (loc_from regime_start df)) "Macro") 10)
    as (_ & _ & s' & -> & _).
  split; reflexivity.
Qed.

Lemma finding_correlations_are_rounded_scans_witness :
  exists f,
    score_frame "HG=F" demo_frame = Some f /\
    max_corr f = Fin 1 /\ recent_corr f = Fin 1.
Proof.
  destruct (score_frame "HG=F" demo_frame) as [f|] eqn:E;
    [|vm_compute in E; discriminate].
  exists f. split; [reflexivity|].
  destruct (finding_correlations_are_rounded_scans "HG=F" demo_frame f E)
    as (-> & ->).
  split; vm_compute; reflexivity.
Defined.

Lemma stored_bound (x : float) (s : Q) :
  x = Fin s -> - (1) <= s /\ s <= 1 ->
  exists s', stored x = Fin s' /\ - (1) <= s' /\ s' <= 1.
Proof. intros -> H. unfold stored. cbn [isna negb]. now apply round4_bound. Qed.

Lemma score_frame_bounds (c : string) (df : DataFrame) (f : Finding) :
  score_frame c df = Some f ->
  In (best_lag f) lags /\
  (best_lag f = 0%Z \/ (best_lag f + 2 <= Z.of_nat (sample_size f))%Z) /\
  exists a b,
    max_corr f = Fin a /\ recent_corr f = Fin b /\
    (- (1) <= a /\ a <= 1) /\ (- (1) <= b /\ b <= 1).
Proof.
  intros H. apply score_frame_fields in H as (-> & _). cbn zeta.
  cbn [best_lag sample_size max_corr recent_corr].
  destruct (scanner_result (column (loc_from regime_start df) "Stock")
              (column (loc_from regime_start df) "Macro") 60)
    as (H1 & H2 & s & Hs & Hb).
  rewrite column_length in H2.
  split; [exact H1|]. split; [exact H2|].
  destruct (stored_bound _ s Hs Hb) as (a & Ha & Ba).
  destruct (recent_score_bound (loc_from regime_start df)) as (s' & Hs' & Hb').
  destruct (stored_bound _ s' Hs' Hb') as (b & Hb2 & Bb).
  exists a, b. auto.
Qed.

Lemma insert_desc_perm (x : Finding) (l : list Finding) :
  Permutation (insert_desc x l) (x :: l).
Proof.
  induction l as [|y l IH]; simpl; [reflexivity|].
  destruct (flt (sort_key x) (sort_key y)); [|reflexivity].
  rewrite IH. apply perm_swap.
Qed.

Lemma sort_desc_perm (l : list Finding) : Permutation (sort_desc l) l.
Proof.
  induction l as [|x l IH]; simpl; [reflexivity|].
  rewrite insert_desc_perm. now constructor.
Qed.

Lemma validate_entries (check_causality : string -> string -> bool * string)
  (ticker : string) (skip : bool) (l : list Finding) (x : Checked) :
  In x (validate check_causality ticker skip l) ->
  if skip then
    is_logical x = None /\ logic_reason x = "Pending Verification"%string
  else
    is_logical x = Some true /\
    check_causality ticker (code (finding x)) = (true, logic_reason x).
Proof.
  induction l as [|f l IH]; simpl; [tauto|].
  destruct skip.
  - intros [<- | H]; [simpl; auto | auto].
  - destruct (check_causality ticker (code f)) as ([|], reason) eqn:E;
      [|exact IH].
    intros [<- | H]; [simpl; auto | auto].
Qed.

Section ScanFacts.

Variable G : Type.
Variable standard_normal : G -> Q * G.
Variable fetch_stock_data : string -> Series.
Variable fetch_macro_data : string -> Series.
Variable check_causality : string -> string -> bool * string.
Variable macro_codes : list string.

Let scan' := scan G standard_normal fetch_stock_data fetch_macro_data.
Let analyze' :=
  analyze G standard_normal fetch_stock_data fetch_macro_data check_causality.
Let scanned' := scanned G standard_normal fetch_stock_data fetch_macro_data.

Lemma analyze_code_code (ticker c : string) (g g' : G) (f : Finding) :
  analyze_code G standard_normal fetch_stock_data fetch_macro_data
    ticker c g = (inr (Some f), g') ->
  code f = c.
Proof.
  intros H. apply analyze_code_finding in H as (df & _ & H).
  now apply score_frame_Some in H as (H & _).
Qed.

(** The loop makes at most one finding a candidate, under its code. *)
Lemma scan_codes (ticker : string) (codes : list string) :
  forall (g : G) (acc : list Finding),
    (length (fst (scan' ticker codes g acc))
     <= length acc + length codes)%nat /\
    (NoDup codes -> NoDup (map code acc) ->
     (forall f, In f acc -> ~ In (code f) codes) ->
     NoDup (map code (fst (scan' ticker codes g acc)))).
Proof.
  induction codes as [|c codes IH]; intros g acc; simpl.
  - split; [lia | auto].
  - destruct (analyze_code _ _ _ _ ticker c g) as ([e | [f|]], g1) eqn:E;
      fold scan'; destruct (IH g1 acc) as (L0 & N0);
      destruct (IH g1 (acc ++ [f])) as (L1 & N1) || idtac.
    + split; [lia|]. intros N Na Hd. inversion N; subst.
      apply N0; auto. intros f0 Hf0 I. apply (Hd f0 Hf0). now right.
    + rewrite length_app in L1. simpl in L1. split; [lia|].
      intros N Na Hd. inversion N as [|? ? Hc N']; subst.
      assert (Ec := analyze_code_code ticker c g g1 f E).
      apply N1; auto.
      * rewrite map_app. simpl. apply NoDup_app; auto.
        -- repeat constructor. intros [].
        -- intros x Hx [<- | []]. apply in_map_iff in Hx as (f0 & E0 & Hf0).
           apply (Hd f0 Hf0). left. congruence.
      * intros f0 Hf0 I. apply in_app_or in Hf0 as [Hf0 | [<- | []]].
        -- apply (Hd f0 Hf0). now right.
        -- congruence.
    + split; [lia|]. intros N Na Hd. inversion N; subst.
      apply N0; auto. intros f0 Hf0 I. apply (Hd f0 Hf0). now right.
Qed.

(** X10.  [analyze] returns at most one finding a candidate: no more
    findings than candidates and, when the candidates are distinct, findings
    of distinct codes. *)
Theorem one_finding_per_candidate (ticker : string)
  (skip_validation : bool) (g : G) :
  let out :=
    map finding (fst (analyze' macro_codes ticker skip_validation g)) in
  (length out <= length macro_codes)%nat /\
  (NoDup macro_codes -> NoDup (map code out)).
Proof.
  intro out. subst out. unfold analyze'. rewrite analyze_findings.
  unfold scanned.
  destruct (s_empty (fetch_stock_data ticker)).
  { simpl. split; [lia | constructor]. }
  destruct (scan_codes ticker macro_codes g []) as (L & N).
  fold scan'. split.
  - eapply Nat.le_trans; [apply filter_length_le|].
    rewrite (Permutation_length (sort_desc_perm _)). exact L.
  - intros Nc.
    assert (Ns : NoDup (map code (sort_desc (fst (scan' ticker macro_codes
                                                    g []))))).
    { eapply Permutation_NoDup;
        [apply Permutation_map, Permutation_sym, sort_desc_perm|].
      apply N; [exact Nc | constructor | intros f []]. }
    revert Ns. generalize (sort_desc (fst (scan' ticker macro_codes g []))).
    intros l. induction l as [|x l IH]; simpl; [auto|].
    intros Nx. inversion Nx as [|? ? Hx Nl]; subst.
    destruct (kept check_causality ticker skip_validation x); simpl; auto.
    constructor; auto. intros I. apply Hx.
    apply in_map_iff in I as (y & Ey & Hy). apply filter_In in Hy as (Hy & _).
    apply in_map_iff. eauto.
Qed.

(** X9.  Every finding [analyze] returns bears the code of a candidate of
    the universe, a lag taken from the candidate lags that is 0 or leaves
    at least two rows of its sample, and two correlations that are numbers
    between -1 and 1. *)
Theorem finding_fields_in_range (ticker : string) (skip_validation : bool)
  (g : G) (f : Finding) :
  In f (map finding (fst (analyze' macro_codes ticker skip_validation g))) ->
  In (code f) macro_codes /\
  In (best_lag f) [0; 5; 10; 20; 40; 60]%Z /\
  (best_lag f = 0%Z \/ (best_lag f + 2 <= Z.of_nat (sample_size f))%Z) /\
  exists a b,
    max_corr f = Fin a /\ recent_corr f = Fin b /\
    (- (1) <= a /\ a <= 1) /\ (- (1) <= b /\ b <= 1).
Proof.
  unfold analyze'. rewrite analyze_findings. intros H.
  apply filter_In in H as (H & _). rewrite sort_desc_In in H.
  apply scanned_In in H as (Hc & g0 & g1 & df & _ & Hs).
  split; [exact Hc|]. now apply score_frame_bounds in Hs.
Qed.

(** X11.  With [skip_validation] the findings returned are those of the
    scan, all of them, each marked as pending; without it every finding
    returned was accepted by the validator and carries its reason. *)
Theorem validation_marks (ticker : string) (g : G) :
  (Permutation
     (map finding (fst (analyze' macro_codes ticker true g)))
     (scanned' macro_codes ticker g) /\
   forall x, In x (fst (analyze' macro_codes ticker true g)) ->
             is_logical x = None /\
             logic_reason x = "Pending Verification"%string) /\
  (forall x, In x (fst (analyze' macro_codes ticker false g)) ->
             is_logical x = Some true /\
             check_causality ticker (code (finding x))
             = (true, logic_reason x)).
Proof.
  split; [split|].
  - unfold analyze'. rewrite analyze_findings. fold scanned'.
    generalize (scanned' macro_codes ticker g) as l. intros l.
    replace (filter (kept check_causality ticker true) (sort_desc l))
      with (sort_desc l); [apply sort_desc_perm|].
    generalize (sort_desc l). intros l'. induction l' as [|y l' IH];
      simpl; [reflexivity | now rewrite <- IH].
  - intros x. unfold analyze', analyze.
    destruct (s_empty (fetch_stock_data ticker)); [intros []|].
    destruct (scan _ _ _ _ ticker macro_codes g []) as (fs, g').
    apply (validate_entries check_causality ticker true).
  - intros x. unfold analyze', analyze.
    destruct (s_empty (fetch_stock_data ticker)); [intros []|].
    destruct (scan _ _ _ _ ticker macro_codes g []) as (fs, g').
    apply (validate_entries check_causality ticker false).
Qed.

End ScanFacts.


(** ** Routing of the candidates *)

Section Routing.

Variable G : Type.
Variable standard_normal : G -> Q * G.
Variable fetch_stock_data : string -> Series.
Variable fetch_macro_data : string -> Series.

Let load_frame' :=
  load_frame G standard_normal fetch_stock_data fetch_macro_data.
Let analyze_code' :=
  analyze_code G standard_normal fetch_stock_data fetch_macro_data.
Let scan' := scan G standard_normal fetch_stock_data fetch_macro_data.

(** A Yahoo-routed candidate is loaded from the two price series alone. *)
Lemma load_frame_yahoo (ticker c : string) (g : G) :
  yahoo_routed c = true ->
  load_frame' ticker c g
  = (inr (if s_empty (fetch_stock_data c) then None
          else Some (df_dropna
                       (concat_columns (fetch_stock_data ticker)
                          (fetch_stock_data c) "Stock" "Macro"))), g).
Proof.
  unfold load_frame', load_frame, yahoo_routed. intros ->.
  now destruct (s_empty (fetch_stock_data c)).
Qed.

(** A FRED candidate for which nothing is fetched gives the empty frame,
    without a draw. *)
Lemma load_frame_nothing (ticker c : string) (g : G) :
  yahoo_routed c = false -> fetch_macro_data c = [] ->
  load_frame' ticker c g = (inr (Some empty_frame), g).
Proof.
  unfold load_frame', load_frame, yahoo_routed, fetch_and_align.
  intros -> ->. cbn [s_empty]. now rewrite orb_true_r.
Qed.

Lemma scan_without_fred (ticker : string) (codes : list string) :
  (forall c, In c codes ->
             yahoo_routed c = true \/ fetch_macro_data c = []) ->
  forall (g : G) (acc : list Finding),
    snd (scan' ticker codes g acc) = g /\
    forall f, In f (fst (scan' ticker codes g acc)) ->
              In f acc \/ yahoo_routed (code f) = true.
Proof.
  induction codes as [|c codes IH]; intros Hc g acc; [simpl; auto|].
  assert (Hr : forall c0, In c0 codes ->
                          yahoo_routed c0 = true \/ fetch_macro_data c0 = [])
    by (intros c0 H0; apply Hc; now right).
  cbn [scan' scan]. unfold analyze_code. fold load_frame'.
  destruct (yahoo_routed c) eqn:Y.
  - rewrite (load_frame_yahoo ticker c g Y).
    destruct (s_empty (fetch_stock_data c)).
    + apply (IH Hr).
    + destruct (score_frame c _) as [f|] eqn:S; [|apply (IH Hr)].
      destruct (IH Hr g (acc ++ [f])) as (E & H). split; [exact E|].
      intros f0 H0. apply H in H0 as [H0 | H0]; [|now right].
      apply in_app_or in H0 as [H0 | [<- | []]]; [now left | right].
      apply score_frame_Some in S as (-> & _). exact Y.
  - destruct (Hc c (or_introl eq_refl)) as [Y' | M]; [congruence|].
    rewrite (load_frame_nothing ticker c g Y M). apply (IH Hr).
Qed.

End Routing.

(** The findings of Yahoo-routed candidates do not depend on the FRED
    fetch nor on the random generator. *)
Lemma scan_yahoo_only (G G' : Type) (sn : G -> Q * G) (sn' : G' -> Q * G')
  (fs fm fm' : string -> Series) (ticker : string) (codes : list string) :
  (forall c, In c codes -> yahoo_routed c = true) ->
  forall (g : G) (g' : G') (acc : list Finding),
    fst (scan G sn fs fm ticker codes g acc)
    = fst (scan G' sn' fs fm' ticker codes g' acc).
Proof.
  induction codes as [|c codes IH]; intros Hc g g' acc; [reflexivity|].
  assert (Y : yahoo_routed c = true) by (apply Hc; now left).
  assert (Hr : forall c0, In c0 codes -> yahoo_routed c0 = true)
    by (intros c0 H0; apply Hc; now right).
  cbn [scan]. unfold analyze_code.
  rewrite (load_frame_yahoo G sn fs fm ticker c g Y).
  rewrite (load_frame_yahoo G' sn' fs fm' ticker c g' Y).
  destruct (s_empty (fs c)); [apply (IH Hr)|].
  destruct (score_frame c _); apply (IH Hr).
Qed.

(** X12.  With a universe of Yahoo-routed candidates only, [analyze]
    makes no random draw and its findings are the same whatever the random
    generator and the FRED fetch. *)
Theorem yahoo_universe_is_noise_free
  (G G' : Type) (sn : G -> Q * G) (sn' : G' -> Q * G')
  (fs fm fm' : string -> Series)
  (check_causality : string -> string -> bool * string)
  (macro_codes : list string) (ticker : string) (skip_validation : bool)
  (g : G) (g' : G') :
  (forall c, In c macro_codes -> yahoo_routed c = true) ->
  snd (analyze G sn fs fm check_causality macro_codes ticker
         skip_validation g) = g /\
  fst (analyze G' sn' fs fm' check_causality macro_codes ticker
         skip_validation g')
  = fst (analyze G sn fs fm check_causality macro_codes ticker
           skip_validation g).
Proof.
  intros Hc. unfold analyze. destruct (s_empty (fs ticker)); [auto|].
  assert (E := scan_yahoo_only G G' sn sn' fs fm fm' ticker macro_codes
                 Hc g g' []).
  destruct (scan_without_fred G sn fs fm ticker macro_codes
              (fun c H => or_introl (Hc c H)) g []) as (Eg & _).
  destruct (scan G sn fs fm ticker macro_codes g []) as (l, g1).
  destruct (scan G' sn' fs fm' ticker macro_codes g' []) as (l', g1').
  simpl in *. subst. auto.
Qed.

(** X18.  Without a FRED API key (unset or empty), whatever the client
    would return, [analyze] makes no random draw and every finding it
    returns is a Yahoo-routed candidate. *)
Theorem no_fred_key_only_yahoo
  (G : Type) (sn : G -> Q * G) (fs : string -> Series)
  (Fred : string -> string -> result Series)
  (check_causality : string -> string -> bool * string)
  (key : option string)
  (macro_codes : list string) (ticker : string) (skip_validation : bool)
  (g : G) :
  key = None \/ key = Some EmptyString ->
  let fm := DataLoader_fetch_macro_data (DataLoader_init key Fred) in
  let out := analyze G sn fs fm check_causality macro_codes ticker
               skip_validation g in
  snd out = g /\
  forall x, In x (fst out) -> yahoo_routed (code (finding x)) = true.
Proof.
  intros K fm out.
  assert (Hm : forall c, fm c = []) by (destruct K; subst; reflexivity).
  assert (S := scan_without_fred G sn fs fm ticker macro_codes
                 (fun c _ => or_intror (Hm c)) g []).
  split.
  - subst out. unfold analyze. destruct (s_empty (fs ticker)); [reflexivity|].
    destruct S as (Eg & _).
    now destruct (scan G sn fs fm ticker macro_codes g []).
  - intros x Hx.
    assert (Hf : In (finding x) (map finding (fst out))) by now apply in_map.
    subst out. rewrite analyze_findings in Hf.
    apply filter_In in Hf as (Hf & _). rewrite sort_desc_In in Hf.
    unfold scanned in Hf.
    destruct (s_empty (fs ticker)); [destruct Hf|].
    destruct S as (_ & S). apply S in Hf as [[] | Hf]. exact Hf.
Qed.

Lemma no_fred_key_only_yahoo_witness :
  snd (analyze nat demo_normal demo_fetch_stock
         (DataLoader_fetch_macro_data
            (DataLoader_init None (fun _ c => inr (demo_fetch_macro c))))
         demo_check default_codes "1605.TW" true O) = O /\
  Forall (fun x => yahoo_routed (code (finding x)) = true)
    (fst (analyze nat demo_normal demo_fetch_stock
            (DataLoader_fetch_macro_data
               (DataLoader_init None
                  (fun _ c => inr (demo_fetch_macro c))))
            demo_check default_codes "1605.TW" true O)).
Proof.
  destruct (no_fred_key_only_yahoo nat demo_normal demo_fetch_stock
              (fun _ c => inr (demo_fetch_macro c)) demo_check None
              default_codes "1605.TW" true O (or_introl eq_refl))
    as [H1 H2].
  split; [exact H1 | apply Forall_forall; exact H2].
Defined.

Lemma yahoo_universe_is_noise_free_witness :
  snd (demo_analyze ["HG=F"; "VALE"; "GC=F"]%string true) = O.
Proof.
  refine (proj1 (yahoo_universe_is_noise_free nat nat demo_normal demo_normal
                   demo_fetch_stock demo_fetch_macro demo_fetch_macro
                   demo_check ["HG=F"; "VALE"; "GC=F"]%string "1605.TW" true
                   O O _)).
  intros c [<- | [<- | [<- | []]]]; reflexivity.
Defined.

(** ** The semantic check *)

Lemma filter_all {A : Type} (p : A -> bool) (l : list A) :
  (forall x, In x l -> p x = true) -> filter p l = l.
Proof.
  induction l as [|x l IH]; intros H; simpl; [reflexivity|].
  rewrite (H x (or_introl eq_refl)), IH; [reflexivity|].
  intros y Hy. apply H. now right.
Qed.

Lemma filter_none {A : Type} (p : A -> bool) (l : list A) :
  (forall x, In x l -> p x = false) -> filter p l = [].
Proof.
  induction l as [|x l IH]; intros H; simpl; [reflexivity|].
  rewrite (H x (or_introl eq_refl)). apply IH.
  intros y Hy. apply H. now right.
Qed.

(** X17.  With the validator of the repository: a provider other than
    terminal or manual approves everything, so that [analyze] returns the
    findings it returns with [skip_validation], each marked as logical with
    the reason "Auto-approved (Mock)"; in terminal or manual mode with a
    closed input stream every finding is rejected and [analyze] returns the
    empty list. *)
Theorem analyze_with_validator
  (G : Type) (sn : G -> Q * G) (fs fm : string -> Series)
  (strip : string -> string) (provider : string)
  (user_input : option string)
  (macro_codes : list string) (ticker : string) (g : G) :
  let check :=
    SemanticValidator_check_causality strip provider user_input in
  let interactive :=
    String.eqb provider "terminal" || String.eqb provider "manual" in
  (interactive = false ->
   map finding (fst (analyze G sn fs fm check macro_codes ticker false g))
   = map finding (fst (analyze G sn fs fm check macro_codes ticker true g))
   /\ forall x,
       In x (fst (analyze G sn fs fm check macro_codes ticker false g)) ->
       is_logical x = Some true /\
       logic_reason x = "Auto-approved (Mock)"%string) /\
  (interactive = true -> user_input = None ->
   fst (analyze G sn fs fm check macro_codes ticker false g) = []).
Proof.
  intros check interactive. split.
  - intros I. split.
    + rewrite !analyze_findings. rewrite !filter_all; [reflexivity | |].
      * intros x _. reflexivity.
      * intros x _. unfold kept, check, SemanticValidator_check_causality.
        fold interactive. now rewrite I.
    + intros x Hx. unfold analyze in Hx.
      destruct (s_empty (fs ticker)); [destruct Hx|].
      destruct (scan G sn fs fm ticker macro_codes g []) as (l, g').
      apply (validate_entries check ticker false) in Hx as (V1 & V2).
      split; [exact V1|].
      unfold check, SemanticValidator_check_causality in V2.
      fold interactive in V2. rewrite I in V2. congruence.
  - intros I ->.
    assert (E : map finding
                  (fst (analyze G sn fs fm check macro_codes ticker false g))
                = []).
    { rewrite analyze_findings. apply filter_none. intros x _.
      unfold kept, check, SemanticValidator_check_causality.
      fold interactive. now rewrite I. }
    now destruct (fst (analyze G sn fs fm check macro_codes ticker false g)).
Qed.


(** ** The aligned frame *)

Lemma insert_row_last (x : Z * list (option Q))
  (acc : list (Z * list (option Q))) :
  (forall y, In y acc -> (fst y <= fst x)%Z) -> insert_row x acc = acc ++ [x].
Proof.
  induction acc as [|y acc IH]; intros H; simpl; [reflexivity|].
  destruct (Z.leb_spec (fst y) (fst x)) as [_ | L].
  - rewrite IH; [reflexivity|]. intros z Hz. apply H. now right.
  - specialize (H y (or_introl eq_refl)). lia.
Qed.

Lemma sort_rows_sorted (rs acc : list (Z * list (option Q))) :
  StronglySorted Z.lt (map fst rs) ->
  (forall y x, In y acc -> In x rs -> (fst y <= fst x)%Z) ->
  fold_left (fun a x => insert_row x a) rs acc = acc ++ rs.
Proof.
  revert acc. induction rs as [|x rs IH]; intros acc S H; simpl.
  - now rewrite app_nil_r.
  - inversion S as [|? ? S' F]; subst.
    rewrite insert_row_last by (intros y Hy; apply H; [exact Hy | now left]).
    rewrite IH; [now rewrite <- app_assoc | exact S' |].
    intros y z Hy Hz. apply in_app_or in Hy as [Hy | [<- | []]].
    + apply H; [exact Hy | now right].
    + rewrite Forall_forall in F.
      assert (fst x < fst z)%Z by (apply F; now apply in_map). lia.
Qed.

Lemma sort_index_sorted (df : DataFrame) :
  StronglySorted Z.lt (df_index df) -> sort_index df = df.
Proof.
  intros S. unfold sort_index. rewrite sort_rows_sorted; auto.
  - now destruct df.
  - intros y x [].
Qed.

Lemma column_macro (l : list (Z * option Q * option Q)) :
  column (mkDF ["Stock"; "Macro"]%string (rows2 l)) "Macro"
  = map (fun r => (fst (fst r), snd r)) l.
Proof. unfold column, rows2. simpl. now rewrite map_map. Qed.

Lemma set_macro (l : list (Z * option Q * option Q))
  (vs : list (option Q)) :
  length vs = length l ->
  set_column (mkDF ["Stock"; "Macro"]%string (rows2 l)) "Macro" vs
  = mkDF ["Stock"; "Macro"]%string (rows2 (with_macro l vs)).
Proof.
  intros L. unfold set_column, with_macro, rows2. simpl. f_equal.
  revert vs L. induction l as [|((t, x), y) l IH]; intros [|v vs] L;
    try discriminate; [reflexivity|].
  simpl. f_equal. apply IH. now injection L.
Qed.

Lemma with_macro_length (l : list (Z * option Q * option Q))
  (vs : list (option Q)) :
  length vs = length l -> length (with_macro l vs) = length l.
Proof.
  intros L. unfold with_macro. rewrite length_map, length_combine. lia.
Qed.

Lemma with_macro_days (l : list (Z * option Q * option Q))
  (vs : list (option Q)) :
  length vs = length l -> map fst (with_macro l vs) = map fst l.
Proof.
  unfold with_macro. revert vs.
  induction l as [|r l IH]; intros [|v vs] L; try discriminate;
    [reflexivity|]. simpl. f_equal. apply IH. now injection L.
Qed.

Lemma with_macro_values (l : list (Z * option Q * option Q))
  (vs : list (option Q)) :
  length vs = length l -> map snd (with_macro l vs) = vs.
Proof.
  unfold with_macro. revert vs.
  induction l as [|r l IH]; intros [|v vs] L; try discriminate;
    [reflexivity|]. simpl. f_equal. apply IH. now injection L.
Qed.

Lemma values_macro (l : list (Z * option Q * option Q)) :
  values (map (fun r => (fst (fst r), snd r)) l) = map snd l.
Proof. unfold values. now rewrite map_map. Qed.

Lemma interpolate_from_length (s : Series) (prev : option (Z * Q)) :
  length (interpolate_from prev s) = length s.
Proof.
  revert prev. induction s as [|(t, [v|]) s IH]; intros prev; simpl;
    [reflexivity | |]; now rewrite IH.
Qed.

Lemma interpolate_from_keeps (s : Series) (prev : option (Z * Q)) (v : Q) :
  In (Some v) (values s) -> In (Some v) (values (interpolate_from prev s)).
Proof.
  revert prev. induction s as [|(t, [w|]) s IH]; intros prev; simpl; [tauto| |].
  - intros [H | H]; [now left | right; now apply IH].
  - intros [H | H]; [discriminate | right; now apply IH].
Qed.

Lemma ffill_from_length (vs : list (option Q)) (prev : option Q) :
  length (ffill_from prev vs) = length vs.
Proof.
  revert prev. induction vs as [|[v|] vs IH]; intros prev; simpl;
    [reflexivity | |]; now rewrite IH.
Qed.

Lemma ffill_from_some (vs : list (option Q)) (p : Q) :
  Forall (fun v => notnull v = true) (ffill_from (Some p) vs).
Proof.
  revert p. induction vs as [|[v|] vs IH]; intros p; simpl; constructor;
    auto.
Qed.

Lemma last_cons {A : Type} (a d : A) (l : list A) :
  l <> [] -> last (a :: l) d = last l d.
Proof. destruct l; [congruence | reflexivity]. Qed.

Lemma ffill_from_nonempty (vs : list (option Q)) (prev : option Q) :
  vs <> [] -> ffill_from prev vs <> [].
Proof. destruct vs as [|[v|] vs]; simpl; congruence. Qed.

(** After a forward fill the last value is known as soon as one is. *)
Lemma ffill_from_last (vs : list (option Q)) (prev : option Q) :
  vs <> [] ->
  notnull prev = true \/ (exists v, In (Some v) vs) ->
  notnull (last (ffill_from prev vs) None) = true.
Proof.
  revert prev. induction vs as [|x vs IH]; intros prev Hne H; [congruence|].
  destruct vs as [|y vs].
  - destruct x as [v|]; simpl; [reflexivity|].
    destruct H as [H | (v & [H | []])]; [exact H | discriminate].
  - assert (N : y :: vs <> []) by discriminate.
    destruct x as [v|].
    + change (ffill_from prev (Some v :: y :: vs))
        with (Some v :: ffill_from (Some v) (y :: vs)).
      rewrite last_cons by now apply ffill_from_nonempty.
      apply IH; [exact N | now left].
    + change (ffill_from prev (None :: y :: vs))
        with (prev :: ffill_from prev (y :: vs)).
      rewrite last_cons by now apply ffill_from_nonempty.
      apply IH; [exact N|].
      destruct H as [H | (v & [H | H])]; [now left | discriminate | eauto].
Qed.

(** Forward then backward fill leaves no missing value as soon as one
    value is known. *)
Lemma fill_complete (vs : list (option Q)) :
  (exists v, In (Some v) vs) ->
  Forall (fun v => notnull v = true)
    (rev (ffill_from None (rev (ffill_from None vs)))).
Proof.
  intros H.
  assert (Hne : vs <> []) by (destruct H as (v & H); now destruct vs).
  assert (L := ffill_from_last vs None Hne (or_intror H)).
  assert (Fne : ffill_from None vs <> []).
  { intro E. apply (f_equal (@length _)) in E.
    rewrite ffill_from_length in E. now destruct vs. }
  destruct (exists_last Fne) as (front & x & E). rewrite E in *.
  rewrite last_last in L. rewrite rev_unit.
  destruct x as [p|]; [|discriminate].
  change (ffill_from None (Some p :: rev front))
    with (Some p :: ffill_from (Some p) (rev front)).
  apply Forall_rev. constructor; [reflexivity | apply ffill_from_some].
Qed.

Lemma index_combine (a : list Z) (b : list (option Q)) :
  length a = length b -> index (combine a b) = a.
Proof.
  unfold index. revert b. induction a as [|x a IH]; intros [|y b] L;
    try discriminate; [reflexivity|]. simpl. f_equal. apply IH.
  now injection L.
Qed.

Lemma values_combine (a : list Z) (b : list (option Q)) :
  length a = length b -> values (combine a b) = b.
Proof.
  unfold values. revert b. induction a as [|x a IH]; intros [|y b] L;
    try discriminate; [reflexivity|]. simpl. f_equal. apply IH.
  now injection L.
Qed.

Lemma index_values_length (s : Series) :
  length (index s) = length (values s).
Proof. unfold index, values. now rewrite !length_map. Qed.

Lemma interpolate_from_none (s : Series) :
  Forall (fun v => v = None) (values s) ->
  values (interpolate_from None s) = values s.
Proof.
  unfold values. induction s as [|[t [v|]] s IH]; intros H;
    [reflexivity | inversion H; discriminate |].
  simpl. f_equal. apply IH. now inversion H.
Qed.

Lemma ffill_from_none (vs : list (option Q)) :
  Forall (fun v => v = None) vs -> ffill_from None vs = vs.
Proof.
  induction vs as [|[v|] vs IH]; intros H;
    [reflexivity | inversion H; discriminate |].
  simpl. f_equal. apply IH. now inversion H.
Qed.

(** The values of a series after the forward and the backward fill. *)
Lemma fill_values (s : Series) :
  values (bfill (ffill s))
  = rev (ffill_from None (rev (ffill_from None (values s)))).
Proof.
  assert (L1 : length (index s) = length (ffill_from None (values s)))
    by (rewrite ffill_from_length; apply index_values_length).
  unfold bfill. unfold ffill at 2. rewrite (values_combine _ _ L1).
  unfold ffill. rewrite (index_combine _ _ L1).
  apply values_combine.
  rewrite length_rev, ffill_from_length, length_rev. exact L1.
Qed.

(** The frame before the noise: a row a day of either series, the target
    as it was fetched, and a driver without a missing value as soon as it
    has one value. *)
Lemma prepared_frame_rows (stock macro : Series) :
  exists l,
    prepared_frame stock macro = mkDF ["Stock"; "Macro"]%string (rows2 l) /\
    map fst l
    = map (fun t => (t, cell t stock))
        (union_index (index stock) (index macro)) /\
    ((exists t v, cell t macro = Some v) ->
     Forall (fun v => notnull v = true) (map snd l)) /\
    ((forall t, cell t macro = None) ->
     Forall (fun v => v = None) (map snd l)).
Proof.
  set (U := union_index (index stock) (index macro)).
  set (l0 := map (fun t => (t, cell t stock, cell t macro)) U).
  assert (E0 : concat_columns stock macro "Stock" "Macro"
               = mkDF ["Stock"; "Macro"]%string (rows2 l0)).
  { unfold concat_columns, rows2, l0. fold U. now rewrite map_map. }
  assert (I0 : df_index (mkDF ["Stock"; "Macro"]%string (rows2 l0)) = U).
  { unfold df_index, rows2, l0. simpl. rewrite !map_map. simpl.
    apply map_id. }
  unfold prepared_frame. rewrite E0.
  rewrite sort_index_sorted by (rewrite I0; apply union_index_sorted).
  rewrite column_macro.
  set (M1 := values (interpolate_time
                       (map (fun r => (fst (fst r), snd r)) l0))).
  assert (L1 : length M1 = length l0).
  { unfold M1, values, interpolate_time.
    now rewrite length_map, interpolate_from_length, length_map. }
  rewrite (set_macro l0 M1 L1), column_macro.
  set (l1 := with_macro l0 M1).
  set (M2 := values (bfill (ffill (map (fun r => (fst (fst r), snd r)) l1)))).
  assert (E2 : M2 = rev (ffill_from None (rev (ffill_from None M1)))).
  { unfold M2. rewrite fill_values, values_macro. unfold l1.
    now rewrite with_macro_values. }
  assert (L2 : length M2 = length l1).
  { rewrite E2, length_rev, ffill_from_length, length_rev,
      ffill_from_length. unfold l1. now rewrite with_macro_length. }
  rewrite (set_macro l1 M2 L2).
  exists (with_macro l1 M2). split; [reflexivity|]. split; [|split].
  - rewrite with_macro_days by exact L2. unfold l1.
    rewrite with_macro_days by exact L1. unfold l0. now rewrite map_map.
  - intros (t & v & Hv). rewrite with_macro_values by exact L2.
    rewrite E2. apply fill_complete. exists v.
    unfold M1, interpolate_time. apply interpolate_from_keeps.
    rewrite values_macro. unfold l0. rewrite map_map. simpl.
    apply in_map_iff. exists t. split; [exact Hv|].
    apply union_index_In. right.
    destruct (cell_In t macro) as [N | I]; [congruence|].
    eapply In_index; eauto.
  - intros Hn. rewrite with_macro_values by exact L2.
    assert (H1 : Forall (fun v : option Q => v = None) M1).
    { unfold M1, interpolate_time. rewrite interpolate_from_none;
        rewrite values_macro; unfold l0; rewrite map_map; simpl;
        apply Forall_forall; intros v Hv; apply in_map_iff in Hv;
        destruct Hv as (t & <- & _); apply Hn. }
    rewrite E2, (ffill_from_none M1 H1).
    rewrite ffill_from_none by (now apply Forall_rev).
    now rewrite rev_involutive.
Qed.

(** ** The aligner *)

Lemma add_noise_length (vs noise : list (option Q)) :
  length noise = length vs -> length (add_noise vs noise) = length vs.
Proof.
  revert noise. induction vs as [|v vs IH]; intros [|z noise] L;
    try discriminate; [reflexivity|]. simpl. f_equal. apply IH.
  now injection L.
Qed.

Lemma add_noise_notnull (vs noise : list (option Q)) :
  Forall (fun v => notnull v = true) vs ->
  Forall (fun v => notnull v = true) noise ->
  Forall (fun v => notnull v = true) (add_noise vs noise).
Proof.
  intros H. revert noise. induction H as [|v vs Hv _ IH];
    intros noise Hn; [constructor|].
  destruct Hn as [|z noise Hz Hn]; [constructor|]. simpl. constructor.
  - destruct v, z; try discriminate. reflexivity.
  - now apply IH.
Qed.

Lemma add_noise_none (vs noise : list (option Q)) :
  Forall (fun v => v = None) vs ->
  Forall (fun v => v = None) (add_noise vs noise).
Proof.
  intros H. revert noise. induction H as [|v vs Hv _ IH];
    intros noise; [constructor|].
  destruct noise as [|z noise]; [constructor|]. simpl. constructor.
  - now rewrite Hv.
  - apply IH.
Qed.

Lemma dropna_rows2 (l : list (Z * option Q * option Q)) :
  df_dropna (mkDF ["Stock"; "Macro"]%string (rows2 l))
  = mkDF ["Stock"; "Macro"]%string (rows2 (filter complete_row l)).
Proof.
  unfold df_dropna, rows2. simpl. f_equal.
  induction l as [|r l IH]; [reflexivity|]. simpl.
  unfold complete_row at 1. rewrite andb_true_r.
  destruct (notnull (snd (fst r)) && notnull (snd r)); simpl;
    now rewrite IH.
Qed.

Lemma sorted_filter_map {A : Type} (f : A -> Z) (p : A -> bool)
  (l : list A) :
  StronglySorted Z.lt (map f l) ->
  StronglySorted Z.lt (map f (filter p l)).
Proof.
  induction l as [|x l IH]; intros S; [constructor|].
  simpl in S. apply StronglySorted_inv in S as [S F]. simpl.
  destruct (p x); [|now apply IH]. simpl. constructor; [now apply IH|].
  rewrite Forall_forall in *. intros y Hy. apply F.
  apply in_map_iff in Hy as (z & <- & Hz). apply in_map.
  now apply filter_In in Hz.
Qed.

(** The days kept by [dropna] once the driver has no missing value. *)
Lemma complete_days (stock : Series) (U : list Z)
  (l : list (Z * option Q * option Q)) :
  map fst l = map (fun t => (t, cell t stock)) U ->
  Forall (fun v => notnull v = true) (map snd l) ->
  map (fun r => fst (fst r)) (filter complete_row l)
  = filter (fun t => notnull (cell t stock)) U.
Proof.
  revert U. induction l as [|[[t a] b] l IH]; intros [|u U] E F;
    try discriminate; [reflexivity|].
  simpl in E. injection E as -> -> E. simpl in F.
  apply Forall_cons_iff in F as [Fb F]. simpl.
  unfold complete_row at 1. simpl. rewrite Fb, andb_true_r.
  destruct (notnull (cell u stock)); simpl; now rewrite (IH U E F).
Qed.

Lemma none_days (l : list (Z * option Q * option Q)) :
  Forall (fun v => v = None) (map snd l) -> filter complete_row l = [].
Proof.
  induction l as [|r l IH]; intros F; [reflexivity|]. simpl in F.
  apply Forall_cons_iff in F as [Fb F]. simpl. unfold complete_row at 1.
  rewrite Fb, andb_false_r. now apply IH.
Qed.

Lemma present_notnull (vs : list (option Q)) :
  vs <> [] -> Forall (fun v => notnull v = true) vs -> present vs <> [].
Proof.
  destruct vs as [|[v|] vs]; intros N F; [congruence | discriminate |].
  inversion F; discriminate.
Qed.

Lemma noise_scale (m : Q) : Qred (m * noise_level) < 0 <-> m < 0.
Proof. rewrite Qred_correct. unfold noise_level. split; intro H; lra. Qed.

Section Aligner.

Variable G : Type.
Variable standard_normal : G -> Q * G.
Variable fetch_stock_data : string -> Series.
Variable fetch_macro_data : string -> Series.

Lemma normals_length (n : nat) (g : G) :
  length (fst (normals G standard_normal n g)) = n.
Proof.
  revert g. induction n as [|n IH]; intros g; simpl; [reflexivity|].
  destruct (standard_normal g) as [z g1]. specialize (IH g1).
  destruct (normals G standard_normal n g1) as [zs g2]. simpl in *.
  now rewrite IH.
Qed.

Lemma random_normal_raises (scale : option Q) (n : nat) (g g' : G)
  (e : exn) :
  random_normal G standard_normal scale n g = (inl e, g') <->
  (exists s, scale = Some s /\ s < 0) /\ e = ValueError /\ g' = g.
Proof.
  unfold random_normal. split.
  - destruct scale as [s|].
    + destruct (Qltb s 0) eqn:L.
      * intros [= <- <-]. apply Qltb_lt in L. eauto.
      * destruct (normals G standard_normal n g). discriminate.
    + destruct (normals G standard_normal n g). discriminate.
  - intros ((s & -> & L) & -> & ->). apply Qltb_lt in L. now rewrite L.
Qed.

Lemma random_normal_returns (scale : option Q) (n : nat) (g g' : G)
  (noise : list (option Q)) :
  random_normal G standard_normal scale n g = (inr noise, g') ->
  length noise = n /\
  g' = snd (normals G standard_normal n g) /\
  (scale <> None -> Forall (fun v => notnull v = true) noise).
Proof.
  unfold random_normal. pose proof (normals_length n g) as L.
  destruct scale as [s|].
  - destruct (Qltb s 0); [discriminate|].
    destruct (normals G standard_normal n g) as [zs g1]. simpl in L.
    intros [= <- <-]. rewrite length_map. repeat split; auto.
    intros _. apply Forall_forall. intros v Hv.
    apply in_map_iff in Hv as (z & <- & _). reflexivity.
  - destruct (normals G standard_normal n g) as [zs g1]. simpl in L.
    intros [= <- <-]. rewrite length_map. repeat split; auto.
    intros N. now elim N.
Qed.

Lemma fetch_and_align_body (ticker c : string) (g : G) :
  s_empty (fetch_stock_data ticker) = false ->
  s_empty (fetch_macro_data c) = false ->
  fetch_and_align G standard_normal fetch_stock_data fetch_macro_data
    ticker c g
  = let df := prepared_frame (fetch_stock_data ticker)
                (fetch_macro_data c) in
    match
      random_normal G standard_normal
        (option_map (fun m => Qred (m * noise_level))
           (s_mean (column df "Macro"))) (df_len df) g
    with
    | (inl e, g') => (inl e, g')
    | (inr noise, g') =>
        (inr (df_dropna
                (set_column df "Macro"
                   (add_noise (values (column df "Macro")) noise))), g')
    end.
Proof.
  intros Hs Hm. unfold fetch_and_align. rewrite Hs, Hm. reflexivity.
Qed.

(** The frame [fetch_and_align] returns for two series that are not
    empty, in terms of the days of the two series. *)
Lemma fetch_and_align_shape (ticker c : string) (g g' : G)
  (df : DataFrame) :
  s_empty (fetch_stock_data ticker) = false ->
  s_empty (fetch_macro_data c) = false ->
  fetch_and_align G standard_normal fetch_stock_data fetch_macro_data
    ticker c g = (inr df, g') ->
  let stock := fetch_stock_data ticker in
  let macro := fetch_macro_data c in
  let U := union_index (index stock) (index macro) in
  exists l,
    df = mkDF ["Stock"; "Macro"]%string (rows2 (filter complete_row l)) /\
    map fst l = map (fun t => (t, cell t stock)) U /\
    g' = snd (normals G standard_normal (length U) g) /\
    ((exists t v, cell t macro = Some v) ->
     Forall (fun v => notnull v = true) (map snd l)) /\
    ((forall t, cell t macro = None) ->
     Forall (fun v => v = None) (map snd l)).
Proof.
  intros Hs Hm H stock macro U.
  rewrite (fetch_and_align_body ticker c g Hs Hm) in H.
  fold stock macro in H.
  destruct (prepared_frame_rows stock macro) as (l & EP & Hd & Hf & Hn).
  fold U in Hd. cbv zeta in H. rewrite EP in H.
  rewrite column_macro, values_macro in H.
  assert (LU : length l = length U).
  { rewrite <- (length_map fst l), Hd. apply length_map. }
  assert (Ll : df_len (mkDF ["Stock"; "Macro"]%string (rows2 l)) = length l).
  { unfold df_len, rows2. simpl. apply length_map. }
  rewrite Ll in H.
  destruct (random_normal G standard_normal _ (length l) g)
    as [[e|noise] g1] eqn:R; [discriminate|].
  injection H as <- <-.
  apply random_normal_returns in R as (Ln & Eg & Hsome).
  assert (LN : length (add_noise (map snd l) noise) = length l).
  { rewrite add_noise_length; rewrite length_map; auto. }
  rewrite (set_macro l _ LN), dropna_rows2.
  exists (with_macro l (add_noise (map snd l) noise)).
  split; [reflexivity|]. rewrite with_macro_days by exact LN.
  rewrite with_macro_values by exact LN. split; [exact Hd|].
  split; [now rewrite <- LU|]. split.
  - intros Hv. specialize (Hf Hv). apply add_noise_notnull; [exact Hf|].
    apply Hsome. unfold s_mean. rewrite values_macro.
    assert (Hne : map snd l <> []).
    { destruct l; [|discriminate]. simpl in LU.
      destruct Hv as (t & v & Hv).
      assert (I : In t U).
      { apply union_index_In. right.
        destruct (cell_In t macro) as [N | I]; [congruence|].
        eapply In_index; eauto. }
      destruct U; [destruct I | discriminate]. }
    pose proof (present_notnull _ Hne Hf) as P.
    destruct (present (map snd l)); [congruence | discriminate].
  - intros Hv. apply add_noise_none. now apply Hn.
Qed.

(** X14.  A driver whose filled column has a negative mean cannot be
    aligned: the scale of the noise, 0.1 % of that mean, is negative, and
    [np.random.normal] raises [ValueError] before it draws anything.  A
    candidate fetched from FRED then fails in the body of the [try] of
    [analyze]. *)
Theorem negative_mean_driver_raises (ticker c : string) (g : G) (m : Q) :
  s_empty (fetch_stock_data ticker) = false ->
  s_empty (fetch_macro_data c) = false ->
  s_mean (column (prepared_frame (fetch_stock_data ticker)
                    (fetch_macro_data c)) "Macro") = Some m ->
  m < 0 ->
  fetch_and_align G standard_normal fetch_stock_data fetch_macro_data
    ticker c g = (inl ValueError, g) /\
  (yahoo_routed c = false ->
   analyze_code G standard_normal fetch_stock_data fetch_macro_data
     ticker c g = (inl ValueError, g)).
Proof.
  intros Hs Hm Hmean Hneg.
  assert (E : fetch_and_align G standard_normal fetch_stock_data
                fetch_macro_data ticker c g = (inl ValueError, g)).
  { rewrite (fetch_and_align_body ticker c g Hs Hm). cbv zeta.
    rewrite Hmean.
    destruct (random_normal_raises
                (option_map (fun m => Qred (m * noise_level)) (Some m))
                (df_len (prepared_frame (fetch_stock_data ticker)
                           (fetch_macro_data c))) g g ValueError)
      as [_ R].
    rewrite R; [reflexivity|]. split; [|now split].
    exists (Qred (m * noise_level)). split; [reflexivity|].
    now apply noise_scale. }
  split; [exact E|]. intros Hy. unfold analyze_code, load_frame.
  unfold yahoo_routed in Hy. rewrite Hy, E. reflexivity.
Qed.

(** X15.  The frame [fetch_and_align] returns for a target and a driver
    that both have observations: the columns are Stock and Macro, the
    days increase strictly, every row has its two values, the Stock value
    is the one fetched for that day, and the generator has made one draw
    for each day of either series. *)
Theorem aligned_frame_rows (ticker c : string) (g g' : G)
  (df : DataFrame) :
  s_empty (fetch_stock_data ticker) = false ->
  s_empty (fetch_macro_data c) = false ->
  fetch_and_align G standard_normal fetch_stock_data fetch_macro_data
    ticker c g = (inr df, g') ->
  columns df = ["Stock"; "Macro"]%string /\
  StronglySorted Z.lt (df_index df) /\
  (forall t vs, In (t, vs) (rows df) ->
     exists x y,
       vs = [Some x; Some y] /\ cell t (fetch_stock_data ticker) = Some x) /\
  g' = snd (normals G standard_normal
              (length (union_index (index (fetch_stock_data ticker))
                         (index (fetch_macro_data c)))) g).
Proof.
  intros Hs Hm H.
  destruct (fetch_and_align_shape ticker c g g' df Hs Hm H)
    as (l & -> & Hd & Hg & _).
  split; [reflexivity|]. split; [|split; [|exact Hg]].
  - unfold df_index, rows2. simpl. rewrite map_map. simpl.
    apply sorted_filter_map.
    replace (map (fun r => fst (fst r)) l) with (map fst (map fst l))
      by now rewrite map_map.
    rewrite Hd, map_map. simpl. rewrite map_id.
    apply union_index_sorted.
  - intros t vs Hin. unfold rows2 in Hin. simpl in Hin.
    apply in_map_iff in Hin as ([[u a] b] & [= <- <-] & Hr).
    apply filter_In in Hr as [Hr Hc]. unfold complete_row in Hc.
    simpl in *. apply andb_true_iff in Hc as [Ha Hb].
    destruct a as [x|]; [|discriminate]. destruct b as [y|]; [|discriminate].
    exists x, y. split; [reflexivity|].
    assert (I : In (u, Some x) (map fst l)).
    { change (u, Some x) with (fst (u, Some x, Some y)). now apply in_map. }
    rewrite Hd in I. apply in_map_iff in I as (t & [= -> E] & _).
    exact E.
Qed.

(** X16.  Which days the aligned frame keeps.  As soon as the driver has
    one observation, its column is filled on every day, so the frame has
    exactly the days, of either series, on which the target has a value:
    no day of the target is lost, and the days on which only the driver
    was published are dropped.  A driver without any value leaves no row
    at all. *)
Theorem aligned_frame_days (ticker c : string) (g g' : G)
  (df : DataFrame) :
  fetch_and_align G standard_normal fetch_stock_data fetch_macro_data
    ticker c g = (inr df, g') ->
  ((exists t v, cell t (fetch_macro_data c) = Some v) ->
   df_index df
   = filter (fun t => notnull (cell t (fetch_stock_data ticker)))
       (union_index (index (fetch_stock_data ticker))
          (index (fetch_macro_data c)))) /\
  ((forall t, cell t (fetch_macro_data c) = None) -> rows df = []).
Proof.
  intros H.
  destruct (s_empty (fetch_stock_data ticker)) eqn:Hs.
  { unfold fetch_and_align in H. rewrite Hs in H. injection H as <- _.
    destruct (fetch_stock_data ticker); [|discriminate].
    split; [|reflexivity]. intros _. rewrite filter_none; [reflexivity|].
    reflexivity. }
  destruct (s_empty (fetch_macro_data c)) eqn:Hm.
  { unfold fetch_and_align in H. rewrite Hs, Hm in H. injection H as <- _.
    destruct (fetch_macro_data c); [|discriminate].
    split; [|reflexivity]. intros (t & v & E). discriminate. }
  destruct (fetch_and_align_shape ticker c g g' df Hs Hm H)
    as (l & -> & Hd & _ & Hf & Hn).
  split.
  - intros Hv. unfold df_index, rows2. simpl. rewrite map_map. simpl.
    apply complete_days; auto.
  - intros Hv. simpl. now rewrite (none_days l (Hn Hv)).
Qed.

End Aligner.

Lemma negative_mean_driver_raises_witness :
  fetch_and_align nat demo_normal demo_fetch_stock demo_fetch_macro
    "1605.TW" "T10Y2Y" 7%nat = (inl ValueError, 7%nat) /\
  analyze_code nat demo_normal demo_fetch_stock demo_fetch_macro
    "1605.TW" "T10Y2Y" 7%nat = (inl ValueError, 7%nat).
Proof.
  assert (Hmean : s_mean (column (prepared_frame (demo_fetch_stock "1605.TW")
                                    (demo_fetch_macro "T10Y2Y")) "Macro")
                  = Some (- (1) # 30)) by (vm_compute; reflexivity).
  destruct (negative_mean_driver_raises nat demo_normal demo_fetch_stock
              demo_fetch_macro "1605.TW" "T10Y2Y" 7%nat (- (1) # 30)
              eq_refl eq_refl Hmean) as [H1 H2]; [reflexivity|].
  split; [exact H1 | exact (H2 eq_refl)].
Defined.

Lemma aligned_frame_rows_witness :
  exists df,
    fetch_and_align nat demo_normal demo_fetch_stock demo_fetch_macro
      "1605.TW" "DGS10" 7%nat = (inr df, 37%nat) /\
    columns df = ["Stock"; "Macro"]%string /\
    StronglySorted Z.lt (df_index df).
Proof.
  destruct (fetch_and_align nat demo_normal demo_fetch_stock
              demo_fetch_macro "1605.TW" "DGS10" 7%nat)
    as [[e|df] g'] eqn:E; [vm_compute in E; discriminate|].
  assert (Eg : g' = 37%nat)
    by (apply (f_equal snd) in E; vm_compute in E; congruence).
  exists df. split; [now rewrite Eg|].
  destruct (aligned_frame_rows nat demo_normal demo_fetch_stock
              demo_fetch_macro "1605.TW" "DGS10" 7%nat g' df
              eq_refl eq_refl E) as (H1 & H2 & _).
  split; assumption.
Defined.

Lemma aligned_frame_days_witness :
  exists df g',
    fetch_and_align nat demo_normal demo_fetch_stock demo_fetch_macro
      "1605.TW" "DGS10" 7%nat = (inr df, g') /\
    df_index df = index demo_stock.
Proof.
  destruct (fetch_and_align nat demo_normal demo_fetch_stock
              demo_fetch_macro "1605.TW" "DGS10" 7%nat)
    as [[e|df] g'] eqn:E; [vm_compute in E; discriminate|].
  exists df, g'. split; [reflexivity|].
  destruct (aligned_frame_days nat demo_normal demo_fetch_stock
              demo_fetch_macro "1605.TW" "DGS10" 7%nat g' df E)
    as [H _].
  rewrite H; [vm_compute; reflexivity|].
  exists regime_start, 0. vm_compute. reflexivity.
Defined.

(** ** The properties at the demo inputs *)

Lemma fair_value_days_witness :
  exists metrics tbl,
    demo_train lagged_model 0 = inr (Some (metrics, tbl)) /\
    (forall t, In t (df_index tbl) ->
               (0 <= t)%Z /\
               forall c d, In (c, d) (drivers lagged_model) ->
                           has_value t (shifted d)
                           /\ In t (index (series d))).
Proof.
  destruct (demo_train lagged_model 0) as [e | [(metrics, tbl)|]] eqn:E;
    try (vm_compute in E; discriminate).
  exists metrics, tbl. split; [reflexivity|].
  exact (proj1 (fair_value_days (list Q) demo_fit demo_predict
                  (fun m => m) (fun _ => 0) (fun _ _ => 1)
                  lagged_model 0 metrics tbl E)).
Defined.

Lemma train_reserved_code_witness :
  demo_train (load_data (ramp 0 6 1 10)
                [("Y"%string, mkDriver (ramp 0 6 2 3) 2%Z)]) 0
  = inl ValueError.
Proof.
  apply (train_reserved_code (list Q) demo_fit demo_predict
           (fun m => m) (fun _ => 0) (fun _ _ => 1)).
  vm_compute. now left.
Defined.

(** With a regression that raises [KeyError], [train] raises it. *)
Lemma train_raises_only_from_fit_witness :
  well_dated lagged_model /\
  train (list Q) (fun _ _ => inl KeyError) demo_predict
    (fun m => m) (fun _ => 0) (fun _ _ => 1) lagged_model 0
  = inl KeyError /\
  exists df,
    fst (fst (match join_drivers (drivers lagged_model)
                      (to_frame (stock_series lagged_model) "Y") [] 0%Z
              with
              | inr j => j
              | inl _ => (empty_frame, [], 0%Z)
              end)) = df /\
    StronglySorted Z.lt (df_index df).
Proof.
  assert (W : well_dated lagged_model).
  { split; [vm_compute; repeat constructor|].
    intros c d [[= <- <-] | []]. vm_compute. repeat constructor. }
  assert (N : NoDup ("Y"%string :: map fst (drivers lagged_model)))
    by (vm_compute; repeat constructor; simpl; intuition discriminate).
  assert (E : train (list Q) (fun _ _ => inl KeyError) demo_predict
                (fun m => m) (fun _ => 0) (fun _ _ => 1) lagged_model 0
              = inl KeyError) by (vm_compute; reflexivity).
  split; [exact W | split; [exact E|]].
  destruct (train_raises_only_from_fit (list Q)
              (fun _ _ => inl KeyError) demo_predict
              (fun m => m) (fun _ => 0) (fun _ _ => 1) lagged_model 0
              KeyError W ltac:(discriminate) N E)
    as (df & ml & X & J & S & _).
  exists df. split; [|exact S]. now rewrite J.
Defined.

Lemma finding_fields_in_range_witness :
  exists f,
    In f (map finding (fst (demo_analyze ["HG=F"%string] true))) /\
    In (code f) ["HG=F"%string] /\
    In (best_lag f) [0; 5; 10; 20; 40; 60]%Z.
Proof.
  destruct (map finding (fst (demo_analyze ["HG=F"%string] true)))
    as [|f l] eqn:E; [vm_compute in E; discriminate|].
  assert (I : In f (map finding (fst (demo_analyze ["HG=F"%string] true))))
    by (rewrite E; now left).
  exists f. rewrite <- E. split; [exact I|].
  destruct (finding_fields_in_range nat demo_normal demo_fetch_stock
              demo_fetch_macro demo_check ["HG=F"%string] "1605.TW" true O
              f I) as (H1 & H2 & _).
  split; assumption.
Defined.

(** ** The projection shown by the application *)

Lemma join_outer_rows (df df' : DataFrame) (ss : list Series) (s : Series)
  (name : string) :
  frame_of df ss -> join_outer df s name = inr df' ->
  forall t vals, In (t, vals) (rows df') -> vals = map (cell t) (ss ++ [s]).
Proof.
  intros (Hc & Hrow & _) J t vals Hin. unfold join_outer in J.
  destruct (existsb _ _); [discriminate|]. injection J as <-.
  simpl in Hin. apply in_map_iff in Hin as (u & [= <- <-] & _).
  now rewrite Hc, Hrow, map_app.
Qed.

(** After the join of at least one driver, the row of a day holds the
    values the series have on that day. *)
Lemma join_drivers_rows (ds : list (string * DriverInfo)) :
  forall (df0 df : DataFrame) (ss0 : list Series)
         (cols0 cols : list string) (ml0 ml : Z),
    ds <> [] -> frame_of df0 ss0 ->
    join_drivers ds df0 cols0 ml0 = inr (df, cols, ml) ->
    forall t vals,
      In (t, vals) (rows df) ->
      vals = map (cell t) (ss0 ++ map (fun cd => shifted (snd cd)) ds).
Proof.
  induction ds as [|(c, d) ds IH]; intros df0 df ss0 cols0 cols ml0 ml Hne F J;
    [congruence|].
  simpl in J.
  destruct (join_outer df0 (shift (series d) (lag d)) c) as [e | df1] eqn:J1;
    [discriminate|]. cbn [bind] in J.
  destruct (join_outer_of _ _ _ _ _ F J1) as (F1 & _).
  destruct ds as [|cd ds'].
  - simpl in J. injection J as <- _ _. intros t vals Hin.
    apply (join_outer_rows _ _ _ _ _ F J1). exact Hin.
  - intros t vals Hin.
    rewrite (IH _ _ _ _ _ _ _ ltac:(discriminate) F1 J t vals Hin).
    simpl. now rewrite <- app_assoc.
Qed.

Lemma last_cons_In (l : list Z) (x : Z) : In (last l x) (x :: l).
Proof.
  induction l as [|y l IH]; [now left|].
  destruct l as [|z l]; [right; now left|].
  change (last (y :: z :: l) x) with (last (z :: l) x).
  destruct IH as [E | I]; [left; exact E | right; right; exact I].
Qed.

Lemma last_label_In (l : list Z) (t : Z) : last_label l = Some t -> In t l.
Proof.
  destruct l as [|x l]; [discriminate|]. intros [= <-].
  apply last_cons_In.
Qed.

Lemma last_label_Some (l : list Z) :
  l <> [] -> exists t, last_label l = Some t.
Proof. destruct l; [congruence | simpl; eauto]. Qed.

Section AppProjection.

Variable Model : Type.
Variable fit : list (list Q) -> list Q -> result Model.
Variable predict : Model -> list Q -> Q.
Variable coef_ : Model -> list Q.
Variable intercept_ : Model -> Q.
Variable r2_score : list Q -> list Q -> Q.

Let train' := train Model fit predict coef_ intercept_ r2_score.

(** A model trained on at least one driver has a day from the cutoff on
    at which the target and every shifted driver have their value. *)
Lemma train_Some_day (self : PriceModel) (cutoff : Z)
  (metrics : Metrics) (tbl : DataFrame) :
  drivers self <> [] ->
  train' self cutoff = inr (Some (metrics, tbl)) ->
  exists t0,
    (cutoff <= t0)%Z /\
    (exists v, cell t0 (stock_series self) = Some v) /\
    forall c d, In (c, d) (drivers self) ->
                exists v, cell t0 (shifted d) = Some v.
Proof.
  intros Hne. unfold train', train.
  destruct (join_drivers _ _ _ _) as [e | ((df, cols), ml)] eqn:J;
    [discriminate|]. cbn [bind].
  destruct (df_empty (df_dropna (loc_from cutoff df))) eqn:Em;
    [discriminate|]. intros _.
  destruct (rows (df_dropna (loc_from cutoff df))) as [|(t0, v0) r] eqn:R;
    [now rewrite (df_empty_no_rows _ R) in Em|].
  assert (Hin : In (t0, v0) (rows (df_dropna (loc_from cutoff df))))
    by (rewrite R; now left).
  unfold df_dropna, loc_from in Hin. simpl in Hin.
  apply filter_In in Hin as (Hin & Hall).
  apply filter_In in Hin as (Hin & Hc). simpl in Hc, Hall.
  rewrite (join_drivers_rows _ _ _ [stock_series self] _ _ _ _ Hne
             (to_frame_of _ _) J t0 v0 Hin) in Hall.
  simpl in Hall. apply andb_true_iff in Hall as (Hs & Hd).
  exists t0. split; [lia|]. split.
  - destruct (cell t0 (stock_series self)) as [v|]; [eauto | discriminate].
  - intros c d Hcd. rewrite forallb_forall in Hd.
    assert (I : In (cell t0 (shifted d))
                  (map (cell t0)
                     (map (fun cd => shifted (snd cd)) (drivers self)))).
    { apply in_map.
      change (shifted d) with ((fun cd => shifted (snd cd)) (c, d)).
      now apply in_map. }
    apply Hd in I. destruct (cell t0 (shifted d)) as [v|];
      [eauto | discriminate].
Qed.

(** X19.  The projection of the application, after a model was trained on
    at least one driver: the table has a last day and the target a last
    price date, so neither [index[-1]] raises; the last day of the table
    is a date of every driver's own series, whatever the lags.  A
    projected target is therefore shown only when every driver has been
    observed after the last price date: a driver that ends with the
    target leaves no projection. *)
Theorem projection_within_driver_dates (stock : Series)
  (macros_data : list (string * DriverInfo)) (cutoff : Z)
  (metrics : Metrics) (tbl : DataFrame) :
  macros_data <> [] ->
  train' (load_data stock macros_data) cutoff = inr (Some (metrics, tbl)) ->
  exists fv actual,
    projection stock tbl
    = Some ((actual <? fv)%Z, (fv - actual)%Z) /\
    (cutoff <= fv)%Z /\
    (forall c d, In (c, d) macros_data -> In fv (index (series d))) /\
    ((exists c d, In (c, d) macros_data /\
                  forall t, In t (index (series d)) -> (t <= actual)%Z) ->
     (actual <? fv)%Z = false).
Proof.
  intros Hne H.
  destruct (train_Some_day (load_data stock macros_data) cutoff metrics
              tbl Hne H) as (t0 & Hc & (v & Hv) & Hd).
  destruct (train_table_days Model fit predict coef_ intercept_ r2_score
              (load_data stock macros_data) cutoff metrics tbl H)
    as (D1 & D2).
  assert (Ht : In t0 (df_index tbl)) by (apply (D2 Hne t0 Hc Hd)).
  destruct (last_label_Some (df_index tbl)) as (fv & Efv).
  { intro E. now rewrite E in Ht. }
  destruct (last_label_Some (index (s_dropna stock))) as (actual & Ea).
  { simpl in Hv. apply has_value_cell in Hv as (w & Hw).
    apply In_index in Hw. intro E. now rewrite E in Hw. }
  destruct (D1 fv (last_label_In _ _ Efv)) as (Hcf & Hdf).
  exists fv, actual. split; [|split; [exact Hcf | split]].
  - unfold projection. now rewrite Efv, Ea.
  - intros c d Hcd. now apply (Hdf c d).
  - intros (c & d & Hcd & Hle). apply Z.ltb_ge. apply Hle.
    now apply (Hdf c d).
Qed.

End AppProjection.

Lemma projection_within_driver_dates_witness :
  exists metrics tbl,
    demo_train lagged_model 0 = inr (Some (metrics, tbl)) /\
    exists fv actual,
      projection (ramp 0 6 1 10) tbl
      = Some ((actual <? fv)%Z, (fv - actual)%Z) /\
      In fv (index (ramp 0 6 2 3)).
Proof.
  destruct (demo_train lagged_model 0) as [e | [(metrics, tbl)|]] eqn:E;
    try (vm_compute in E; discriminate).
  exists metrics, tbl. split; [reflexivity|].
  destruct (projection_within_driver_dates (list Q) demo_fit demo_predict
              (fun m => m) (fun _ => 0) (fun _ _ => 1)
              (ramp 0 6 1 10)
              [("HG=F"%string, mkDriver (ramp 0 6 2 3) 2%Z)] 0
              metrics tbl ltac:(discriminate) E)
    as (fv & actual & P & _ & Hd & _).
  exists fv, actual. split; [exact P|].
  exact (Hd _ _ (or_introl eq_refl)).
Defined.

(** ** The sample of a finding *)

Lemma filter_filter {A : Type} (p q : A -> bool) (l : list A) :
  filter p (filter q l) = filter (fun x => p x && q x) l.
Proof.
  induction l as [|x l IH]; [reflexivity|]. simpl.
  destruct (q x); simpl; [|now rewrite andb_false_r].
  rewrite andb_true_r. destruct (p x); now rewrite IH.
Qed.

Lemma filter_map_swap {A B : Type} (f : A -> B) (p : B -> bool)
  (l : list A) :
  filter p (map f l) = map f (filter (fun x => p (f x)) l).
Proof.
  induction l as [|x l IH]; [reflexivity|]. simpl.
  destruct (p (f x)); simpl; now rewrite IH.
Qed.

(** The rows of a two-column frame from a day on, counted on its days. *)
Lemma regime_len (start : Z) (l : list (Z * option Q * option Q)) :
  df_len (loc_from start (mkDF ["Stock"; "Macro"]%string (rows2 l)))
  = length (filter (fun t => (start <=? t)%Z)
              (map (fun r => fst (fst r)) l)).
Proof.
  unfold df_len, loc_from, rows2. simpl.
  rewrite !filter_map_swap, !length_map. reflexivity.
Qed.

Lemma concat_rows2 (a b : Series) :
  concat_columns a b "Stock" "Macro"
  = mkDF ["Stock"; "Macro"]%string
      (rows2 (map (fun t => (t, cell t a, cell t b))
                (union_index (index a) (index b)))).
Proof. unfold concat_columns, rows2. now rewrite map_map. Qed.

(** A series has a value on some day, or on none. *)
Lemma cell_some_or_none (s : Series) :
  (exists t v, cell t s = Some v) \/ (forall t, cell t s = None).
Proof.
  assert (H : forall l : list Z,
             (exists t v, cell t s = Some v) \/
             (forall t, In t l -> cell t s = None)).
  { induction l as [|u l [IH | IH]]; [right; intros t [] | now left |].
    destruct (cell u s) as [v|] eqn:E; [left; eauto|].
    right. intros t [<- | Ht]; auto. }
  destruct (H (index s)) as [E | N]; [now left | right].
  intros t. destruct (in_dec Z.eq_dec t (index s)) as [I | I];
    [now apply N | now apply cell_notin].
Qed.

Section SampleSize.

Variable G : Type.
Variable standard_normal : G -> Q * G.
Variable fetch_stock_data : string -> Series.
Variable fetch_macro_data : string -> Series.

(** X20.  What [sample_size] counts.  For a candidate fetched from Yahoo
    it is the number of days from 2020-01-01 on which the target and the
    candidate both have a value.  For a candidate fetched from FRED the
    driver is filled on every day, so that it is the number of days of
    either series from 2020-01-01 on which the target has a value,
    however few observations the driver has. *)
Theorem sample_size_counts_days (ticker c : string) (g g' : G)
  (f : Finding) :
  analyze_code G standard_normal fetch_stock_data fetch_macro_data
    ticker c g = (inr (Some f), g') ->
  let stock := fetch_stock_data ticker in
  (yahoo_routed c = true ->
   sample_size f
   = length (regime_days stock (fetch_stock_data c)
               (fun t => notnull (cell t stock)
                         && notnull (cell t (fetch_stock_data c))))) /\
  (yahoo_routed c = false ->
   sample_size f
   = length (regime_days stock (fetch_macro_data c)
               (fun t => notnull (cell t stock)))).
Proof.
  intros H stock.
  apply analyze_code_finding in H as (df & L & S).
  destruct (score_frame_Some c df f S) as (_ & H30 & -> & _).
  unfold regime_days. split; intros Y.
  - rewrite (load_frame_yahoo G standard_normal fetch_stock_data
               fetch_macro_data ticker c g Y) in L.
    destruct (s_empty (fetch_stock_data c)); [discriminate|].
    injection L as <- _. fold stock.
    rewrite concat_rows2, dropna_rows2, regime_len.
    rewrite <- filter_filter. f_equal. f_equal.
    rewrite filter_map_swap, map_map. simpl. rewrite map_id.
    reflexivity.
  - unfold load_frame in L. unfold yahoo_routed in Y. rewrite Y in L.
    destruct (fetch_and_align G standard_normal fetch_stock_data
                fetch_macro_data ticker c g) as [[e | df'] g1] eqn:E;
      [discriminate|]. injection L as -> ->.
    destruct (s_empty (fetch_stock_data ticker)) eqn:Hs.
    { unfold fetch_and_align in E. rewrite Hs in E. injection E as <- _.
      change (df_len (loc_from regime_start empty_frame)) with O in H30.
      lia. }
    destruct (s_empty (fetch_macro_data c)) eqn:Hm.
    { unfold fetch_and_align in E. rewrite Hs, Hm in E.
      injection E as <- _.
      change (df_len (loc_from regime_start empty_frame)) with O in H30.
      lia. }
    destruct (fetch_and_align_shape G standard_normal fetch_stock_data
                fetch_macro_data ticker c g g' df Hs Hm E)
      as (l & -> & Hd & _ & Hf & Hn).
    destruct (cell_some_or_none (fetch_macro_data c)) as [V | V].
    + rewrite regime_len, (complete_days _ _ _ Hd (Hf V)).
      now rewrite filter_filter.
    + rewrite (none_days l (Hn V)) in H30.
      change (df_len _) with O in H30. lia.
Qed.

End SampleSize.

Lemma sample_size_counts_days_witness :
  exists f,
    analyze_code nat demo_normal demo_fetch_stock demo_fetch_macro
      "1605.TW" "DGS10" 7%nat = (inr (Some f), 37%nat) /\
    sample_size f = 30%nat.
Proof.
  destruct (analyze_code nat demo_normal demo_fetch_stock demo_fetch_macro
              "1605.TW" "DGS10" 7%nat) as [[e | [f|]] g'] eqn:E;
    try (vm_compute in E; discriminate).
  assert (Eg : g' = 37%nat)
    by (apply (f_equal snd) in E; vm_compute in E; congruence).
  exists f. split; [now rewrite Eg|].
  destruct (sample_size_counts_days nat demo_normal demo_fetch_stock
              demo_fetch_macro "1605.TW" "DGS10" 7%nat g' f E) as [_ H].
  rewrite (H eq_refl). vm_compute. reflexivity.
Defined.

(** ** The coefficients of the model *)

Lemma row_at_length (w : nat) (t : Z) (rs : list (Z * list (option Q))) :
  (forall r, In r rs -> length (snd r) = w) -> length (row_at w t rs) = w.
Proof.
  induction rs as [|(u, l) rs IH]; intros H; simpl.
  - apply repeat_length.
  - destruct (Z.eqb t u).
    + apply (H (u, l)). now left.
    + apply IH. intros r Hr. apply H. now right.
Qed.

Lemma to_frame_full (s : Series) (name : string) :
  full_rows (to_frame s name).
Proof.
  intros r Hr. unfold to_frame in Hr. simpl in Hr.
  apply in_map_iff in Hr as (p & <- & _). reflexivity.
Qed.

Lemma join_outer_full (df df' : DataFrame) (s : Series) (name : string) :
  full_rows df -> join_outer df s name = inr df' -> full_rows df'.
Proof.
  intros F. unfold join_outer. destruct (existsb _ _); [discriminate|].
  intros [= <-] r Hr. simpl in Hr.
  apply in_map_iff in Hr as (t & <- & _). simpl.
  rewrite !length_app, row_at_length; [reflexivity | exact F].
Qed.

Lemma join_drivers_full (ds : list (string * DriverInfo)) :
  forall (df0 df : DataFrame) (cols0 cols : list string) (ml0 ml : Z),
    full_rows df0 ->
    join_drivers ds df0 cols0 ml0 = inr (df, cols, ml) -> full_rows df.
Proof.
  induction ds as [|(c, d) ds IH]; intros df0 df cols0 cols ml0 ml F; simpl.
  - now intros [= <- _ _].
  - destruct (join_outer df0 (shift (series d) (lag d)) c) as [e | df1]
      eqn:J; [discriminate|]. cbn [bind]. apply IH.
    exact (join_outer_full _ _ _ _ F J).
Qed.

Lemma col_pos_lt (n : string) (cols : list string) :
  In n cols -> (col_pos n cols < length cols)%nat.
Proof.
  induction cols as [|c cols IH]; simpl; [tauto|]. intros H.
  destruct (String.eqb_spec n c) as [-> | N]; [lia|].
  destruct H as [H | H]; [congruence|]. specialize (IH H). lia.
Qed.

Lemma positions_spec (cols names : list string) (ps : list nat) :
  positions cols names = inr ps ->
  length ps = length names /\
  Forall (fun p => (p < length cols)%nat) ps.
Proof.
  revert ps. induction names as [|n names IH]; intros ps; simpl.
  - intros [= <-]. split; [reflexivity | constructor].
  - destruct (existsb (String.eqb n) cols) eqn:E; [|discriminate].
    destruct (positions cols names) as [e | ps']; [discriminate|].
    simpl. intros [= <-]. destruct (IH ps' eq_refl) as (L & F).
    split; [simpl; now rewrite L|]. constructor; [|exact F].
    apply col_pos_lt. apply existsb_exists in E as (x & Hx & Ex).
    apply String.eqb_eq in Ex. now subst.
Qed.

(** The rows selected from complete rows hold one number a name. *)
Lemma select_present (df X : DataFrame) (names : list string) :
  full_rows df ->
  (forall r, In r (rows df) -> forallb notnull (snd r) = true) ->
  select df names = inr X ->
  forall r, In r (rows X) -> length (present (snd r)) = length names.
Proof.
  intros F C. unfold select.
  destruct (positions (columns df) names) as [e | ps] eqn:P;
    [discriminate|]. simpl. intros [= <-] r Hr. simpl in Hr.
  apply in_map_iff in Hr as (r0 & <- & Hr0). simpl.
  destruct (positions_spec _ _ _ P) as (L & B).
  rewrite present_all, length_map; [exact L|].
  apply Forall_forall. intros v Hv.
  apply in_map_iff in Hv as (p & <- & Hp).
  rewrite Forall_forall in B. specialize (B p Hp).
  rewrite <- (F r0 Hr0) in B.
  specialize (C r0 Hr0). rewrite forallb_forall in C. apply C.
  now apply nth_In.
Qed.

Section TrainCoefficients.

Variable Model : Type.
Variable fit : list (list Q) -> list Q -> result Model.
Variable predict : Model -> list Q -> Q.
Variable coef_ : Model -> list Q.
Variable intercept_ : Model -> Q.
Variable r2_score : list Q -> list Q -> Q.

Let train' := train Model fit predict coef_ intercept_ r2_score.

(** The steps behind a result of [train], up to the regression. *)
Lemma train_Some_fit (self : PriceModel) (cutoff : Z)
  (metrics : Metrics) (tbl : DataFrame) :
  train' self cutoff = inr (Some (metrics, tbl)) ->
  exists df ml X m,
    join_drivers (drivers self) (to_frame (stock_series self) "Y") [] 0%Z
    = inr (df, map fst (drivers self), ml) /\
    rows (df_dropna (loc_from cutoff df)) <> [] /\
    select (df_dropna (loc_from cutoff df)) (map fst (drivers self))
    = inr X /\
    fit (map (fun r => present (snd r)) (rows X))
      (present (values (column (df_dropna (loc_from cutoff df)) "Y")))
    = inr m /\
    Max_Lag metrics = ml /\
    Coefficients metrics = combine (map fst (drivers self)) (coef_ m) /\
    Intercept metrics = intercept_ m.
Proof.
  unfold train', train.
  destruct (join_drivers _ _ _ _) as [e | ((df, cols), ml)] eqn:J;
    [discriminate|]. cbn [bind].
  destruct (join_drivers_of _ _ _ [stock_series self] _ _ _ _
              (to_frame_of _ _) ltac:(repeat constructor; simpl; tauto) J)
    as (_ & _ & Hc & _). simpl in Hc. subst cols.
  destruct (df_empty (df_dropna (loc_from cutoff df))) eqn:Em;
    [discriminate|].
  destruct (select (df_dropna (loc_from cutoff df)) _) as [e | X] eqn:SX;
    [discriminate|]. cbn [bind].
  destruct (fit _ _) as [e | m] eqn:F; [discriminate|]. cbn [bind].
  destruct (build_full (drivers self) _ empty_frame) as [e | full_df];
    [discriminate|]. cbn [bind].
  destruct (select (df_dropna (loc_from cutoff full_df)) _)
    as [e | features]; [discriminate|]. cbn [bind].
  intros [= <- _]. exists df, ml, X, m.
  split; [reflexivity|]. split.
  { intro R.
    now rewrite (df_empty_no_rows (df_dropna (loc_from cutoff df)) R)
      in Em. }
  repeat split; auto.
Qed.

(** X3.  In every result of [train], for a regression whose model has one
    coefficient for each column of the training matrix (scikit-learn's
    [coef_] has shape (n_features,)): [Max_Lag] is the largest lag of the
    drivers, or 0 when no lag is positive; the keys of [Coefficients] are
    the driver codes, in the order of the drivers; and the coefficients
    and the intercept are those of the model fitted on the training
    rows. *)
Theorem train_metrics (self : PriceModel) (cutoff : Z)
  (metrics : Metrics) (tbl : DataFrame) :
  (forall X y m, fit X y = inr m ->
                 exists row, In row X /\ length (coef_ m) = length row) ->
  train' self cutoff = inr (Some (metrics, tbl)) ->
  (0 <= Max_Lag metrics)%Z /\
  (forall c d, In (c, d) (drivers self) -> (lag d <= Max_Lag metrics)%Z) /\
  (Max_Lag metrics = 0%Z \/
   exists c d, In (c, d) (drivers self) /\ lag d = Max_Lag metrics) /\
  map fst (Coefficients metrics) = map fst (drivers self) /\
  exists df ml X m,
    join_drivers (drivers self) (to_frame (stock_series self) "Y") [] 0%Z
    = inr (df, map fst (drivers self), ml) /\
    select (df_dropna (loc_from cutoff df)) (map fst (drivers self))
    = inr X /\
    fit (map (fun r => present (snd r)) (rows X))
      (present (values (column (df_dropna (loc_from cutoff df)) "Y")))
    = inr m /\
    map snd (Coefficients metrics) = coef_ m /\
    Intercept metrics = intercept_ m.
Proof.
  intros Hcoef H.
  destruct (train_Some_fit self cutoff metrics tbl H)
    as (df & ml & X & m & J & Hne & SX & F & -> & -> & ->).
  destruct (join_drivers_max_lag _ _ _ _ _ _ _ J) as (H1 & H2 & H3).
  assert (L : length (coef_ m) = length (map fst (drivers self))).
  { assert (Fu : full_rows df)
      by exact (join_drivers_full _ _ _ _ _ _ _ (to_frame_full _ _) J).
    destruct (Hcoef _ _ _ F) as (row & Hrow & ->).
    apply in_map_iff in Hrow as (r & <- & Hr).
    apply (select_present (df_dropna (loc_from cutoff df)) X); auto.
    - intros r0 Hr0. unfold df_dropna, loc_from in Hr0. simpl in Hr0.
      apply filter_In in Hr0 as (Hr0 & _).
      apply filter_In in Hr0 as (Hr0 & _). now apply Fu.
    - intros r0 Hr0. unfold df_dropna in Hr0. simpl in Hr0.
      now apply filter_In in Hr0. }
  repeat split; auto.
  - revert L. generalize (coef_ m) as cs.
    generalize (map fst (drivers self)) as ks.
    induction ks as [|k ks IH]; intros [|c cs]; simpl; try discriminate;
      [reflexivity|]. intros [= L]. now rewrite IH.
  - exists df, ml, X, m. repeat split; auto.
    revert L. generalize (coef_ m) as cs.
    generalize (map fst (drivers self)) as ks.
    induction ks as [|k ks IH]; intros [|c cs]; simpl; try discriminate;
      [reflexivity|]. intros [= L]. now rewrite IH.
Qed.

End TrainCoefficients.

Lemma train_metrics_witness :
  exists metrics tbl,
    demo_train lagged_model 0 = inr (Some (metrics, tbl)) /\
    (0 <= Max_Lag metrics)%Z /\
    map fst (Coefficients metrics) = map fst (drivers lagged_model).
Proof.
  destruct (demo_train lagged_model 0) as [e | [(metrics, tbl)|]] eqn:E;
    try (vm_compute in E; discriminate).
  exists metrics, tbl. split; [reflexivity|].
  assert (Hc : forall X y m, demo_fit X y = inr m ->
                 exists row, In row X /\
                   length ((fun m : list Q => m) m) = length row).
  { intros X y m. unfold demo_fit. destruct X as [|r X]; [discriminate|].
    intros [= <-]. exists r. split; [now left | apply length_map]. }
  destruct (train_metrics (list Q) demo_fit demo_predict
              (fun m => m) (fun _ => 0) (fun _ _ => 1)
              lagged_model 0 metrics tbl Hc E) as (H1 & _ & _ & H4 & _).
  split; assumption.
Defined.
